(** * Pokedex HTTP service: request dispatcher, integrity sealer, image fetcher

    A shallow embedding of [src/index.js].  JavaScript strings are lists of
    UTF-16 code units, JSON values are an inductive type, the two document
    collections are lists in natural (insertion) order, and every handler is
    a function from the request and the stores to a response and the new
    stores.  A thrown exception is the [Throw] constructor of [Result]; the
    [try { ... } catch] of a handler is a match on it.

    Functions of the JavaScript platform whose tables are not part of the
    repository (ICU collation, Unicode normalisation, case mapping, URI
    decoding, URL parsing, [path.extname]) are fields of the [Platform]
    class; HMAC-SHA-256, UTF-8, [JSON.stringify], [parseInt] and [trim] are
    written out.  Numbers are the whole doubles: integers ([Z]) of at
    most 53 significant bits, with the rounding of IEEE 754 written out
    where the code computes one ([parseInt], the next identifier,
    [String]); [NaN] is a separate constructor where the code can produce
    it.  Numbers with a fractional part are outside the embedding.  The
    stores and the file system answer every call; the network may
    fail. *)

From Stdlib Require Import ZArith List String Ascii Bool Lia Permutation.
Import ListNotations.
Open Scope Z_scope.
Set Warnings "-register-all".

(* ================================================================== *)
(** ** JavaScript strings *)

(** A string is its sequence of UTF-16 code units. *)
Definition jstring := list Z.

(** ASCII literals. *)
Definition js (s : string) : jstring :=
  map (fun a => Z.of_N (N_of_ascii a)) (list_ascii_of_string s).

Fixpoint jstr_eqb (a b : jstring) : bool :=
  match a, b with
  | [], [] => true
  | x :: a', y :: b' => (x =? y) && jstr_eqb a' b'
  | _, _ => false
  end.

(** [a.startsWith(p)] *)
Fixpoint startsWith (p a : jstring) : bool :=
  match p, a with
  | [], _ => true
  | x :: p', y :: a' => (x =? y) && startsWith p' a'
  | _ :: _, [] => false
  end.

(** [a.includes(p)] *)
Fixpoint includes (a p : jstring) : bool :=
  startsWith p a ||
  match a with
  | [] => false
  | _ :: a' => includes a' p
  end.

(** White space and line terminators removed by [String.prototype.trim]. *)
Definition is_js_space (c : Z) : bool :=
  ((9 <=? c) && (c <=? 13)) || (c =? 32) || (c =? 160) || (c =? 5760)
  || ((8192 <=? c) && (c <=? 8202)) || (c =? 8232) || (c =? 8233)
  || (c =? 8239) || (c =? 8287) || (c =? 12288) || (c =? 65279).

Fixpoint trimStart (s : jstring) : jstring :=
  match s with
  | c :: s' => if is_js_space c then trimStart s' else s
  | [] => []
  end.

Definition trimEnd (s : jstring) : jstring := rev (trimStart (rev s)).

Definition trim (s : jstring) : jstring := trimEnd (trimStart s).

(** Decimal digits of a non-negative integer, most significant first. *)
Fixpoint digits_fuel (fuel : nat) (n : Z) (acc : jstring) : jstring :=
  match fuel with
  | O => acc
  | S f =>
      let acc' := (48 + n mod 10) :: acc in
      if n <? 10 then acc' else digits_fuel f (n / 10) acc'
  end.

(** The digits of a non-negative integer, all of them. *)
Definition natural_digits (n : Z) : jstring :=
  digits_fuel (Z.to_nat (Z.log2 n) + 1) n [].

(** *** Numbers are doubles

    A JavaScript number is an IEEE 754 double.  The numbers of this
    program are whole ones, so a number is an integer here, and the
    integers that are doubles are those of at most 53 significant bits
    below [INFINITY]; an integer of that magnitude or more stands for
    [Infinity] or [-Infinity].  [parseInt] and the addition that makes
    the next identifier round their exact result with [round_double],
    and [String] prints the shortest decimal that rounds to its
    argument. *)
Definition INFINITY : Z := 2 ^ 1024.

(** The double nearest to an integer, ties to the even mantissa. *)
Definition round_double (n : Z) : Z :=
  let a := Z.abs n in
  if a <? 2 ^ 53 then n
  else
    let e := Z.log2 a - 52 in
    let q := Z.shiftr a e in
    let r := a - Z.shiftl q e in
    let half := 2 ^ (e - 1) in
    let q' := if (half <? r) || ((r =? half) && Z.odd q) then q + 1 else q in
    let v := Z.shiftl q' e in
    Z.sgn n * (if INFINITY <=? v then INFINITY else v).

(** [a + b] on numbers. *)
Definition js_add (a b : Z) : Z := round_double (a + b).

(** Number::toString picks the decimal of fewest significant digits that
    reads back as the same double, the nearest one when several do.
    [shortest_fuel] tries the multiples of [10 ^ z] on either side of
    [x], from the coarsest [z] down. *)
Fixpoint shortest_fuel (fuel : nat) (x z : Z) : Z :=
  match fuel with
  | O => x
  | S f =>
      let p := 10 ^ z in
      let c1 := (x / p) * p in
      let c2 := c1 + p in
      let ok1 := round_double c1 =? x in
      let ok2 := round_double c2 =? x in
      if ok1 && ok2
      then if x - c1 <? c2 - x then c1
           else if c2 - x <? x - c1 then c2
           else if Z.even (x / p) then c1 else c2
      else if ok1 then c1
      else if ok2 then c2
      else shortest_fuel f x (z - 1)
  end.

Definition decimal_length (n : Z) : Z := Z.of_nat (List.length (natural_digits n)).

Definition shortest (x : Z) : Z :=
  shortest_fuel (Z.to_nat (decimal_length x)) x (decimal_length x - 1).

Fixpoint strip_zeros (fuel : nat) (n : Z) : Z :=
  match fuel with
  | O => n
  | S f => if (0 <? n) && (n mod 10 =? 0) then strip_zeros f (n / 10) else n
  end.

(** [1.5e+21]: the significant digits with a point after the first, and
    the exponent. *)
Definition exponent_form (c : Z) : jstring :=
  let significant := natural_digits (strip_zeros (Z.to_nat (decimal_length c)) c) in
  let exponent := natural_digits (decimal_length c - 1) in
  match significant with
  | [] => []
  | [d] => d :: 101 :: 43 :: exponent
  | d :: more => d :: 46 :: more ++ 101 :: 43 :: exponent
  end.

(** [String(x)] for [x >= 0]: the digits of the decimal chosen, in full
    below [10 ^ 21] and in exponent form from there on. *)
Definition positive_to_string (x : Z) : jstring :=
  if INFINITY <=? x then js "Infinity"
  else
    let c := shortest x in
    if c <? 10 ^ 21 then natural_digits c else exponent_form c.

(** [String(n)] for a number [n]. *)
Definition number_to_string (n : Z) : jstring :=
  if n <? 0 then 45 :: positive_to_string (- n) else positive_to_string n.

(* ================================================================== *)
(** ** Results of computations that may throw *)

Inductive Result (A : Type) : Type :=
| Ok (a : A)
| Throw (message : jstring).
Arguments Ok {A} a.
Arguments Throw {A} message.

Definition bind {A B} (r : Result A) (k : A -> Result B) : Result B :=
  match r with
  | Ok a => k a
  | Throw m => Throw m
  end.

Notation "x <- r ;; k" := (bind r (fun x => k))
  (at level 61, r at next level, right associativity).

(* ================================================================== *)
(** ** SHA-256 and HMAC ([createHmac('sha256', secret)]) *)

Module Sha256.

Definition w32 (x : Z) : Z := Z.land x 4294967295.

Definition add32 (x y : Z) : Z := w32 (x + y).

Definition rotr (n x : Z) : Z :=
  Z.lor (Z.shiftr x n) (w32 (Z.shiftl x (32 - n))).

Definition Ch (x y z : Z) : Z :=
  Z.lxor (Z.land x y) (Z.land (Z.lxor x 4294967295) z).

Definition Maj (x y z : Z) : Z :=
  Z.lxor (Z.lxor (Z.land x y) (Z.land x z)) (Z.land y z).

Definition Sigma0 x := Z.lxor (Z.lxor (rotr 2 x) (rotr 13 x)) (rotr 22 x).
Definition Sigma1 x := Z.lxor (Z.lxor (rotr 6 x) (rotr 11 x)) (rotr 25 x).
Definition sigma0 x := Z.lxor (Z.lxor (rotr 7 x) (rotr 18 x)) (Z.shiftr x 3).
Definition sigma1 x := Z.lxor (Z.lxor (rotr 17 x) (rotr 19 x)) (Z.shiftr x 10).

(** The constants of the standard are fractional parts of roots of the
    first primes: the first 32 bits after the point of the cube roots of
    the first 64 primes, and of the square roots of the first 8. *)
Definition is_prime (n : nat) : bool :=
  forallb (fun d => negb (Nat.eqb (Nat.modulo n d) 0)) (seq 2 (n - 2)).

Definition primes : list Z :=
  map Z.of_nat (filter is_prime (seq 2 310)).

(** The greatest [r] between [lo] and [hi] with [r ^ k <= n], by
    bisection. *)
Fixpoint root_between (fuel : nat) (k n lo hi : Z) : Z :=
  match fuel with
  | O => lo
  | S f =>
      if hi - lo <=? 1 then lo
      else
        let mid := (lo + hi) / 2 in
        if mid ^ k <=? n
        then root_between f k n mid hi
        else root_between f k n lo mid
  end.

Definition root_fraction (k p : Z) : Z :=
  w32 (root_between 64 k (p * 2 ^ (32 * k)) 0 (2 ^ 40)).

Definition K : list Z :=
  Eval vm_compute in map (root_fraction 3) (firstn 64 primes).

Definition H0 : list Z :=
  Eval vm_compute in map (root_fraction 2) (firstn 8 primes).

(** Big-endian bytes of a word. *)
Definition be_bytes (n : nat) (x : Z) : list Z :=
  map (fun i => Z.land (Z.shiftr x (8 * Z.of_nat i)) 255) (rev (seq 0 n)).

Definition pad (msg : list Z) : list Z :=
  let len := Z.of_nat (List.length msg) in
  let zeros := Z.to_nat ((55 - len) mod 64) in
  msg ++ [128] ++ repeat 0 zeros ++ be_bytes 8 (8 * len).

Fixpoint words (fuel : nat) (bs : list Z) : list Z :=
  match fuel, bs with
  | S f, b0 :: b1 :: b2 :: b3 :: rest =>
      (Z.shiftl b0 24 + Z.shiftl b1 16 + Z.shiftl b2 8 + b3) :: words f rest
  | _, _ => []
  end.

(** Message schedule; [recent] holds the words so far, newest first. *)
Fixpoint schedule (n : nat) (recent : list Z) : list Z :=
  match n with
  | O => rev recent
  | S n' =>
      let w := add32 (add32 (sigma1 (nth 1 recent 0)) (nth 6 recent 0))
                     (add32 (sigma0 (nth 14 recent 0)) (nth 15 recent 0)) in
      schedule n' (w :: recent)
  end.

Definition round (st : list Z) (kw : Z * Z) : list Z :=
  match st with
  | [a; b; c; d; e; f; g; h] =>
      let t1 := add32 (add32 (add32 h (Sigma1 e)) (add32 (Ch e f g) (fst kw)))
                      (snd kw) in
      let t2 := add32 (Sigma0 a) (Maj a b c) in
      [add32 t1 t2; a; b; c; add32 d t1; e; f; g]
  | _ => st
  end.

Definition compress (h : list Z) (block : list Z) : list Z :=
  let w := schedule 48 (rev (words 16 block)) in
  let st := fold_left round (combine K w) h in
  map (fun p => add32 (fst p) (snd p)) (combine h st).

Fixpoint blocks (fuel : nat) (bs : list Z) : list (list Z) :=
  match fuel, bs with
  | S f, _ :: _ => firstn 64 bs :: blocks f (skipn 64 bs)
  | _, _ => []
  end.

Definition sha256 (msg : list Z) : list Z :=
  let p := pad msg in
  flat_map (be_bytes 4) (fold_left compress (blocks (List.length p) p) H0).

Definition hmac (key msg : list Z) : list Z :=
  let k0 := if (64 <? Z.of_nat (List.length key)) then sha256 key else key in
  let k := k0 ++ repeat 0 (64 - List.length k0) in
  sha256 (map (Z.lxor 0x5c) k ++ sha256 (map (Z.lxor 0x36) k ++ msg)).

End Sha256.

Definition hex_digit (d : Z) : Z := if d <? 10 then 48 + d else 87 + d.

(** [.digest('hex')]: two lowercase hexadecimal digits per byte. *)
Definition hex (bs : list Z) : jstring :=
  flat_map (fun b => [hex_digit (Z.shiftr b 4); hex_digit (Z.land b 15)]) bs.

(** UTF-8 encoding of a string given as UTF-16 code units; an unpaired
    surrogate is encoded as U+FFFD. *)
Definition utf8_cp (c : Z) : list Z :=
  if c <? 128 then [c]
  else if c <? 2048 then [192 + Z.shiftr c 6; 128 + Z.land c 63]
  else if c <? 65536 then
    [224 + Z.shiftr c 12; 128 + Z.land (Z.shiftr c 6) 63; 128 + Z.land c 63]
  else
    [240 + Z.shiftr c 18; 128 + Z.land (Z.shiftr c 12) 63;
     128 + Z.land (Z.shiftr c 6) 63; 128 + Z.land c 63].

Definition is_high_surrogate (c : Z) := (55296 <=? c) && (c <=? 56319).
Definition is_low_surrogate (c : Z) := (56320 <=? c) && (c <=? 57343).

Fixpoint utf8 (s : jstring) : list Z :=
  match s with
  | [] => []
  | c :: s' =>
      if is_high_surrogate c then
        match s' with
        | d :: s'' =>
            if is_low_surrogate d
            then utf8_cp (65536 + Z.shiftl (c - 55296) 10 + (d - 56320))
                   ++ match s' with _ :: t => utf8 t | [] => [] end
            else utf8_cp 65533 ++ utf8 s'
        | [] => utf8_cp 65533
        end
      else if is_low_surrogate c then utf8_cp 65533 ++ utf8 s'
      else utf8_cp c ++ utf8 s'
  end.

(** [createHmac('sha256', secret).update(text).digest('hex')] *)
Definition hmac_sha256_hex (secret text : jstring) : jstring :=
  hex (Sha256.hmac (utf8 secret) (utf8 text)).

(* ================================================================== *)
(** ** JSON values and objects *)

(** A value of the request body or of a stored document.  [VObj] lists the
    own properties of a plain object in the order of their creation; a
    well-formed object has pairwise distinct keys.  [VNum] holds a finite
    whole double. *)
Inductive JsValue : Type :=
| VUndefined
| VNull
| VBool (b : bool)
| VNum (n : Z)
| VStr (s : jstring)
| VArr (items : list JsValue)
| VObj (props : list (jstring * JsValue)).

(** ToBoolean *)
Definition truthy (v : JsValue) : bool :=
  match v with
  | VUndefined | VNull => false
  | VBool b => b
  | VNum n => negb (n =? 0)
  | VStr s => match s with [] => false | _ => true end
  | VArr _ | VObj _ => true
  end.

Definition is_digit (c : Z) : bool := (48 <=? c) && (c <=? 57).

(** Value of a string of decimal digits. *)
Definition digits_value (s : jstring) : Z :=
  fold_left (fun acc c => 10 * acc + (c - 48)) s 0.

(** An array index is the canonical decimal form of an integer in
    [0 .. 2^32 - 2]. *)
Definition array_index (key : jstring) : option Z :=
  match key with
  | [] => None
  | c :: rest =>
      if forallb is_digit key
         && (match rest with [] => true | _ => negb (c =? 48) end)
         && (Nat.leb (List.length key) 10)
         && (digits_value key <? 4294967295)
      then Some (digits_value key)
      else None
  end.

Section OwnProperties.
Context {A : Type}.

Fixpoint assoc (key : jstring) (props : list (jstring * A)) : option A :=
  match props with
  | [] => None
  | (k, v) :: rest => if jstr_eqb k key then Some v else assoc key rest
  end.

Fixpoint insert_index (p : Z * (jstring * A)) (l : list (Z * (jstring * A)))
  : list (Z * (jstring * A)) :=
  match l with
  | [] => [p]
  | q :: l' => if fst q <? fst p then q :: insert_index p l' else p :: l
  end.

Definition index_props (props : list (jstring * A)) : list (Z * (jstring * A)) :=
  flat_map (fun kv => match array_index (fst kv) with
                      | Some i => [(i, kv)]
                      | None => []
                      end) props.

Definition named_props (props : list (jstring * A)) : list (jstring * A) :=
  filter (fun kv => match array_index (fst kv) with
                    | Some _ => false
                    | None => true
                    end) props.

(** OrdinaryOwnPropertyKeys: array indices in ascending numeric order, then
    the other string keys in order of creation. *)
Definition own_order (props : list (jstring * A)) : list (jstring * A) :=
  map snd (fold_right insert_index [] (index_props props)) ++ named_props props.

(** [obj[key] = v] on a plain object.  Assigning a number, string or
    boolean to ["__proto__"] goes to the setter inherited from
    [Object.prototype], which ignores it; an object or [null] becomes the
    prototype.  In both cases no own property is created. *)
Fixpoint update_prop (props : list (jstring * A)) (key : jstring) (v : A)
  : list (jstring * A) :=
  match props with
  | [] => [(key, v)]
  | (k, w) :: rest =>
      if jstr_eqb k key then (k, v) :: rest else (k, w) :: update_prop rest key v
  end.

Definition set_prop (props : list (jstring * A)) (key : jstring) (v : A)
  : list (jstring * A) :=
  if jstr_eqb key (js "__proto__") then props else update_prop props key v.
End OwnProperties.

(** Keys ["0"], ["1"], ... of an array or string of the given length. *)
Definition index_keys (n : nat) : list jstring :=
  map (fun i => number_to_string (Z.of_nat i)) (seq 0 n).

(** [Object.keys(v)] *)
Definition Object_keys (v : JsValue) : Result (list jstring) :=
  match v with
  | VUndefined | VNull =>
      Throw (js "Cannot convert undefined or null to object")
  | VBool _ | VNum _ => Ok []
  | VStr s => Ok (index_keys (List.length s))
  | VArr items => Ok (index_keys (List.length items))
  | VObj props => Ok (map fst (own_order props))
  end.

(** [v[key]] for a key returned by [Object.keys(v)]. *)
Definition get_prop (v : JsValue) (key : jstring) : JsValue :=
  match v with
  | VObj props => match assoc key props with Some x => x | None => VUndefined end
  | VArr items =>
      match array_index key with
      | Some i => nth (Z.to_nat i) items VUndefined
      | None => VUndefined
      end
  | VStr s =>
      match array_index key with
      | Some i => match nth_error s (Z.to_nat i) with
                  | Some c => VStr [c]
                  | None => VUndefined
                  end
      | None => VUndefined
      end
  | _ => VUndefined
  end.

(* ================================================================== *)
(** ** [JSON.stringify] *)

Definition hex4 (c : Z) : jstring :=
  [hex_digit (Z.land (Z.shiftr c 12) 15); hex_digit (Z.land (Z.shiftr c 8) 15);
   hex_digit (Z.land (Z.shiftr c 4) 15); hex_digit (Z.land c 15)].

Definition unicode_escape (c : Z) : jstring := 92 :: 117 :: hex4 c.

(** QuoteJSONString, without the surrounding quotes. *)
Fixpoint quote_chars (s : jstring) : jstring :=
  match s with
  | [] => []
  | c :: s' =>
      if c =? 34 then 92 :: 34 :: quote_chars s'
      else if c =? 92 then 92 :: 92 :: quote_chars s'
      else if c =? 8 then 92 :: 98 :: quote_chars s'
      else if c =? 9 then 92 :: 116 :: quote_chars s'
      else if c =? 10 then 92 :: 110 :: quote_chars s'
      else if c =? 12 then 92 :: 102 :: quote_chars s'
      else if c =? 13 then 92 :: 114 :: quote_chars s'
      else if c <? 32 then unicode_escape c ++ quote_chars s'
      else if is_high_surrogate c then
        match s' with
        | d :: s'' =>
            if is_low_surrogate d then c :: d :: quote_chars s''
            else unicode_escape c ++ quote_chars s'
        | [] => unicode_escape c
        end
      else if is_low_surrogate c then unicode_escape c ++ quote_chars s'
      else c :: quote_chars s'
  end.

Definition quote (s : jstring) : jstring := 34 :: quote_chars s ++ [34].

Fixpoint join_comma (parts : list jstring) : jstring :=
  match parts with
  | [] => []
  | [p] => p
  | p :: rest => p ++ 44 :: join_comma rest
  end.

(** One [key:value] member; a member whose value has no JSON form is left
    out. *)
Definition member (kv : jstring * option jstring) : list jstring :=
  match snd kv with
  | Some text => [quote (fst kv) ++ 58 :: text]
  | None => []
  end.

(** [JSON.stringify(v)]; [None] is the result [undefined]. *)
Fixpoint stringify (v : JsValue) : option jstring :=
  match v with
  | VUndefined => None
  | VNull => Some (js "null")
  | VBool true => Some (js "true")
  | VBool false => Some (js "false")
  | VNum n => Some (number_to_string n)
  | VStr s => Some (quote s)
  | VArr items =>
      Some (91 :: join_comma
                    (map (fun x => match stringify x with
                                   | Some text => text
                                   | None => js "null"
                                   end) items) ++ [93])
  | VObj props =>
      Some (123 :: join_comma
                     (flat_map member
                        (own_order
                           (map (fun kv => match kv with
                                           | (k, x) => (k, stringify x)
                                           end) props))) ++ [125])
  end.

(** [JSON.stringify] of a plain object always is a string. *)
Definition stringify_object (props : list (jstring * JsValue)) : jstring :=
  match stringify (VObj props) with
  | Some text => text
  | None => []
  end.

(* ================================================================== *)
(** ** The platform *)

(** Library functions whose behaviour is fixed by tables outside the
    repository.  [localeCompare a b] is [a.localeCompare(b)];
    [normalizeNFD s] is [s.normalize('NFD')]; [canonicalize] is the
    case folding a regular expression with flag [i] applies to each code
    unit; [decodeURIComponent] throws on a malformed escape. *)
Class Platform : Type := {
  localeCompare : jstring -> jstring -> Z;
  normalizeNFD : jstring -> jstring;
  toLowerCase : jstring -> jstring;
  canonicalize : Z -> Z;
  decodeURIComponent : jstring -> Result jstring;
  (** [new URL(raw)]: the host name and [searchParams.get('u')], or nothing
      when the text is not a URL *)
  URL_parse : jstring -> option (jstring * option jstring);
  (** [path.extname] *)
  extname : jstring -> jstring
}.

(** [Array.prototype.sort(compare)]: a stable sort. *)
Section Sort.
Context {A : Type} (compare : A -> A -> Z).

Fixpoint sort_insert (x : A) (l : list A) : list A :=
  match l with
  | [] => [x]
  | y :: l' => if 0 <? compare x y then y :: sort_insert x l' else x :: l
  end.

Fixpoint sort (l : list A) : list A :=
  match l with
  | [] => []
  | x :: l' => sort_insert x (sort l')
  end.
End Sort.

(* ================================================================== *)
(** ** Integrity sealer *)

Definition DEFAULT_SECRET : jstring := js "pokedex-zero-trust-seal".

(** [process.env.INTEGRITY_SECRET || 'pokedex-zero-trust-seal'] *)
Definition INTEGRITY_SECRET (env : option jstring) : jstring :=
  match env with
  | Some (c :: s) => c :: s
  | _ => DEFAULT_SECRET
  end.

Section Sealer.
Context `{Platform}.

(** The object built by the [reduce] over the sorted keys. *)
Definition sortedStats (stats : JsValue) (sortedKeys : list jstring)
  : list (jstring * JsValue) :=
  fold_left (fun acc key => set_prop acc key (get_prop stats key)) sortedKeys [].

(** [generateIntegritySeal(stats = {}, secret)] *)
Definition generateIntegritySeal (stats : JsValue) (secret : jstring)
  : Result jstring :=
  let stats := match stats with VUndefined => VObj [] | _ => stats end in
  keys <- Object_keys stats ;;
  let sortedKeys := sort localeCompare keys in
  Ok (hmac_sha256_hex secret (stringify_object (sortedStats stats sortedKeys))).
End Sealer.

(** A base-stat mapping: stat name to integer value, in insertion order. *)
Definition StatMap := list (jstring * Z).

Definition stat_object (m : StatMap) : JsValue :=
  VObj (map (fun kv => (fst kv, VNum (snd kv))) m).

(** Comparison of strings by code units. *)
Fixpoint lex_compare (a b : jstring) : Z :=
  match a, b with
  | [], [] => 0
  | [], _ :: _ => -1
  | _ :: _, [] => 1
  | x :: a', y :: b' =>
      if x <? y then -1 else if y <? x then 1 else lex_compare a' b'
  end.

Definition codeunit_platform : Platform := {|
  localeCompare := lex_compare;
  normalizeNFD := fun s => s;
  toLowerCase := fun s => s;
  canonicalize := fun c => c;
  decodeURIComponent := fun s => Ok s;
  URL_parse := fun _ => None;
  extname := fun _ => []
|}.

(* ================================================================== *)
(** ** Regular expressions built by the handlers *)

(** The characters of the class [[.*+?^${}()|[\]\\]]. *)
Definition is_regex_special (c : Z) : bool :=
  existsb (Z.eqb c) [46; 42; 43; 63; 94; 36; 123; 125; 40; 41; 124; 91; 93; 92].

(** [s.replace(/[.*+?^${}()|[\]\\]/g, '\\$&')] *)
Definition escapeRegExp (s : jstring) : jstring :=
  flat_map (fun c => if is_regex_special c then [92; c] else [c]) s.

(** The template literal [`^${escaped}$`]. *)
Definition anchored (escaped : jstring) : jstring := 94 :: escaped ++ [36].

(** The pattern language is the engine's, not the handlers': the
    characters with a meaning of their own in a pattern are the
    SyntaxCharacters of the ECMAScript grammar,
    [^ $ \ . * + ? ( ) [ ] { } |]. *)
Definition is_syntax_character (c : Z) : bool :=
  existsb (Z.eqb c) [94; 36; 92; 46; 42; 43; 63; 40; 41; 91; 93; 123; 125; 124].

(** The fragment of the pattern language modelled: the assertions [^] and
    [$], the wildcard [.], and single characters, plain or escaped. *)
Inductive Atom : Type :=
| Bol
| Eol
| Any
| Lit (c : Z).

(** [new RegExp(source, 'i')] on that fragment; [None] outside of it
    (quantifiers, groups, classes and alternation). *)
Fixpoint parse_regex (source : jstring) : option (list Atom) :=
  match source with
  | [] => Some []
  | c :: rest =>
      if c =? 92 then
        match rest with
        | d :: rest' =>
            if is_syntax_character d
            then option_map (cons (Lit d)) (parse_regex rest')
            else None
        | [] => None
        end
      else if c =? 94 then option_map (cons Bol) (parse_regex rest)
      else if c =? 36 then option_map (cons Eol) (parse_regex rest)
      else if c =? 46 then option_map (cons Any) (parse_regex rest)
      else if is_syntax_character c then None
      else option_map (cons (Lit c)) (parse_regex rest)
  end.

Section RegExp.
Context `{Platform}.

(** The characters the wildcard leaves out: LF, CR, LS and PS. *)
Definition is_line_terminator (c : Z) : bool :=
  existsb (Z.eqb c) [10; 13; 8232; 8233].

(** Match of the atoms at the current position; [at_start] tells whether
    the position is the start of the input. *)
Fixpoint match_here (atoms : list Atom) (at_start : bool) (input : jstring)
  : bool :=
  match atoms with
  | [] => true
  | Bol :: atoms' => at_start && match_here atoms' at_start input
  | Eol :: atoms' =>
      match input with
      | [] => match_here atoms' at_start input
      | _ :: _ => false
      end
  | Any :: atoms' =>
      match input with
      | x :: input' =>
          negb (is_line_terminator x) && match_here atoms' false input'
      | [] => false
      end
  | Lit c :: atoms' =>
      match input with
      | x :: input' =>
          (canonicalize x =? canonicalize c) && match_here atoms' false input'
      | [] => false
      end
  end.

Fixpoint match_from (atoms : list Atom) (at_start : bool) (input : jstring)
  : bool :=
  match_here atoms at_start input ||
  match input with
  | [] => false
  | _ :: input' => match_from atoms false input'
  end.

(** [{ $regex: new RegExp(source, 'i') }] applied to a string field: the
    store matches the pattern as [RegExp.prototype.test] does. *)
Definition regex_test (source text : jstring) : Result bool :=
  match parse_regex source with
  | Some atoms => Ok (match_from atoms true text)
  | None => Throw (js "Invalid regular expression")
  end.

(** Equality of two strings up to the case folding of the [i] flag. *)
Fixpoint ci_equal (a b : jstring) : bool :=
  match a, b with
  | [], [] => true
  | x :: a', y :: b' => (canonicalize x =? canonicalize y) && ci_equal a' b'
  | _, _ => false
  end.
End RegExp.

(* ================================================================== *)
(** ** Numbers read from the request *)

(** A number as above (a whole double, or [INFINITY] or its opposite),
    or [NaN]. *)
Inductive JsNumber : Type :=
| Num (n : Z)
| NaN.

Fixpoint leading_digits (s : jstring) : jstring :=
  match s with
  | c :: s' => if is_digit c then c :: leading_digits s' else []
  | [] => []
  end.

(** [parseInt(s, 10)]: the double nearest to the integer the digits
    write. *)
Definition parseInt10 (s : jstring) : JsNumber :=
  let s1 := trimStart s in
  let signed :=
    match s1 with
    | 45 :: r => (true, r)
    | 43 :: r => (false, r)
    | _ => (false, s1)
    end in
  match leading_digits (snd signed) with
  | [] => NaN
  | ds =>
      Num (round_double
             (if fst signed then - digits_value ds else digits_value ds))
  end.

Definition Math_min (a b : JsNumber) : JsNumber :=
  match a, b with
  | Num x, Num y => Num (Z.min x y)
  | _, _ => NaN
  end.

Definition Math_max (a b : JsNumber) : JsNumber :=
  match a, b with
  | Num x, Num y => Num (Z.max x y)
  | _, _ => NaN
  end.

(** [x || 0] on a number. *)
Definition number_or_zero (x : JsNumber) : Z :=
  match x with
  | Num n => n
  | NaN => 0
  end.

(* ================================================================== *)
(** ** Documents and stores *)

(** A document of the record collection.  The two names are strings, as the
    data model requires; [base] is [VUndefined] when the document has no
    such field. *)
Record Pokemon : Type := {
  id : Z;
  name_english : jstring;
  name_french : jstring;
  type : list JsValue;
  base : JsValue;
  image : jstring
}.

Record AuditEntry : Type := {
  action : jstring;
  pokemonName : jstring;
  sourceIp : jstring;
  statusCode : Z;
  createdAt : Z
}.

(** The two collections in natural order, and the asset directory. *)
Record World : Type := {
  pokemons : list Pokemon;
  auditLogs : list AuditEntry;
  assets : list (jstring * list Z)
}.

(** The outgoing representation: the document and its [integrityHash]. *)
Record Sealed : Type := {
  doc : Pokemon;
  integrityHash : jstring
}.

Inductive Body : Type :=
| JsonError (error : jstring)
| JsonPokemon (p : Sealed)
| JsonPokemons (l : list Sealed)
| JsonLogs (l : list AuditEntry).

Record Response : Type := {
  status : Z;
  body : Body
}.

(** [res.json(x)] *)
Definition json (b : Body) : Response := {| status := 200; body := b |}.

(** [res.status(code).json({ error: message })] *)
Definition error_response (code : Z) (message : jstring) : Response :=
  {| status := code; body := JsonError message |}.

Record FetchResponse : Type := {
  ok : bool;
  response_status : Z;
  content_type : option jstring;
  arrayBuffer : list Z
}.

(** What surrounds the process: the environment variable, the network, and
    what the audit collection does with a [NaN] limit. *)
Class Environment : Type := {
  ENV_INTEGRITY_SECRET : option jstring;
  fetch : jstring -> Result FetchResponse;
  limit_NaN : list AuditEntry -> Result (list AuditEntry)
}.

(** Modelled from the spec: the record store is an external collaborator and
    its schema is not in the repository; the identifier is a number in
    it.  [findOne({ id })] is the exact match on the numeric identifier;
    the store casts the key to the field's type first, and [NaN] is no
    number to it: the query is rejected with a cast error. *)
Definition findOne_by_id (store : list Pokemon) (key : JsNumber)
  : Result (option Pokemon) :=
  match key with
  | Num n => Ok (find (fun p => id p =? n) store)
  | NaN => Throw (js "Cast to Number failed for value NaN at path id")
  end.

(** Modelled from the spec: [find({}).limit(n).skip(k)] returns up to [n]
    documents after the first [k]; the store refuses a negative [k]. *)
Definition find_page (store : list Pokemon) (n : nat) (k : Z)
  : Result (list Pokemon) :=
  if k <? 0 then Throw (js "Skip value must be non-negative")
  else Ok (firstn n (skipn (Z.to_nat k) store)).

(** [findOne({}).sort({ id: -1 })]: a document of greatest identifier. *)
Fixpoint latest (store : list Pokemon) : option Pokemon :=
  match store with
  | [] => None
  | p :: rest =>
      match latest rest with
      | Some q => if id p <? id q then Some q else Some p
      | None => Some p
      end
  end.

Fixpoint mapM {A B} (f : A -> Result B) (l : list A) : Result (list B) :=
  match l with
  | [] => Ok []
  | x :: l' => y <- f x ;; ys <- mapM f l' ;; Ok (y :: ys)
  end.

Section Dispatcher.
Context `{Platform} `{Environment}.

(** [withIntegrityHash(doc)] on a document.  Every handler passes one:
    the guard for a null [doc] is never taken. *)
Definition withIntegrityHash (plain : Pokemon) : Result Sealed :=
  seal <- generateIntegritySeal (base plain)
            (INTEGRITY_SECRET ENV_INTEGRITY_SECRET) ;;
  Ok {| doc := plain; integrityHash := seal |}.

(** [docs.map(withIntegrityHash)] *)
Definition sealAll (docs : list Pokemon) : Result (list Sealed) :=
  mapM withIntegrityHash docs.

Definition internal_error : Response :=
  error_response 500 (js "Internal Server Error").

Definition not_found : Response :=
  error_response 404 (js "Pokemon not found").

(** [GET /pokemons] *)
Definition getPokemons (w : World) : Response :=
  match sealAll (pokemons w) with
  | Ok l => json (JsonPokemons l)
  | Throw _ => internal_error
  end.

(** [GET /pokemonsByPage/:page] *)
Definition getPokemonsByPage (w : World) (page : jstring) : Response :=
  let page := number_or_zero (parseInt10 page) in
  match sk <- find_page (pokemons w) 20 (20 * page) ;; sealAll sk with
  | Ok l => json (JsonPokemons l)
  | Throw message => error_response 500 message
  end.

(** [GET /pokemons/:id] *)
Definition getPokemonById (w : World) (idParam : jstring) : Response :=
  let pokeId := parseInt10 idParam in
  match findOne_by_id (pokemons w) pokeId with
  | Throw _ => internal_error
  | Ok None => not_found
  | Ok (Some poke) =>
      match withIntegrityHash poke with
      | Ok s => json (JsonPokemon s)
      | Throw _ => internal_error
      end
  end.

(** [GET /pokemonByName/:name] *)
Definition getPokemonByName (w : World) (pokeName : jstring) : Response :=
  match find (fun p => jstr_eqb (name_english p) pokeName) (pokemons w) with
  | None => not_found
  | Some poke =>
      match withIntegrityHash poke with
      | Ok s => json (JsonPokemon s)
      | Throw _ => internal_error
      end
  end.

(** The filter [{ $or: [{ 'name.english': { $regex } },
    { 'name.french': { $regex } }] }] with one pattern per locale. *)
Definition matches_either (english_source french_source : jstring)
  (p : Pokemon) : Result bool :=
  e <- regex_test english_source (name_english p) ;;
  f <- regex_test french_source (name_french p) ;;
  Ok (e || f).

(** [findOne(filter)]: the first document, in natural order, that passes. *)
Fixpoint findOne (filter : Pokemon -> Result bool) (store : list Pokemon)
  : Result (option Pokemon) :=
  match store with
  | [] => Ok None
  | p :: rest =>
      b <- filter p ;;
      if b : bool then Ok (Some p) else findOne filter rest
  end.

(** [GET /pokemonExactByName/:name] *)
Definition getPokemonExactByName (w : World) (nameParam : jstring)
  : Response :=
  let inputName := trim nameParam in
  match inputName with
  | [] => error_response 400 (js "name is required")
  | _ =>
      let exactRegex := anchored (escapeRegExp inputName) in
      match findOne (matches_either exactRegex exactRegex) (pokemons w) with
      | Ok None => not_found
      | Ok (Some poke) =>
          match withIntegrityHash poke with
          | Ok s => json (JsonPokemon s)
          | Throw _ => internal_error
          end
      | Throw _ => internal_error
      end
  end.

Definition is_combining_mark (c : Z) : bool := (768 <=? c) && (c <=? 879).

(** [normalizeForSearch(value)] on a string; an absent value is [''] . *)
Definition normalizeForSearch (value : jstring) : jstring :=
  trim (toLowerCase
          (filter (fun c => negb (is_combining_mark c)) (normalizeNFD value))).

(** The predicate of the [filter] in the search handler. *)
Definition search_match (normalizedQuery : jstring) (p : Pokemon) : bool :=
  let english := normalizeForSearch (name_english p) in
  let french := normalizeForSearch (name_french p) in
  includes english normalizedQuery || includes french normalizedQuery.

(** [GET /pokemonsSearch?name=].  [query] is [req.query.name]:
    [VUndefined] without the parameter, a string for [?name=x], an array
    for a repeated parameter ([?name=a&name=b]) and an object for a
    bracketed one ([?name[k]=v]).  [(req.query.name || '').trim()] is a
    call of [trim] on whatever the left operand is when it is truthy:
    only a string has that method, on anything else the call throws and
    the handler's [catch] answers. *)
Definition getPokemonsSearch (w : World) (query : JsValue) : Response :=
  match (if truthy query then query else VStr []) with
  | VStr text =>
      let name := trim text in
      match name with
      | [] => json (JsonPokemons [])
      | _ =>
          let normalizedQuery := normalizeForSearch name in
          let allPokemons := firstn 1000 (pokemons w) in
          match sealAll (firstn 50 (filter (search_match normalizedQuery)
                                           allPokemons)) with
          | Ok l => json (JsonPokemons l)
          | Throw _ => internal_error
          end
      end
  | _ => internal_error
  end.

Fixpoint filterM {A} (f : A -> Result bool) (l : list A) : Result (list A) :=
  match l with
  | [] => Ok []
  | x :: l' =>
      b <- f x ;;
      rest <- filterM f l' ;;
      Ok (if b : bool then x :: rest else rest)
  end.

(** [Math.max(1, Math.min(parseInt(req.query.limit || '20', 10), 100))] *)
Definition auditLimit (limitParam : option jstring) : JsNumber :=
  let text := match limitParam with
              | Some (c :: s) => c :: s
              | _ => js "20"
              end in
  Math_max (Num 1) (Math_min (parseInt10 text) (Num 100)).

(** [.sort({ createdAt: -1 })] *)
Definition newest_first (logs : list AuditEntry) : list AuditEntry :=
  sort (fun a b => createdAt b - createdAt a) logs.

(** [GET /auditLogs/:name?limit=] *)
Definition getAuditLogs (w : World) (nameParam : jstring)
  (limitParam : option jstring) : Response :=
  match decodeURIComponent nameParam with
  | Throw _ => internal_error
  | Ok decoded =>
      let name := trim decoded in
      let limit := auditLimit limitParam in
      let source := anchored (escapeRegExp name) in
      match filterM (fun e => regex_test source (pokemonName e))
                    (auditLogs w) with
      | Throw _ => internal_error
      | Ok found =>
          match limit with
          | Num n => json (JsonLogs (firstn (Z.to_nat n) (newest_first found)))
          | NaN =>
              match limit_NaN (newest_first found) with
              | Ok logs => json (JsonLogs logs)
              | Throw _ => internal_error
              end
          end
      end
  end.

(* ---------------------------------------------------------------- *)
(** *** Image fetcher *)

(** [resolveDownloadUrl(rawUrl)] *)
Definition resolveDownloadUrl (rawUrl : jstring) : jstring :=
  match URL_parse rawUrl with
  | None => rawUrl
  | Some (hostname, u) =>
      if jstr_eqb hostname (js "external-content.duckduckgo.com") then
        match u with
        | Some (c :: o) =>
            match decodeURIComponent (c :: o) with
            | Ok decoded => decoded
            | Throw _ => c :: o
            end
        | _ => rawUrl
        end
      else rawUrl
  end.

(** [downloadPokemonImage(imageUrl)]: the bytes and the content type. *)
Definition downloadPokemonImage (imageUrl : jstring)
  : Result (list Z * jstring) :=
  let resolvedUrl := resolveDownloadUrl imageUrl in
  response <- fetch resolvedUrl ;;
  if negb (ok response) then
    Throw (js "Image download failed (" ++
           number_to_string (response_status response) ++
           js ") from " ++ resolvedUrl)
  else
    let contentType := match content_type response with
                       | Some t => t
                       | None => []
                       end in
    if negb (startsWith (js "image/") (toLowerCase contentType)) then
      Throw (js "Provided URL did not return an image (content-type: " ++
             match contentType with [] => js "unknown" | _ => contentType end ++
             js ")")
    else Ok (arrayBuffer response, contentType).

Definition contentTypeMap : list (jstring * jstring) :=
  [ (js "image/png", js ".png"); (js "image/jpeg", js ".jpg");
    (js "image/jpg", js ".jpg"); (js "image/webp", js ".webp");
    (js "image/gif", js ".gif"); (js "image/avif", js ".avif");
    (js "image/svg+xml", js ".svg") ].

Fixpoint before_question_mark (s : jstring) : jstring :=
  match s with
  | [] => []
  | c :: s' => if c =? 63 then [] else c :: before_question_mark s'
  end.

(** [getImageExtension(contentType, imageUrl)] *)
Definition getImageExtension (contentType imageUrl : jstring) : jstring :=
  match assoc (toLowerCase contentType) contentTypeMap with
  | Some fromType => fromType
  | None =>
      let cleanUrl := toLowerCase (before_question_mark imageUrl) in
      match extname cleanUrl with
      | [] => js ".png"
      | ext => ext
      end
  end.

(** [buildPublicAssetUrl(req, fileName)] *)
Definition buildPublicAssetUrl (protocol host fileName : jstring) : jstring :=
  protocol ++ js "://" ++ host ++ js "/assets/pokemons/" ++ fileName.

(* ---------------------------------------------------------------- *)
(** *** Create *)

Record CreateRequest : Type := {
  req_body : JsValue;
  req_protocol : jstring;
  req_host : jstring
}.

(** [v?.key] *)
Definition optional_prop (v : JsValue) (key : jstring) : JsValue :=
  match v with
  | VUndefined | VNull => VUndefined
  | _ => get_prop v key
  end.

(** The four shape checks; [Some message] is the 400 response. *)
Definition validate (name type base imageUrl : JsValue) : option jstring :=
  if negb (truthy (optional_prop name (js "english")))
     || negb (truthy (optional_prop name (js "french")))
  then Some (js "name.english and name.french are required")
  else if match type with
          | VArr [] => true
          | VArr _ => false
          | _ => true
          end
  then Some (js "type must be a non-empty array")
  else if negb (truthy base)
          || match base with VNull | VArr _ | VObj _ => false | _ => true end
  then Some (js "base stats are required")
  else if negb (truthy imageUrl)
          || match imageUrl with VStr _ => false | _ => true end
  then Some (js "imageUrl is required")
  else None.

(** [v.replace(/[.*+?^${}()|[\]\\]/g, '\\$&')]: only a string has the
    method. *)
Definition escaped_name (v : JsValue) (path : jstring) : Result jstring :=
  match v with
  | VStr s => Ok (escapeRegExp s)
  | _ => Throw (path ++ js ".replace is not a function")
  end.

(** [(latestPokemon?.id || 0) + 1], an addition of doubles. *)
Definition nextId (store : list Pokemon) : Z :=
  match latest store with
  | Some p => js_add (if id p =? 0 then 0 else id p) 1
  | None => js_add 0 1
  end.

Definition array_items (v : JsValue) : list JsValue :=
  match v with
  | VArr items => items
  | _ => []
  end.

Definition string_of (v : JsValue) : jstring :=
  match v with
  | VStr s => s
  | _ => []
  end.

(** The body of the [try] block after validation, up to the insertion:
    the new document and the image file, or the exception thrown. *)
Definition prepare (w : World) (req : CreateRequest)
  (name type base imageUrl : JsValue)
  : Result (option (Pokemon * (jstring * list Z))) :=
  english <- escaped_name (get_prop name (js "english")) (js "name.english") ;;
  french <- escaped_name (get_prop name (js "french")) (js "name.french") ;;
  duplicate <- findOne (matches_either (anchored english) (anchored french))
                 (pokemons w) ;;
  match duplicate with
  | Some _ => Ok None
  | None =>
      let newId := nextId (pokemons w) in
      imageData <- downloadPokemonImage (string_of imageUrl) ;;
      let imageExt := getImageExtension (snd imageData) (string_of imageUrl) in
      let imageFileName := number_to_string newId ++ imageExt in
      Ok (Some ({| id := newId;
                   name_english := string_of (get_prop name (js "english"));
                   name_french := string_of (get_prop name (js "french"));
                   type := array_items type;
                   base := base;
                   image := buildPublicAssetUrl (req_protocol req)
                              (req_host req) imageFileName |},
                (imageFileName, fst imageData)))
  end.

(** [error.message || 'Internal Server Error'] *)
Definition surfaced (message : jstring) : Response :=
  error_response 500 (match message with
                      | [] => js "Internal Server Error"
                      | _ => message
                      end).

(** [POST /pokemonCreate] *)
Definition pokemonCreate (w : World) (req : CreateRequest)
  : Response * World :=
  match req_body req with
  | VUndefined | VNull =>
      (surfaced (js "Cannot destructure property 'name' of 'req.body' as it is undefined."), w)
  | body =>
      let name := get_prop body (js "name") in
      let type := get_prop body (js "type") in
      let base := get_prop body (js "base") in
      let imageUrl := get_prop body (js "imageUrl") in
      match validate name type base imageUrl with
      | Some message => (error_response 400 message, w)
      | None =>
          match prepare w req name type base imageUrl with
          | Throw message => (surfaced message, w)
          | Ok None =>
              (error_response 409
                 (js "Pokemon already exists (english or french name)"), w)
          | Ok (Some (newPokemon, file)) =>
              let w' := {| pokemons := pokemons w ++ [newPokemon];
                           auditLogs := auditLogs w;
                           assets := update_prop (assets w) (fst file)
                                       (snd file) |} in
              match withIntegrityHash newPokemon with
              | Ok s => ({| status := 201; body := JsonPokemon s |}, w')
              | Throw message => (surfaced message, w')
              end
          end
      end
  end.
End Dispatcher.

(* ================================================================== *)
(** ** Purge and delete *)

(** The JSON bodies of the purge and delete routes. *)
Inductive MutationBody : Type :=
| Purged (deletedCount : Z)
| Deleted (pokemon : Sealed)
| Failure (error : jstring).

Record Reply : Type := {
  reply_status : Z;
  reply_body : MutationBody
}.

(** [findOneAndDelete({ 'name.english': pokeName })]: the first document,
    in natural order, with that english name, and the collection without
    it. *)
Fixpoint findOneAndDelete (pokeName : jstring) (store : list Pokemon)
  : option (Pokemon * list Pokemon) :=
  match store with
  | [] => None
  | p :: rest =>
      if jstr_eqb (name_english p) pokeName then Some (p, rest)
      else
        match findOneAndDelete pokeName rest with
        | Some (q, rest') => Some (q, p :: rest')
        | None => None
        end
  end.

Section Mutations.
Context `{Platform} `{Environment}.

(** [DELETE /pokemonsPurge] *)
Definition pokemonsPurge (w : World) : Reply * World :=
  let deletedCount := Z.of_nat (List.length (pokemons w)) in
  ({| reply_status := 200;
      reply_body := Purged (if deletedCount =? 0 then 0 else deletedCount) |},
   {| pokemons := []; auditLogs := auditLogs w; assets := assets w |}).

(** [DELETE /pokemonDelete/:name] *)
Definition pokemonDelete (w : World) (pokeName : jstring) : Reply * World :=
  match findOneAndDelete pokeName (pokemons w) with
  | Some (poke, rest) =>
      let w' := {| pokemons := rest;
                   auditLogs := auditLogs w;
                   assets := assets w |} in
      match withIntegrityHash poke with
      | Ok s => ({| reply_status := 200; reply_body := Deleted s |}, w')
      | Throw _ =>
          ({| reply_status := 500;
              reply_body := Failure (js "Internal Server Error") |}, w')
      end
  | None =>
      ({| reply_status := 404;
          reply_body := Failure (js "Pokemon not found") |}, w)
  end.
End Mutations.

(* ================================================================== *)
(** ** Audit hook *)

(** What the hook reads of a request: the method, [req.params?.name],
    [req.body], the header [x-forwarded-for], [req.ip] and
    [req.socket?.remoteAddress]. *)
Record AuditRequest : Type := {
  method : jstring;
  params_name : option jstring;
  audit_body : JsValue;
  forwarded_for : option jstring;
  req_ip : option jstring;
  remoteAddress : option jstring
}.

Fixpoint before_comma (s : jstring) : jstring :=
  match s with
  | [] => []
  | c :: s' => if c =? 44 then [] else c :: before_comma s'
  end.

(** [getSourceIp(req)] *)
Definition getSourceIp (req : AuditRequest) : jstring :=
  let fallback :=
    match req_ip req with
    | Some (c :: s) => c :: s
    | _ =>
        match remoteAddress req with
        | Some (c :: s) => c :: s
        | _ => js "unknown"
        end
    end in
  match forwarded_for req with
  | Some forwarded =>
      match trim forwarded with
      | [] => fallback
      | _ => trim (before_comma forwarded)
      end
  | None => fallback
  end.

(** [String(v)].  A plain object is ["[object Object]"], unless it has an
    own [toString], which JSON cannot make callable: then the conversion
    throws.  An array is its elements joined by commas, [null] and
    [undefined] giving the empty text. *)
Fixpoint String_of (v : JsValue) : Result jstring :=
  match v with
  | VUndefined => Ok (js "undefined")
  | VNull => Ok (js "null")
  | VBool true => Ok (js "true")
  | VBool false => Ok (js "false")
  | VNum n => Ok (number_to_string n)
  | VStr s => Ok s
  | VArr items =>
      (fix join (l : list JsValue) : Result jstring :=
         match l with
         | [] => Ok []
         | x :: l' =>
             first <- match x with
                      | VUndefined | VNull => Ok []
                      | _ => String_of x
                      end ;;
             match l' with
             | [] => Ok first
             | _ => rest <- join l' ;; Ok (first ++ 44 :: rest)
             end
         end) items
  | VObj props =>
      match assoc (js "toString") props with
      | None => Ok (js "[object Object]")
      | Some _ => Throw (js "Cannot convert object to primitive value")
      end
  end.

(** The methods the hook audits and the action it records for each. *)
Definition is_destructive (m : jstring) : bool :=
  jstr_eqb m (js "POST") || jstr_eqb m (js "PUT") || jstr_eqb m (js "DELETE").

Definition action_of (m : jstring) : jstring :=
  if jstr_eqb m (js "POST") then js "CREATE"
  else if jstr_eqb m (js "PUT") then js "UPDATE"
  else if jstr_eqb m (js "DELETE") then js "DELETE"
  else m.

(** [auditLog.create(entry)] under the schema of the audit collection:
    [action] is one of the three actions; [pokemonName] and [sourceIp] are
    required strings, which an empty string does not satisfy; [timestamps]
    sets [createdAt] to the time of the write. *)
Definition auditLog_create (now : Z) (logs : list AuditEntry)
  (action pokemonName sourceIp : jstring) (statusCode : Z)
  : Result (list AuditEntry) :=
  if (jstr_eqb action (js "CREATE") || jstr_eqb action (js "UPDATE")
      || jstr_eqb action (js "DELETE"))
     && match pokemonName with [] => false | _ => true end
     && match sourceIp with [] => false | _ => true end
  then Ok (logs ++ [ {| action := action; pokemonName := pokemonName;
                        sourceIp := sourceIp; statusCode := statusCode;
                        createdAt := now |} ])
  else Throw (js "AuditLog validation failed").

Section AuditHook.
Context `{Platform}.

(** [extractPokemonNameForAudit(req)] *)
Definition extractPokemonNameForAudit (req : AuditRequest) : Result jstring :=
  match params_name req with
  | Some (c :: fromParams) => decodeURIComponent (c :: fromParams)
  | _ =>
      let bodyName := optional_prop (audit_body req) (js "name") in
      let from_locales :=
        if truthy (optional_prop bodyName (js "english"))
        then text <- String_of (get_prop bodyName (js "english")) ;; Ok (trim text)
        else if truthy (optional_prop bodyName (js "french"))
        then text <- String_of (get_prop bodyName (js "french")) ;; Ok (trim text)
        else Ok (js "unknown") in
      match bodyName with
      | VStr s =>
          match trim s with
          | [] => from_locales
          | trimmed => Ok trimmed
          end
      | _ => from_locales
      end
  end.

(** [destructiveAuditMiddleware(req, res, next)] followed by the rest of
    the chain, [next], which answers the request.  The subject and the
    source are read before [next] runs; the entry is written once the
    response is finished, at time [now], and a failed write is only logged.
    An exception thrown while the subject is read leaves the hook before
    [next] is called: it is the result. *)
Definition destructiveAuditMiddleware {R : Type} (status_of : R -> Z)
  (now : Z) (req : AuditRequest) (next : World -> R * World) (w : World)
  : Result (R * World) :=
  if negb (is_destructive (method req)) then Ok (next w)
  else
    let action := action_of (method req) in
    pokemonName <- extractPokemonNameForAudit req ;;
    let sourceIp := getSourceIp req in
    let (res, w1) := next w in
    match auditLog_create now (auditLogs w1) action pokemonName sourceIp
            (status_of res) with
    | Ok logs =>
        Ok (res, {| pokemons := pokemons w1; auditLogs := logs;
                    assets := assets w1 |})
    | Throw _ => Ok (res, w1)
    end.
End AuditHook.

(* ================================================================== *)
(** ** A platform for the examples *)

(** Case folding of the letters [A-Z] and of the Latin-1 capitals. *)
Definition fold_latin (c : Z) : Z :=
  if ((65 <=? c) && (c <=? 90))
     || ((192 <=? c) && (c <=? 222) && negb (c =? 215))
  then c + 32 else c.

(** Canonical decomposition of some precomposed Latin letters (an excerpt
    of the Unicode decomposition mappings). *)
Definition decompose_latin (c : Z) : jstring :=
  if c =? 0xE0 then [97; 0x300] else if c =? 0xE1 then [97; 0x301]
  else if c =? 0xE2 then [97; 0x302] else if c =? 0xE4 then [97; 0x308]
  else if c =? 0xE7 then [99; 0x327] else if c =? 0xE8 then [101; 0x300]
  else if c =? 0xE9 then [101; 0x301] else if c =? 0xEA then [101; 0x302]
  else if c =? 0xEB then [101; 0x308] else if c =? 0xEE then [105; 0x302]
  else if c =? 0xEF then [105; 0x308] else if c =? 0xF4 then [111; 0x302]
  else if c =? 0xF6 then [111; 0x308] else if c =? 0xF9 then [117; 0x300]
  else if c =? 0xFB then [117; 0x302] else if c =? 0xFC then [117; 0x308]
  else if c =? 0xC9 then [69; 0x301] else if c =? 0x101 then [97; 0x304]
  else if c =? 0x113 then [101; 0x304] else if c =? 0x12B then [105; 0x304]
  else if c =? 0x14D then [111; 0x304] else if c =? 0x16B then [117; 0x304]
  else [c].

(** A collation that honours canonical equivalence on those letters: the
    decomposed forms are compared by code units. *)
Definition latin_platform : Platform := {|
  localeCompare := fun a b =>
    lex_compare (flat_map decompose_latin a) (flat_map decompose_latin b);
  normalizeNFD := flat_map decompose_latin;
  toLowerCase := map fold_latin;
  canonicalize := fold_latin;
  decodeURIComponent := fun s => Ok s;
  URL_parse := fun _ => None;
  extname := fun _ => []
|}.

Definition image_response : FetchResponse := {|
  ok := true;
  response_status := 200;
  content_type := Some (js "image/png");
  arrayBuffer := [137; 80; 78; 71]
|}.

Definition html_response : FetchResponse := {|
  ok := true;
  response_status := 200;
  content_type := Some (js "text/html");
  arrayBuffer := [60; 104; 49; 62]
|}.

(** An environment without the secret variable, where every URL but one
    serves an image. *)
Definition test_environment : Environment := {|
  ENV_INTEGRITY_SECRET := None;
  fetch := fun url =>
    if jstr_eqb url (js "http://example.org/page.html")
    then Ok html_response else Ok image_response;
  limit_NaN := fun logs => Ok logs
|}.

(* ================================================================== *)
(** * Vocabulary of the properties *)

(** The list of sealed documents of a response, if it is one. *)
Definition listed (r : Response) : list Sealed :=
  match body r with
  | JsonPokemons l => l
  | _ => []
  end.

(** A field is missing when it is absent or holds no value: [undefined],
    [null], the empty string, zero or [false]. *)
Definition is_missing (v : JsValue) : Prop :=
  v = VUndefined \/ v = VNull \/ v = VStr [] \/ v = VNum 0 \/ v = VBool false.

Definition nonempty_array (v : JsValue) : Prop :=
  exists x items, v = VArr (x :: items).

(** An object in the sense of [typeof]: a plain object or an array. *)
Definition is_object (v : JsValue) : Prop :=
  (exists items, v = VArr items) \/ (exists props, v = VObj props).

Definition nonempty_string (v : JsValue) : Prop :=
  exists c s, v = VStr (c :: s).

(** The fields of a create request as the handler destructures them. *)
Definition body_name (req : CreateRequest) :=
  get_prop (req_body req) (js "name").
Definition body_type (req : CreateRequest) :=
  get_prop (req_body req) (js "type").
Definition body_base (req : CreateRequest) :=
  get_prop (req_body req) (js "base").
Definition body_imageUrl (req : CreateRequest) :=
  get_prop (req_body req) (js "imageUrl").
Definition body_english (req : CreateRequest) :=
  optional_prop (body_name req) (js "english").
Definition body_french (req : CreateRequest) :=
  optional_prop (body_name req) (js "french").

(** The violation the handler reports: the first of the four checks, in
    the order of the code, that fails. *)
Inductive Violation (req : CreateRequest) : jstring -> Prop :=
| bad_name :
    is_missing (body_english req) \/ is_missing (body_french req) ->
    Violation req (js "name.english and name.french are required")
| bad_type :
    ~ is_missing (body_english req) -> ~ is_missing (body_french req) ->
    ~ nonempty_array (body_type req) ->
    Violation req (js "type must be a non-empty array")
| bad_base :
    ~ is_missing (body_english req) -> ~ is_missing (body_french req) ->
    nonempty_array (body_type req) -> ~ is_object (body_base req) ->
    Violation req (js "base stats are required")
| bad_imageUrl :
    ~ is_missing (body_english req) -> ~ is_missing (body_french req) ->
    nonempty_array (body_type req) -> is_object (body_base req) ->
    ~ nonempty_string (body_imageUrl req) ->
    Violation req (js "imageUrl is required").

(** [p] occurs in [a] as a contiguous run of code units. *)
Definition substring (p a : jstring) : Prop :=
  exists before after, a = before ++ p ++ after.

(** The canonical string form of ordered key/value pairs: the JSON object
    with the members in the order of the list. *)
Definition canonical_member (kv : jstring * Z) : jstring :=
  quote (fst kv) ++ 58 :: number_to_string (snd kv).

Definition canonical_form (pairs : StatMap) : jstring :=
  123 :: join_comma (map canonical_member pairs) ++ [125].

(** The reference definition, in the words of the specification: sort the
    keys lexicographically, serialise the ordered pairs to the canonical
    string, and take the HMAC-SHA-256 of it under the secret, in lowercase
    hexadecimal. *)
Definition seal_reference (m : StatMap) (secret : jstring) : jstring :=
  hmac_sha256_hex secret
    (canonical_form (sort (fun a b => lex_compare (fst a) (fst b)) m)).

(** The identifiers the collection can count on: integers between
    [- 2 ^ 53] and [2 ^ 53], where every integer is a double and the
    successor of a double is one too. *)
Definition safe_ids (store : list Pokemon) : Prop :=
  forall q, In q store -> - 2 ^ 53 <= id q < 2 ^ 53.

Section Orders.
Context {A : Type}.

(** The order a comparator induces, and what makes it a total preorder. *)
Definition before (cmp : A -> A -> Z) (a b : A) : Prop := cmp a b <= 0.

Definition consistent (cmp : A -> A -> Z) : Prop :=
  (forall a b, 0 < cmp a b -> cmp b a <= 0)
  /\ (forall a b c, cmp a b <= 0 -> cmp b c <= 0 -> cmp a c <= 0).

Inductive sorted (cmp : A -> A -> Z) : list A -> Prop :=
| sorted_nil : sorted cmp []
| sorted_cons x l :
    Forall (before cmp x) l -> sorted cmp l -> sorted cmp (x :: l).
End Orders.

Section Vocabulary.
Context `{Platform} `{Environment}.

(** The seal of the empty mapping under the configured secret. *)
Definition empty_seal : jstring :=
  hmac_sha256_hex (INTEGRITY_SECRET ENV_INTEGRITY_SECRET) (js "{}").

Definition sealed_empty (p : Pokemon) : Sealed :=
  {| doc := p; integrityHash := empty_seal |}.

(** What the create handler does once the four checks have passed. *)
Definition afterValidation (w : World) (req : CreateRequest)
  : Response * World :=
  match prepare w req (body_name req) (body_type req) (body_base req)
          (body_imageUrl req) with
  | Throw message => (surfaced message, w)
  | Ok None =>
      (error_response 409
         (js "Pokemon already exists (english or french name)"), w)
  | Ok (Some (newPokemon, file)) =>
      let w' := {| pokemons := pokemons w ++ [newPokemon];
                   auditLogs := auditLogs w;
                   assets := update_prop (assets w) (fst file) (snd file) |} in
      match withIntegrityHash newPokemon with
      | Ok s => ({| status := 201; body := JsonPokemon s |}, w')
      | Throw message => (surfaced message, w')
      end
  end.

(** The records the search selects: the first 50 matches among the first
    1000 records. *)
Definition search_hits (w : World) (normalizedQuery : jstring) : list Pokemon :=
  firstn 50 (filter (search_match normalizedQuery) (firstn 1000 (pokemons w))).

(** The entries whose [pokemonName] equals the requested name up to case,
    newest first. *)
Definition audit_matches (w : World) (name : jstring) : list AuditEntry :=
  newest_first (filter (fun e => ci_equal (pokemonName e) name) (auditLogs w)).

(** Two records share neither their english name nor their french name,
    up to case. *)
Definition distinct_names (p q : Pokemon) : Prop :=
  ci_equal (name_english p) (name_english q) = false
  /\ ci_equal (name_french p) (name_french q) = false.

(** No two records of a collection share an english or a french name. *)
Inductive names_unique : list Pokemon -> Prop :=
| names_unique_nil : names_unique []
| names_unique_cons p l :
    Forall (distinct_names p) l -> names_unique l -> names_unique (p :: l).
End Vocabulary.

(** ** Worked requests *)

Definition empty_world : World :=
  {| pokemons := []; auditLogs := []; assets := [] |}.

(** The body [{ name: { english, french }, type: ["Electric"],
    base: { HP: 35, Attack: 55 }, imageUrl }]. *)
Definition create_body (english french : JsValue) (imageUrl : jstring) : JsValue :=
  VObj [ (js "name", VObj [(js "english", english); (js "french", french)]);
         (js "type", VArr [VStr (js "Electric")]);
         (js "base", VObj [(js "HP", VNum 35); (js "Attack", VNum 55)]);
         (js "imageUrl", VStr imageUrl) ].

Definition request (b : JsValue) : CreateRequest :=
  {| req_body := b; req_protocol := js "http"; req_host := js "localhost:3000" |}.

Definition create (w : World) (req : CreateRequest) : Response * World :=
  @pokemonCreate latin_platform test_environment w req.

Definition pika_request : CreateRequest :=
  request (create_body (VStr (js "Pika")) (VStr (js "Pika"))
             (js "http://example.org/pika.png")).

(** The collection after [{english: "Pika", french: "Pika"}] is created. *)
Definition pika_world : World := snd (create empty_world pika_request).

Definition pika_lowercase_request : CreateRequest :=
  request (create_body (VStr (js "pika")) (VStr (js "Autre"))
             (js "http://example.org/autre.png")).

Definition untyped_french_request : CreateRequest :=
  request (create_body (VStr (js "Pika")) (VNum 5)
             (js "http://example.org/pika.png")).

Definition html_request : CreateRequest :=
  request (create_body (VStr (js "Evoli")) (VStr (js "Evoli"))
             (js "http://example.org/page.html")).

(** A record stored without [base], with a french name written with
    precomposed letters: P, i with diaeresis, k, a with macron, c, h, u. *)
Definition pikachu_accented : Pokemon :=
  {| id := 25;
     name_english := js "Pikachu";
     name_french := [80; 239; 107; 257; 99; 104; 117];
     type := [VStr (js "Electric")];
     base := VUndefined;
     image := js "http://localhost:3000/assets/pokemons/25.png" |}.

Definition accented_world : World :=
  {| pokemons := [pikachu_accented]; auditLogs := []; assets := [] |}.

Definition evoli_request : CreateRequest :=
  request (create_body (VStr (js "Evoli")) (VStr (js "Evoli"))
             (js "http://example.org/evoli.png")).

(** The collection after Pika and then Evoli are created. *)
Definition evoli_world : World := snd (create pika_world evoli_request).

(** The representation the first create returns. *)
Definition pika_sealed : Sealed :=
  match body (fst (create empty_world pika_request)) with
  | JsonPokemon s => s
  | _ => {| doc := pikachu_accented; integrityHash := [] |}
  end.

Definition audit_entry (name : jstring) (code time : Z) : AuditEntry :=
  {| action := js "CREATE"; pokemonName := name; sourceIp := js "10.0.0.7";
     statusCode := code; createdAt := time |}.

Definition audit_world : World :=
  {| pokemons := [];
     auditLogs := [ audit_entry (js "Pikachu") 201 100;
                    audit_entry (js "Evoli") 201 200;
                    audit_entry (js "pikachu") 409 300;
                    audit_entry (js "PIKACHU") 500 400 ];
     assets := [] |}.

(** The POST of [pika_request] as the audit hook sees it, behind one
    proxy. *)
Definition pika_post : AuditRequest :=
  {| method := js "POST";
     params_name := None;
     audit_body := req_body pika_request;
     forwarded_for := Some (js "203.0.113.9, 10.0.0.1");
     req_ip := Some (js "10.0.0.1");
     remoteAddress := Some (js "10.0.0.1") |}.

(** The DELETE of Pika as the audit hook sees it, on a direct connection
    for which Express gives no [req.ip]. *)
Definition pika_delete : AuditRequest :=
  {| method := js "DELETE";
     params_name := Some (js "Pika");
     audit_body := VUndefined;
     forwarded_for := None;
     req_ip := None;
     remoteAddress := Some (js "::1") |}.

(** A record with its base-stat mapping, and a collection that holds it
    next to the record without one. *)
Definition bulbizarre : Pokemon :=
  {| id := 1;
     name_english := js "Bulbasaur";
     name_french := js "Bulbizarre";
     type := [VStr (js "Grass")];
     base := VObj [(js "HP", VNum 45); (js "Attack", VNum 49)];
     image := js "http://localhost:3000/assets/pokemons/1.png" |}.

Definition mixed_world : World :=
  {| pokemons := [bulbizarre; pikachu_accented]; auditLogs := [];
     assets := [] |}.

(** A record whose identifier is [2 ^ 53], as an update can store it. *)
Definition mew_at_limit : Pokemon :=
  {| id := 9007199254740992;
     name_english := js "Mew";
     name_french := js "Mew";
     type := [VStr (js "Psychic")];
     base := VUndefined;
     image := js "http://localhost:3000/assets/pokemons/151.png" |}.

Definition limit_world : World :=
  {| pokemons := [mew_at_limit]; auditLogs := []; assets := [] |}.

(* ================================================================== *)
(** * Properties *)

(** ** Reading: identifiers and seals of documents without [base] *)

Section ReadProperties.
Context `{Platform} `{Environment}.

Lemma seal_of_undefined (secret : jstring) :
  generateIntegritySeal VUndefined secret
  = Ok (hmac_sha256_hex secret (js "{}")).
Proof. reflexivity. Qed.

Lemma withIntegrityHash_missing_base (p : Pokemon) :
  base p = VUndefined -> withIntegrityHash p = Ok (sealed_empty p).
Proof.
  intros Hb. unfold withIntegrityHash. rewrite Hb, seal_of_undefined.
  reflexivity.
Qed.

Lemma withIntegrityHash_doc (p : Pokemon) (s : Sealed) :
  withIntegrityHash p = Ok s -> doc s = p.
Proof.
  unfold withIntegrityHash.
  destruct (generateIntegritySeal _ _); simpl; intros E; inversion E.
  reflexivity.
Qed.

Lemma sealAll_In (docs : list Pokemon) (l : list Sealed) (s : Sealed) :
  sealAll docs = Ok l -> In s l ->
  In (doc s) docs /\ withIntegrityHash (doc s) = Ok s.
Proof.
  unfold sealAll. revert l.
  induction docs as [|p docs IH]; simpl; intros l E Hin.
  - inversion E; subst. destruct Hin.
  - destruct (withIntegrityHash p) as [sp|] eqn:Ep; simpl in E; try discriminate.
    destruct (mapM withIntegrityHash docs) as [l'|]; simpl in E; try discriminate.
    inversion E; subst. destruct Hin as [<-|Hin].
    + pose proof (withIntegrityHash_doc _ _ Ep) as Hd.
      rewrite Hd. split; [now left | exact Ep].
    + destruct (IH l' eq_refl Hin) as [Hi Hw]. split; [now right | exact Hw].
Qed.

Lemma sealAll_missing_base (docs : list Pokemon) :
  Forall (fun p => base p = VUndefined) docs ->
  sealAll docs = Ok (map sealed_empty docs).
Proof.
  unfold sealAll. induction 1 as [|p docs Hp _ IH]; simpl.
  - reflexivity.
  - rewrite (withIntegrityHash_missing_base p Hp), IH. reflexivity.
Qed.

(** Every sealed document of a successful list carries the seal of the
    empty mapping when it has no [base]. *)
Lemma sealAll_hash_of_missing_base docs l s :
  sealAll docs = Ok l -> In s l -> base (doc s) = VUndefined ->
  integrityHash s = empty_seal.
Proof.
  intros E Hin Hb. destruct (sealAll_In _ _ _ E Hin) as [_ Hw].
  rewrite (withIntegrityHash_missing_base _ Hb) in Hw.
  inversion Hw as [Hs]. rewrite <- Hs at 1. reflexivity.
Qed.

(** C10: a get-by-id request whose [id] parameter [parseInt] cannot read
    is not answered 404 as a request for an absent identifier is: the
    [NaN] goes to the store unguarded, the store rejects it, and the
    handler's [catch] answers 500 with the generic error payload. *)
Theorem getPokemonById_unparseable (w : World) (idParam : jstring) :
  parseInt10 idParam = NaN ->
  getPokemonById w idParam
  = {| status := 500; body := JsonError (js "Internal Server Error") |}.
Proof.
  intros Hnan. unfold getPokemonById. rewrite Hnan. reflexivity.
Qed.
End ReadProperties.

(** ** Anchored patterns are exact matches up to case *)

(** The class the handlers escape is the set of the characters that mean
    something in a pattern: none is left out, none is added. *)
Lemma escape_class_is_syntax (c : Z) :
  is_regex_special c = is_syntax_character c.
Proof.
  unfold is_regex_special, is_syntax_character. cbn [existsb].
  repeat match goal with
         | |- context [c =? ?k] =>
             destruct (Z.eqb_spec c k) as [->|_]; [vm_compute; reflexivity|]
         end.
  reflexivity.
Qed.

Section RegExpProperties.
Context `{Platform}.

Lemma parse_escaped (s : jstring) (tail : jstring) (atoms : list Atom) :
  parse_regex tail = Some atoms ->
  parse_regex (escapeRegExp s ++ tail) = Some (map Lit s ++ atoms).
Proof.
  intros Ht. induction s as [|c s IH]; simpl; [exact Ht|].
  destruct (is_regex_special c) eqn:Hc; simpl.
  - rewrite <- escape_class_is_syntax, Hc, IH. reflexivity.
  - assert ((c =? 92) = false /\ (c =? 94) = false /\ (c =? 36) = false
            /\ (c =? 46) = false)
      as (H1 & H2 & H3 & H4).
    { unfold is_regex_special in Hc. simpl in Hc.
      repeat (apply orb_false_iff in Hc; destruct Hc as [? Hc]).
      repeat split; assumption. }
    rewrite H1, H2, H3, H4, <- escape_class_is_syntax, Hc, IH. reflexivity.
Qed.

(** The pattern [`^${escaped}$`] of a name is the name between the two
    assertions: every special character is escaped. *)
Lemma parse_anchored (s : jstring) :
  parse_regex (anchored (escapeRegExp s)) = Some (Bol :: map Lit s ++ [Eol]).
Proof.
  unfold anchored. change (parse_regex (94 :: ?l))
    with (option_map (cons Bol) (parse_regex l)).
  rewrite (parse_escaped s [36] [Eol]); reflexivity.
Qed.

Lemma match_here_literals (s text : jstring) (b : bool) :
  match_here (map Lit s ++ [Eol]) b text = ci_equal text s.
Proof.
  revert text b. induction s as [|c s IH]; intros [|x text] b; simpl;
    try reflexivity.
  rewrite IH. reflexivity.
Qed.

Lemma match_from_not_at_start (atoms : list Atom) (text : jstring) :
  match_from (Bol :: atoms) false text = false.
Proof. induction text as [|x text IH]; simpl; [reflexivity | exact IH]. Qed.

Lemma regex_test_anchored (s text : jstring) :
  regex_test (anchored (escapeRegExp s)) text = Ok (ci_equal text s).
Proof.
  unfold regex_test. rewrite parse_anchored. f_equal.
  destruct text as [|x text]; simpl.
  - rewrite match_here_literals. apply orb_false_r.
  - rewrite match_from_not_at_start, orb_false_r.
    apply (match_here_literals s (x :: text) true).
Qed.

Lemma matches_either_anchored (en fr : jstring) (p : Pokemon) :
  matches_either (anchored (escapeRegExp en)) (anchored (escapeRegExp fr)) p
  = Ok (ci_equal (name_english p) en || ci_equal (name_french p) fr).
Proof.
  unfold matches_either. rewrite !regex_test_anchored. reflexivity.
Qed.

Lemma findOne_total (f : Pokemon -> bool) (store : list Pokemon) :
  findOne (fun p => Ok (f p)) store = Ok (find f store).
Proof.
  induction store as [|p store IH]; simpl; [reflexivity|].
  destruct (f p); [reflexivity | exact IH].
Qed.

Lemma findOne_ext (f g : Pokemon -> Result bool) (store : list Pokemon) :
  (forall p, f p = g p) -> findOne f store = findOne g store.
Proof.
  intros E. induction store as [|p store IH]; simpl; [reflexivity|].
  rewrite E, IH. reflexivity.
Qed.

(** The duplicate query of the create handler. *)
Lemma duplicate_query (en fr : jstring) (store : list Pokemon) :
  findOne (matches_either (anchored (escapeRegExp en))
                          (anchored (escapeRegExp fr))) store
  = Ok (find (fun p => ci_equal (name_english p) en
                       || ci_equal (name_french p) fr) store).
Proof.
  rewrite <- findOne_total. apply findOne_ext.
  intros p. apply matches_either_anchored.
Qed.
End RegExpProperties.

(** ** Create: validation, conflicts, identifiers, failed downloads *)

Lemma truthy_false_iff (v : JsValue) : truthy v = false <-> is_missing v.
Proof.
  unfold is_missing. split.
  - destruct v as [| |b|n|s|l|ps]; simpl; intros E; try discriminate; auto.
    + destruct b; [discriminate|auto 6].
    + apply negb_false_iff, Z.eqb_eq in E. subst. auto 6.
    + destruct s; [auto 6|discriminate].
  - intros [->|[->|[->|[->| ->]]]]; reflexivity.
Qed.

Lemma truthy_true_iff (v : JsValue) : truthy v = true <-> ~ is_missing v.
Proof.
  rewrite <- truthy_false_iff. destruct (truthy v); split; intros; congruence.
Qed.

Section CreateProperties.
Context `{Platform} `{Environment}.

Lemma validate_name (name type base imageUrl : JsValue) :
  is_missing (optional_prop name (js "english"))
  \/ is_missing (optional_prop name (js "french")) ->
  validate name type base imageUrl
  = Some (js "name.english and name.french are required").
Proof.
  rewrite <- !truthy_false_iff. unfold validate.
  intros [-> | ->]; simpl; [|rewrite orb_true_r]; reflexivity.
Qed.

Lemma validate_type (name type base imageUrl : JsValue) :
  ~ is_missing (optional_prop name (js "english")) ->
  ~ is_missing (optional_prop name (js "french")) ->
  ~ nonempty_array type ->
  validate name type base imageUrl = Some (js "type must be a non-empty array").
Proof.
  rewrite <- !truthy_true_iff. unfold validate. intros -> -> Ht. simpl.
  destruct type as [| | | | |[|x l]|]; try reflexivity.
  exfalso. apply Ht. now exists x, l.
Qed.

Lemma validate_base (name type base imageUrl : JsValue) :
  ~ is_missing (optional_prop name (js "english")) ->
  ~ is_missing (optional_prop name (js "french")) ->
  nonempty_array type ->
  ~ is_object base ->
  validate name type base imageUrl = Some (js "base stats are required").
Proof.
  rewrite <- !truthy_true_iff. unfold validate.
  intros -> -> (x & l & ->) Hb. simpl.
  destruct base as [| |b|n|s|items|props]; simpl; try reflexivity.
  - now rewrite orb_true_r.
  - now rewrite orb_true_r.
  - now rewrite orb_true_r.
  - exfalso. apply Hb. left. now exists items.
  - exfalso. apply Hb. right. now exists props.
Qed.

Lemma validate_imageUrl (name type base imageUrl : JsValue) :
  ~ is_missing (optional_prop name (js "english")) ->
  ~ is_missing (optional_prop name (js "french")) ->
  nonempty_array type ->
  is_object base ->
  ~ nonempty_string imageUrl ->
  validate name type base imageUrl = Some (js "imageUrl is required").
Proof.
  rewrite <- !truthy_true_iff. unfold validate.
  intros -> -> (x & l & ->) Hb Hu. simpl.
  assert (Eb : negb (truthy base)
               || match base with
                  | VNull | VArr _ | VObj _ => false
                  | _ => true
                  end = false)
    by (destruct Hb as [[? ->]|[? ->]]; reflexivity).
  rewrite Eb.
  destruct imageUrl as [| |b|n|s|items|props]; simpl; try reflexivity.
  - now rewrite orb_true_r.
  - now rewrite orb_true_r.
  - destruct s as [|c s]; [reflexivity|].
    exfalso. apply Hu. now exists c, s.
Qed.

Lemma validate_pass (name type base imageUrl : JsValue) :
  ~ is_missing (optional_prop name (js "english")) ->
  ~ is_missing (optional_prop name (js "french")) ->
  nonempty_array type ->
  is_object base ->
  nonempty_string imageUrl ->
  validate name type base imageUrl = None.
Proof.
  rewrite <- !truthy_true_iff. unfold validate.
  intros -> -> (x & l & ->) Hb (c & s & ->). simpl.
  destruct Hb as [[? ->]|[? ->]]; reflexivity.
Qed.

Lemma pokemonCreate_unfold (w : World) (req : CreateRequest) :
  req_body req <> VUndefined -> req_body req <> VNull ->
  pokemonCreate w req
  = match validate (body_name req) (body_type req) (body_base req)
            (body_imageUrl req) with
    | Some message => (error_response 400 message, w)
    | None => afterValidation w req
    end.
Proof.
  intros Hu Hn. unfold pokemonCreate, afterValidation, body_name, body_type,
    body_base, body_imageUrl.
  destruct (req_body req); try reflexivity; congruence.
Qed.

Lemma afterValidation_status (w : World) (req : CreateRequest) :
  let s := status (fst (afterValidation w req)) in
  s = 500 \/ s = 409 \/ s = 201.
Proof.
  unfold afterValidation.
  destruct (prepare _ _ _ _ _ _) as [[[p f]|]|m]; simpl; auto.
  destruct (withIntegrityHash p); simpl; auto.
Qed.

Lemma is_missing_dec (v : JsValue) : is_missing v \/ ~ is_missing v.
Proof.
  destruct (truthy v) eqn:E.
  - right. now apply truthy_true_iff.
  - left. now apply truthy_false_iff.
Qed.

Lemma nonempty_array_dec (v : JsValue) : nonempty_array v \/ ~ nonempty_array v.
Proof.
  destruct v as [| | | | |[|x l]|];
    try (right; intros (? & ? & E); discriminate E).
  left. now exists x, l.
Qed.

Lemma is_object_dec (v : JsValue) : is_object v \/ ~ is_object v.
Proof.
  destruct v as [| | | | |l|ps];
    try (right; intros [[? E]|[? E]]; discriminate E).
  - left. left. now exists l.
  - left. right. now exists ps.
Qed.

Lemma nonempty_string_dec (v : JsValue) :
  nonempty_string v \/ ~ nonempty_string v.
Proof.
  destruct v as [| | | |[|c s]| |];
    try (right; intros (? & ? & E); discriminate E).
  left. now exists c, s.
Qed.

Lemma validate_cases (req : CreateRequest) :
  (exists message,
      Violation req message /\
      validate (body_name req) (body_type req) (body_base req)
        (body_imageUrl req) = Some message)
  \/ (~ is_missing (body_english req) /\ ~ is_missing (body_french req)
      /\ nonempty_array (body_type req) /\ is_object (body_base req)
      /\ nonempty_string (body_imageUrl req)
      /\ validate (body_name req) (body_type req) (body_base req)
           (body_imageUrl req) = None).
Proof.
  destruct (is_missing_dec (body_english req)) as [He|He].
  { left. eexists. split; [apply bad_name; now left|].
    apply validate_name. now left. }
  destruct (is_missing_dec (body_french req)) as [Hf|Hf].
  { left. eexists. split; [apply bad_name; now right|].
    apply validate_name. now right. }
  destruct (nonempty_array_dec (body_type req)) as [Ht|Ht].
  2:{ left. eexists. split; [now apply bad_type|]. now apply validate_type. }
  destruct (is_object_dec (body_base req)) as [Hb|Hb].
  2:{ left. eexists. split; [now apply bad_base|]. now apply validate_base. }
  destruct (nonempty_string_dec (body_imageUrl req)) as [Hu|Hu].
  2:{ left. eexists. split; [now apply bad_imageUrl|].
      now apply validate_imageUrl. }
  right. repeat split; try assumption. now apply validate_pass.
Qed.

(** C6: on a parsed request body the create handler answers 400 exactly
    when [name.english] or [name.french] is missing, or [type] is not a
    non-empty array, or [base] is not an object, or [imageUrl] is not a
    non-empty string; the 400 response carries the message of the first
    check that fails and leaves the stores as they were; when the four
    checks pass, the status is not 400. *)
Theorem create_validation (w : World) (req : CreateRequest) :
  req_body req <> VUndefined -> req_body req <> VNull ->
  let r := pokemonCreate w req in
  (status (fst r) = 400 <->
     is_missing (body_english req) \/ is_missing (body_french req)
     \/ ~ nonempty_array (body_type req) \/ ~ is_object (body_base req)
     \/ ~ nonempty_string (body_imageUrl req))
  /\ (forall message, Violation req message ->
        r = ({| status := 400; body := JsonError message |}, w))
  /\ (~ is_missing (body_english req) -> ~ is_missing (body_french req) ->
      nonempty_array (body_type req) -> is_object (body_base req) ->
      nonempty_string (body_imageUrl req) -> status (fst r) <> 400).
Proof.
  intros Hu Hn r. subst r. rewrite (pokemonCreate_unfold w req Hu Hn).
  pose proof (afterValidation_status w req) as Hs. simpl in Hs.
  destruct (validate_cases req) as [(m & Hv & E)|(He & Hf & Ht & Hb & Hi & E)];
    rewrite E.
  - split; [|split].
    + split; [intros _|reflexivity].
      destruct Hv; tauto.
    + intros m' Hv'. replace m' with m; [reflexivity|].
      destruct Hv, Hv'; try reflexivity; tauto.
    + intros. destruct Hv; tauto.
  - split; [|split].
    + split; [intros E4; lia | tauto].
    + intros m' Hv'. destruct Hv'; tauto.
    + intros. lia.
Qed.

Lemma optional_prop_get (v : JsValue) (key : jstring) :
  optional_prop v key = get_prop v key.
Proof. destruct v; reflexivity. Qed.

Lemma validate_needs_body (req : CreateRequest) :
  validate (body_name req) (body_type req) (body_base req)
    (body_imageUrl req) = None ->
  req_body req <> VUndefined /\ req_body req <> VNull.
Proof.
  unfold body_name, body_type, body_base, body_imageUrl.
  destruct (req_body req); simpl; intros E; try discriminate;
    split; discriminate.
Qed.

Lemma latest_none (store : list Pokemon) : latest store = None -> store = [].
Proof.
  destruct store as [|p store]; simpl; [reflexivity|].
  destruct (latest store) as [q|]; [destruct (id p <? id q)|]; discriminate.
Qed.

Lemma latest_greatest (store : list Pokemon) (q : Pokemon) :
  latest store = Some q ->
  In q store /\ forall p, In p store -> id p <= id q.
Proof.
  revert q. induction store as [|a store IH]; simpl; intros q E;
    [discriminate|].
  destruct (latest store) as [m|] eqn:El.
  - destruct (IH m eq_refl) as [Hin Hmax].
    destruct (id a <? id m) eqn:Hlt; inversion E; subst.
    + apply Z.ltb_lt in Hlt. split; [now right|].
      intros p [<-|Hp]; [lia | now apply Hmax].
    + apply Z.ltb_ge in Hlt. split; [now left|].
      intros p [<-|Hp]; [lia | specialize (Hmax p Hp); lia].
  - inversion E; subst. apply latest_none in El. subst.
    split; [now left|]. intros p [<-|[]]. lia.
Qed.

Lemma round_double_exact (n : Z) :
  - 2 ^ 53 <= n <= 2 ^ 53 -> round_double n = n.
Proof.
  intros Hn. unfold round_double.
  destruct (Z.abs n <? 2 ^ 53) eqn:E; [reflexivity|].
  apply Z.ltb_ge in E.
  assert (Hc : n = 2 ^ 53 \/ n = - 2 ^ 53) by lia.
  destruct Hc as [-> | ->]; vm_compute; reflexivity.
Qed.

(** On a collection of safe identifiers [nextId] is one more than the
    greatest identifier, and it is 1 on the empty collection. *)
Lemma nextId_spec (store : list Pokemon) :
  safe_ids store ->
  (store = [] -> nextId store = 1)
  /\ (forall q, In q store -> id q < nextId store)
  /\ (store <> [] -> exists q, In q store /\ nextId store = id q + 1).
Proof.
  intros Hsafe. unfold nextId, js_add.
  destruct (latest store) as [m|] eqn:El.
  - destruct (latest_greatest _ _ El) as [Hin Hmax].
    assert (E : (if id m =? 0 then 0 else id m) + 1 = id m + 1)
      by (destruct (Z.eqb_spec (id m) 0); lia).
    rewrite E, round_double_exact by (specialize (Hsafe m Hin); lia).
    split; [|split].
    + intros ->. destruct Hin.
    + intros q Hq. specialize (Hmax q Hq). lia.
    + intros _. now exists m.
  - apply latest_none in El. subst. split; [reflexivity|].
    split; [intros q []|congruence].
Qed.

Lemma prepare_new_id w req name type base imageUrl p file :
  prepare w req name type base imageUrl = Ok (Some (p, file)) ->
  id p = nextId (pokemons w).
Proof.
  unfold prepare.
  destruct (escaped_name (get_prop name (js "english")) _); simpl;
    [|discriminate].
  destruct (escaped_name (get_prop name (js "french")) _); simpl;
    [|discriminate].
  destruct (findOne _ _) as [[d|]|]; simpl; try discriminate.
  destruct (downloadPokemonImage _); simpl; [|discriminate].
  intros E. inversion E. reflexivity.
Qed.

Lemma prepare_needs_image w req name type base imageUrl p file :
  prepare w req name type base imageUrl = Ok (Some (p, file)) ->
  exists data, downloadPokemonImage (string_of imageUrl) = Ok data.
Proof.
  unfold prepare.
  destruct (escaped_name (get_prop name (js "english")) _); simpl;
    [|discriminate].
  destruct (escaped_name (get_prop name (js "french")) _); simpl;
    [|discriminate].
  destruct (findOne _ _) as [[d|]|]; simpl; try discriminate.
  destruct (downloadPokemonImage _) as [data|]; simpl; [|discriminate].
  intros _. now exists data.
Qed.

Lemma pokemonCreate_nullish (w : World) (req : CreateRequest) :
  req_body req = VUndefined \/ req_body req = VNull ->
  status (fst (pokemonCreate w req)) = 500 /\ snd (pokemonCreate w req) = w.
Proof.
  unfold pokemonCreate. intros [-> | ->]; split; reflexivity.
Qed.

Lemma body_nullish_dec (req : CreateRequest) :
  (req_body req = VUndefined \/ req_body req = VNull)
  \/ (req_body req <> VUndefined /\ req_body req <> VNull).
Proof.
  destruct (req_body req); try (right; split; discriminate); left; auto.
Qed.

(** C7: after a successful create (status 201) on a collection whose
    identifiers all lie between [- 2 ^ 53] and [2 ^ 53], the collection
    has one more record, the one in the response; its [id] is 1 when the
    collection was empty, and otherwise the greatest [id] of the
    collection plus 1. *)
Theorem create_assigns_next_id (w : World) (req : CreateRequest) :
  let r := pokemonCreate w req in
  safe_ids (pokemons w) ->
  status (fst r) = 201 ->
  exists p s,
    pokemons (snd r) = pokemons w ++ [p]
    /\ body (fst r) = JsonPokemon s /\ doc s = p
    /\ (pokemons w = [] -> id p = 1)
    /\ (pokemons w <> [] ->
        exists q, In q (pokemons w)
                  /\ (forall q', In q' (pokemons w) -> id q' <= id q)
                  /\ id p = id q + 1).
Proof.
  intros r Hsafe. subst r.
  destruct (body_nullish_dec req) as [Hnull|[Hu Hn]].
  { destruct (pokemonCreate_nullish w req Hnull) as [E _].
    rewrite E. discriminate. }
  rewrite (pokemonCreate_unfold w req Hu Hn).
  destruct (validate _ _ _ _); [simpl; discriminate|].
  unfold afterValidation.
  destruct (prepare _ _ _ _ _ _) as [[[p f]|]|m] eqn:Ep; simpl;
    try discriminate.
  destruct (withIntegrityHash p) as [s|] eqn:Es; simpl; [|discriminate].
  intros _. exists p, s.
  pose proof (prepare_new_id _ _ _ _ _ _ _ _ Ep) as Hid.
  destruct (nextId_spec (pokemons w) Hsafe) as (H1 & H2 & H3).
  repeat split.
  - exact (withIntegrityHash_doc _ _ Es).
  - intros Hw. rewrite Hid. now apply H1.
  - intros Hw. destruct (H3 Hw) as (q & Hq & E). exists q.
    repeat split; [exact Hq| |congruence].
    intros q' Hq'. specialize (H2 q' Hq'). lia.
Qed.

(** The two ways a download fails on a response: the status is not a
    success, or the content type does not begin with [image/]. *)
Lemma download_fails (imageUrl : jstring) (response : FetchResponse) :
  fetch (resolveDownloadUrl imageUrl) = Ok response ->
  ok response = false
  \/ startsWith (js "image/")
       (toLowerCase match content_type response with
                    | Some t => t
                    | None => []
                    end) = false ->
  exists message, downloadPokemonImage imageUrl = Throw message.
Proof.
  intros Hf Hbad. unfold downloadPokemonImage. rewrite Hf. cbn [bind].
  destruct (ok response); cbn [negb].
  - destruct Hbad as [Hbad|Hbad]; [discriminate|]. rewrite Hbad.
    cbn [negb]. eauto.
  - eauto.
Qed.

(** C4: when the image download fails, because the response status is
    not a success or its content type does not begin with [image/], the
    create persists nothing: the stores are unchanged, the status is not
    201, and it is 500 unless the request was already refused with 400 or
    409 before the download.  In particular a valid request with string
    names and no duplicate is answered 500 with an error message. *)
Theorem create_download_failure (w : World) (req : CreateRequest)
  (response : FetchResponse) :
  fetch (resolveDownloadUrl (string_of (body_imageUrl req))) = Ok response ->
  ok response = false
  \/ startsWith (js "image/")
       (toLowerCase match content_type response with
                    | Some t => t
                    | None => []
                    end) = false ->
  let r := pokemonCreate w req in
  snd r = w
  /\ status (fst r) <> 201
  /\ (status (fst r) <> 400 -> status (fst r) <> 409 -> status (fst r) = 500)
  /\ (forall en fr,
        validate (body_name req) (body_type req) (body_base req)
          (body_imageUrl req) = None ->
        body_english req = VStr en -> body_french req = VStr fr ->
        find (fun p => ci_equal (name_english p) en
                       || ci_equal (name_french p) fr) (pokemons w) = None ->
        exists message, r = ({| status := 500; body := JsonError message |}, w)).
Proof.
  intros Hf Hbad r. subst r.
  destruct (download_fails _ _ Hf Hbad) as [m Hm].
  assert (Hreach : forall en fr,
             validate (body_name req) (body_type req) (body_base req)
               (body_imageUrl req) = None ->
             body_english req = VStr en -> body_french req = VStr fr ->
             find (fun p => ci_equal (name_english p) en
                            || ci_equal (name_french p) fr) (pokemons w) = None ->
             exists message,
               pokemonCreate w req
               = ({| status := 500; body := JsonError message |}, w)).
  { intros en fr Hv He Hfr Hnone.
    destruct (validate_needs_body req Hv) as [Hu Hn].
    rewrite (pokemonCreate_unfold w req Hu Hn), Hv.
    unfold afterValidation, prepare.
    unfold body_english, body_french in He, Hfr.
    rewrite optional_prop_get in He, Hfr. rewrite He, Hfr. cbn [escaped_name bind].
    rewrite duplicate_query. cbn [bind]. rewrite Hnone, Hm. cbn [bind].
    unfold surfaced, error_response. eauto. }
  destruct (body_nullish_dec req) as [Hnull|[Hu Hn]].
  { destruct (pokemonCreate_nullish w req Hnull) as [E1 E2].
    split; [exact E2|]. rewrite E1. split; [discriminate|].
    split; [reflexivity|]. exact Hreach. }
  split; [|split; [|split; [|exact Hreach]]];
    rewrite (pokemonCreate_unfold w req Hu Hn);
    (destruct (validate _ _ _ _); [simpl; try reflexivity; congruence|]);
    unfold afterValidation;
    (destruct (prepare _ _ _ _ _ _) as [[[p f]|]|m'] eqn:Ep; simpl;
     [destruct (prepare_needs_image _ _ _ _ _ _ _ _ Ep) as [d Hd]; congruence
     | try reflexivity; congruence
     | try reflexivity; try discriminate ]).
Qed.

(** When the body passes the shape validation and both names are strings,
    a record whose english name equals the request's english name, or whose
    french name equals the request's french name, up to case, makes the
    create fail with 409, and nothing is persisted. *)
Lemma create_conflict (w : World) (req : CreateRequest) (en fr : jstring) :
  validate (body_name req) (body_type req) (body_base req)
    (body_imageUrl req) = None ->
  body_english req = VStr en -> body_french req = VStr fr ->
  (exists p, In p (pokemons w)
             /\ (ci_equal (name_english p) en = true
                 \/ ci_equal (name_french p) fr = true)) ->
  pokemonCreate w req
  = ({| status := 409;
        body := JsonError (js "Pokemon already exists (english or french name)") |},
     w).
Proof.
  intros Hv He Hf (p & Hin & Hm).
  destruct (validate_needs_body req Hv) as [Hu Hn].
  rewrite (pokemonCreate_unfold w req Hu Hn), Hv.
  unfold afterValidation, prepare.
  unfold body_english, body_french in He, Hf.
  rewrite optional_prop_get in He, Hf. rewrite He, Hf. simpl.
  rewrite duplicate_query. simpl.
  destruct (find _ (pokemons w)) as [d|] eqn:Efind; [reflexivity|].
  exfalso. pose proof (find_none _ _ Efind p Hin) as Hnone. simpl in Hnone.
  apply orb_false_iff in Hnone. destruct Hnone, Hm; congruence.
Qed.
(** C3: a body that passes the shape validation with a french name that is
    not a string.  Building the pattern calls [replace] on it, which throws;
    the handler answers 500 whether or not a record has the english name. *)
Theorem create_type_error_before_conflict (w : World) (req : CreateRequest)
  (en : jstring) :
  validate (body_name req) (body_type req) (body_base req)
    (body_imageUrl req) = None ->
  body_english req = VStr en ->
  (forall s, body_french req <> VStr s) ->
  pokemonCreate w req
  = ({| status := 500;
        body := JsonError (js "name.french.replace is not a function") |}, w).
Proof.
  intros Hv He Hf.
  destruct (validate_needs_body req Hv) as [Hu Hn].
  rewrite (pokemonCreate_unfold w req Hu Hn), Hv.
  unfold afterValidation, prepare.
  unfold body_english, body_french in He, Hf.
  rewrite optional_prop_get in He. rewrite He.
  destruct (get_prop (body_name req) (js "french")) as [| |b|n|s|l|ps] eqn:Ef;
    try reflexivity.
  exfalso. apply (Hf s). now rewrite optional_prop_get.
Qed.
End CreateProperties.

(** ** Search *)

Lemma startsWith_prefix (p a : jstring) :
  startsWith p a = true <-> exists after, a = p ++ after.
Proof.
  revert a. induction p as [|x p IH]; intros a; simpl.
  - split; [intros _; now exists a | reflexivity].
  - destruct a as [|y a].
    + split; [discriminate | intros [t E]; discriminate E].
    + rewrite andb_true_iff, Z.eqb_eq, IH. split.
      * intros [-> [t ->]]. now exists t.
      * intros [t E]. inversion E; subst. split; [reflexivity | now exists t].
Qed.

Lemma includes_substring (a p : jstring) :
  includes a p = true <-> substring p a.
Proof.
  unfold substring. induction a as [|y a IH].
  - simpl. rewrite orb_false_r, startsWith_prefix. split.
    + intros [t E]. now exists [], t.
    + intros (b & t & E). destruct b as [|z b]; [now exists t | discriminate E].
  - change (includes (y :: a) p) with (startsWith p (y :: a) || includes a p).
    rewrite orb_true_iff, startsWith_prefix, IH. split.
    + intros [[t E]|(b & t & E)].
      * now exists [], t.
      * exists (y :: b), t. rewrite E. reflexivity.
    + intros (b & t & E). destruct b as [|z b].
      * left. now exists t.
      * right. inversion E; subst. now exists b, t.
Qed.

Lemma firstn_In {A : Type} (n : nat) (l : list A) (x : A) :
  In x (firstn n l) -> In x l.
Proof.
  intros Hx. rewrite <- (firstn_skipn n l). apply in_or_app. now left.
Qed.

Section SearchProperties.
Context `{Platform} `{Environment}.

Lemma search_match_substring (normalizedQuery : jstring) (p : Pokemon) :
  search_match normalizedQuery p = true <->
  substring normalizedQuery (normalizeForSearch (name_english p))
  \/ substring normalizedQuery (normalizeForSearch (name_french p)).
Proof.
  unfold search_match. rewrite orb_true_iff, !includes_substring. tauto.
Qed.

(** Sealing fails on a [null] mapping only. *)
Lemma generateIntegritySeal_total (stats : JsValue) (secret : jstring) :
  stats <> VNull -> exists digest, generateIntegritySeal stats secret = Ok digest.
Proof.
  intros Hn. unfold generateIntegritySeal.
  destruct stats; simpl; try congruence; eauto.
Qed.

Lemma sealAll_docs (docs : list Pokemon) (l : list Sealed) :
  sealAll docs = Ok l -> map doc l = docs.
Proof.
  unfold sealAll. revert l. induction docs as [|p docs IH]; simpl; intros l E.
  - inversion E. reflexivity.
  - destruct (withIntegrityHash p) as [s|] eqn:Es; simpl in E; [|discriminate].
    destruct (mapM withIntegrityHash docs) as [l'|]; simpl in E; [|discriminate].
    inversion E; subst. simpl.
    rewrite (withIntegrityHash_doc _ _ Es), (IH l' eq_refl). reflexivity.
Qed.

Lemma sealAll_total (docs : list Pokemon) :
  Forall (fun p => base p <> VNull) docs -> exists l, sealAll docs = Ok l.
Proof.
  unfold sealAll. induction 1 as [|p docs Hp _ [l IH]]; simpl.
  - now exists [].
  - unfold withIntegrityHash at 1.
    destruct (generateIntegritySeal_total (base p)
                (INTEGRITY_SECRET ENV_INTEGRITY_SECRET) Hp) as [d ->].
    simpl. rewrite IH. simpl. eauto.
Qed.

Lemma getPokemonsSearch_nonempty (w : World) (text : jstring) :
  trim text <> [] ->
  getPokemonsSearch w (VStr text)
  = match sealAll (search_hits w (normalizeForSearch (trim text))) with
    | Ok l => json (JsonPokemons l)
    | Throw _ => internal_error
    end.
Proof.
  intros Hne. unfold getPokemonsSearch, search_hits.
  destruct text as [|c text]; [now destruct Hne|].
  cbn [truthy]. destruct (trim (c :: text)); [congruence | reflexivity].
Qed.

Lemma getPokemonsSearch_blank (w : World) (text : jstring) :
  trim text = [] ->
  getPokemonsSearch w (VStr text) = json (JsonPokemons []).
Proof.
  intros E. unfold getPokemonsSearch.
  destruct text as [|c text]; [reflexivity|].
  cbn [truthy]. rewrite E. reflexivity.
Qed.

Lemma getPokemonsSearch_falsy (w : World) (query : JsValue) :
  truthy query = false -> getPokemonsSearch w query = json (JsonPokemons []).
Proof. intros E. unfold getPokemonsSearch. rewrite E. reflexivity. Qed.

Lemma getPokemonsSearch_not_string (w : World) (query : JsValue) :
  truthy query = true -> (forall text, query <> VStr text) ->
  getPokemonsSearch w query = internal_error.
Proof.
  intros E Hs. unfold getPokemonsSearch. rewrite E.
  destruct query; try reflexivity. now destruct (Hs s).
Qed.

(** C5: a request without the parameter, or with a query that is empty
    after trimming, is answered 200 with the empty list.  Otherwise the
    query and the two names of every record go through
    [normalizeForSearch]: canonical decomposition, the combining marks
    U+0300 to U+036F removed, lower case, surrounding white space
    removed.  A record matches exactly when the normalised query occurs
    in one of its normalised names; the response lists, in order, the
    first 50 matches among the first 1000 records, each of them sealed,
    and it is a 200 whenever no record of the batch has a [null] base.
    A query that is not a string (a repeated or bracketed parameter) is
    answered 500. *)
Theorem search_spec (w : World) (query : JsValue) :
  let batch := firstn 1000 (pokemons w) in
  let r := getPokemonsSearch w query in
  (forall value,
      normalizeForSearch value
      = trim (toLowerCase
                (filter (fun c => negb ((768 <=? c) && (c <=? 879)))
                        (normalizeNFD value))))
  /\ (truthy query = false ->
      r = {| status := 200; body := JsonPokemons [] |})
  /\ (forall text, query = VStr text -> trim text = [] ->
      r = {| status := 200; body := JsonPokemons [] |})
  /\ (forall text, query = VStr text -> trim text <> [] ->
      let normalizedQuery := normalizeForSearch (trim text) in
      (forall p, search_match normalizedQuery p = true <->
                 substring normalizedQuery (normalizeForSearch (name_english p))
                 \/ substring normalizedQuery
                      (normalizeForSearch (name_french p)))
      /\ (List.length batch <= 1000)%nat
      /\ (List.length (listed r) <= 50)%nat
      /\ (status r = 200 ->
          map doc (listed r)
          = firstn 50 (filter (search_match normalizedQuery) batch))
      /\ (Forall (fun p => base p <> VNull) batch -> status r = 200)
      /\ (forall s, In s (listed r) ->
            In (doc s) batch
            /\ (substring normalizedQuery
                  (normalizeForSearch (name_english (doc s)))
                \/ substring normalizedQuery
                     (normalizeForSearch (name_french (doc s))))))
  /\ (truthy query = true -> (forall text, query <> VStr text) ->
      r = {| status := 500; body := JsonError (js "Internal Server Error") |}).
Proof.
  intros batch r.
  split; [reflexivity|].
  split; [apply getPokemonsSearch_falsy|].
  split; [intros text -> E; now apply getPokemonsSearch_blank|].
  split; [|apply getPokemonsSearch_not_string].
  intros text Hq Hne normalizedQuery. subst r query.
  rewrite (getPokemonsSearch_nonempty w text Hne).
  fold normalizedQuery.
  assert (Hhits : forall p, In p (search_hits w normalizedQuery) ->
             In p batch /\ search_match normalizedQuery p = true).
  { intros p Hp. unfold search_hits in Hp.
    apply firstn_In in Hp. now apply filter_In in Hp. }
  split; [apply search_match_substring|].
  split; [apply firstn_le_length|].
  destruct (sealAll (search_hits w normalizedQuery)) as [l|m] eqn:E; simpl.
  + pose proof (sealAll_docs _ _ E) as Hd.
    split.
    { change (List.length l <= 50)%nat. rewrite <- (length_map doc l), Hd.
      apply firstn_le_length. }
    split; [intros _; exact Hd|]. split; [reflexivity|].
    intros s Hs. assert (Hin : In (doc s) (search_hits w normalizedQuery))
      by (rewrite <- Hd; now apply in_map).
    destruct (Hhits _ Hin) as [Hb Hm]. split; [exact Hb|].
    now apply search_match_substring.
  + split; [lia|]. split; [discriminate|]. split; [|intros s []].
    intros Hall. exfalso.
    destruct (sealAll_total (search_hits w normalizedQuery)) as [l El];
      [|congruence].
    apply Forall_forall. intros p Hp. destruct (Hhits p Hp) as [Hb _].
    exact (proj1 (Forall_forall _ batch) Hall p Hb).
Qed.
End SearchProperties.

(** ** Sorting *)

Lemma jstr_eqb_eq (a b : jstring) : jstr_eqb a b = true <-> a = b.
Proof.
  revert b. induction a as [|x a IH]; intros [|y b]; simpl;
    try (split; [discriminate | intros E; discriminate E]);
    [tauto|].
  rewrite andb_true_iff, Z.eqb_eq, IH. split.
  - intros [-> ->]. reflexivity.
  - intros E. inversion E. auto.
Qed.

Lemma jstr_eqb_refl (a : jstring) : jstr_eqb a a = true.
Proof. now apply jstr_eqb_eq. Qed.

Lemma jstr_eqb_neq (a b : jstring) : a <> b -> jstr_eqb a b = false.
Proof.
  intros Hne. destruct (jstr_eqb a b) eqn:E; [|reflexivity].
  apply jstr_eqb_eq in E. contradiction.
Qed.

Section SortProperties.
Context {A : Type}.

Lemma sort_insert_perm (cmp : A -> A -> Z) (x : A) (l : list A) :
  Permutation (x :: l) (sort_insert cmp x l).
Proof.
  induction l as [|y l IH]; simpl; [reflexivity|].
  destruct (0 <? cmp x y); [|reflexivity].
  rewrite perm_swap. now apply perm_skip.
Qed.

Lemma sort_perm (cmp : A -> A -> Z) (l : list A) : Permutation l (sort cmp l).
Proof.
  induction l as [|x l IH]; simpl; [reflexivity|].
  rewrite <- sort_insert_perm. now apply perm_skip.
Qed.

Lemma sort_In (cmp : A -> A -> Z) (l : list A) (x : A) :
  In x (sort cmp l) <-> In x l.
Proof.
  split; apply Permutation_in; [symmetry|]; apply sort_perm.
Qed.

(** The result depends on the sign of the comparator on the elements of
    the list only. *)
Lemma sort_insert_ext (cmp cmp' : A -> A -> Z) (x : A) (l : list A) :
  (forall b, In b l -> (0 <? cmp x b) = (0 <? cmp' x b)) ->
  sort_insert cmp x l = sort_insert cmp' x l.
Proof.
  induction l as [|y l IH]; simpl; intros E; [reflexivity|].
  rewrite <- (E y (or_introl eq_refl)).
  destruct (0 <? cmp x y); [|reflexivity].
  rewrite IH; [reflexivity|]. intros b Hb. apply E. now right.
Qed.

Lemma sort_ext (cmp cmp' : A -> A -> Z) (l : list A) :
  (forall a b, In a l -> In b l -> (0 <? cmp a b) = (0 <? cmp' a b)) ->
  sort cmp l = sort cmp' l.
Proof.
  induction l as [|x l IH]; simpl; intros E; [reflexivity|].
  rewrite IH by (intros a b Ha Hb; apply E; now right).
  apply sort_insert_ext. intros b Hb. apply E; [now left|].
  right. now apply (sort_In cmp' l b).
Qed.

Lemma sort_insert_map {B : Type} (f : B -> A) (cmp : A -> A -> Z)
  (x : B) (l : list B) :
  map f (sort_insert (fun a b => cmp (f a) (f b)) x l)
  = sort_insert cmp (f x) (map f l).
Proof.
  induction l as [|y l IH]; simpl; [reflexivity|].
  destruct (0 <? cmp (f x) (f y)); simpl; [now rewrite IH | reflexivity].
Qed.

(** Sorting records by a key and sorting their keys agree. *)
Lemma sort_map {B : Type} (f : B -> A) (cmp : A -> A -> Z) (l : list B) :
  map f (sort (fun a b => cmp (f a) (f b)) l) = sort cmp (map f l).
Proof.
  induction l as [|x l IH]; simpl; [reflexivity|].
  now rewrite sort_insert_map, IH.
Qed.

Lemma sort_insert_sorted (cmp : A -> A -> Z) (x : A) (l : list A) :
  consistent cmp -> sorted cmp l -> sorted cmp (sort_insert cmp x l).
Proof.
  intros [Htot Htrans]. induction 1 as [|y l Hy Hs IH]; simpl.
  - constructor; constructor.
  - destruct (0 <? cmp x y) eqn:E.
    + apply Z.ltb_lt in E. constructor; [|exact IH].
      apply Forall_forall. intros z Hz.
      apply (Permutation_in _ (Permutation_sym (sort_insert_perm cmp x l)))
        in Hz.
      destruct Hz as [<-|Hz]; [now apply Htot|].
      exact (proj1 (Forall_forall _ _) Hy z Hz).
    + apply Z.ltb_ge in E. constructor; [|now constructor].
      constructor; [exact E|].
      apply Forall_forall. intros z Hz.
      apply (Htrans x y z E). exact (proj1 (Forall_forall _ _) Hy z Hz).
Qed.

Lemma sort_sorted (cmp : A -> A -> Z) (l : list A) :
  consistent cmp -> sorted cmp (sort cmp l).
Proof.
  intros Hc. induction l as [|x l IH]; simpl; [constructor|].
  now apply sort_insert_sorted.
Qed.
End SortProperties.

(** ** Audit lookup *)

Section AuditProperties.
Context `{Platform} `{Environment}.

Lemma filterM_total {A : Type} (f : A -> bool) (l : list A) :
  filterM (fun x => Ok (f x)) l = Ok (filter f l).
Proof.
  induction l as [|x l IH]; simpl; [reflexivity|].
  rewrite IH. simpl. destruct (f x); reflexivity.
Qed.

Lemma filterM_ext {A : Type} (f g : A -> Result bool) (l : list A) :
  (forall x, f x = g x) -> filterM f l = filterM g l.
Proof.
  intros E. induction l as [|x l IH]; simpl; [reflexivity|].
  now rewrite E, IH.
Qed.

(** Without a [limit] parameter, or with an empty one, the limit is 20. *)
Lemma auditLimit_default :
  auditLimit None = Num 20 /\ auditLimit (Some []) = Num 20.
Proof. split; reflexivity. Qed.

(** A limit that [parseInt] reads is clamped to [1 .. 100]. *)
Lemma auditLimit_clamped (text : jstring) (n : Z) :
  text <> [] -> parseInt10 text = Num n ->
  auditLimit (Some text) = Num (Z.max 1 (Z.min n 100))
  /\ 1 <= Z.max 1 (Z.min n 100) <= 100.
Proof.
  intros Hne Hp. split; [|lia].
  unfold auditLimit. destruct text as [|c s]; [congruence|].
  rewrite Hp. reflexivity.
Qed.

(** A limit that [parseInt] cannot read stays [NaN] through [Math.min]
    and [Math.max]. *)
Lemma auditLimit_NaN (text : jstring) :
  text <> [] -> parseInt10 text = NaN -> auditLimit (Some text) = NaN.
Proof.
  intros Hne Hp. unfold auditLimit. destruct text as [|c s]; [congruence|].
  rewrite Hp. reflexivity.
Qed.

Lemma newest_first_sorted (logs : list AuditEntry) :
  sorted (fun a b => createdAt b - createdAt a) (newest_first logs).
Proof.
  apply sort_sorted. split; intros; lia.
Qed.

(** With a readable limit the lookup answers 200 with the first [limit]
    entries of the matches. *)
Lemma getAuditLogs_readable (w : World) (nameParam decoded : jstring)
  (limitParam : option jstring) (n : Z) :
  decodeURIComponent nameParam = Ok decoded ->
  auditLimit limitParam = Num n ->
  getAuditLogs w nameParam limitParam
  = json (JsonLogs (firstn (Z.to_nat n) (audit_matches w (trim decoded)))).
Proof.
  intros Hd Hl. unfold getAuditLogs, audit_matches. rewrite Hd, Hl.
  rewrite (filterM_ext _ (fun e => Ok (ci_equal (pokemonName e) (trim decoded))))
    by (intros e; apply regex_test_anchored).
  rewrite filterM_total. reflexivity.
Qed.

(** With an unreadable limit the lookup hands [NaN] to the store. *)
Lemma getAuditLogs_unreadable (w : World) (nameParam decoded : jstring)
  (limitParam : option jstring) :
  decodeURIComponent nameParam = Ok decoded ->
  auditLimit limitParam = NaN ->
  getAuditLogs w nameParam limitParam
  = match limit_NaN (audit_matches w (trim decoded)) with
    | Ok logs => json (JsonLogs logs)
    | Throw _ => internal_error
    end.
Proof.
  intros Hd Hl. unfold getAuditLogs, audit_matches. rewrite Hd, Hl.
  rewrite (filterM_ext _ (fun e => Ok (ci_equal (pokemonName e) (trim decoded))))
    by (intros e; apply regex_test_anchored).
  rewrite filterM_total. reflexivity.
Qed.
End AuditProperties.

(** C8: the request [GET /auditLogs/Pikachu?limit=abc].  [parseInt] yields
    [NaN], which [Math.min] and [Math.max] propagate: the effective limit is
    [NaN], not a number of [1 .. 100].  The paged list guards the same
    conversion with [|| 0]. *)
Theorem auditLimit_unparseable :
  auditLimit (Some (js "abc")) = NaN
  /\ number_or_zero (parseInt10 (js "abc")) = 0.
Proof. split; reflexivity. Qed.

(** ** Sealer *)

Section ObjectProperties.
Context {A : Type}.

Lemma index_props_named (props : list (jstring * A)) :
  (forall kv, In kv props -> array_index (fst kv) = None) ->
  index_props props = [].
Proof.
  unfold index_props. induction props as [|kv props IH]; simpl; intros Hn;
    [reflexivity|].
  rewrite (Hn kv (or_introl eq_refl)). simpl.
  apply IH. intros kv' Hkv'. apply Hn. now right.
Qed.

Lemma named_props_named (props : list (jstring * A)) :
  (forall kv, In kv props -> array_index (fst kv) = None) ->
  named_props props = props.
Proof.
  unfold named_props. induction props as [|kv props IH]; simpl; intros Hn;
    [reflexivity|].
  rewrite (Hn kv (or_introl eq_refl)). simpl. f_equal.
  apply IH. intros kv' Hkv'. apply Hn. now right.
Qed.

(** Without index keys the enumeration order is the order of creation. *)
Lemma own_order_named (props : list (jstring * A)) :
  (forall kv, In kv props -> array_index (fst kv) = None) ->
  own_order props = props.
Proof.
  intros Hn. unfold own_order.
  rewrite (index_props_named props Hn), (named_props_named props Hn).
  reflexivity.
Qed.

Lemma update_prop_fresh (props : list (jstring * A)) (key : jstring) (v : A) :
  ~ In key (map fst props) -> update_prop props key v = props ++ [(key, v)].
Proof.
  induction props as [|[k w] props IH]; simpl; intros Hn; [reflexivity|].
  rewrite jstr_eqb_neq by tauto. rewrite IH by tauto. reflexivity.
Qed.

Lemma assoc_In (props : list (jstring * A)) (key : jstring) (v : A) :
  NoDup (map fst props) -> In (key, v) props -> assoc key props = Some v.
Proof.
  induction props as [|[k w] props IH]; simpl; intros Hnd Hin; [destruct Hin|].
  inversion Hnd as [|? ? Hk Hnd']; subst.
  destruct Hin as [E|Hin].
  - inversion E; subst. now rewrite jstr_eqb_refl.
  - rewrite jstr_eqb_neq; [now apply IH|].
    intros ->. apply Hk. now apply (in_map fst _ (key, v)).
Qed.

Lemma assoc_map {B : Type} (f : A -> B) (props : list (jstring * A))
  (key : jstring) :
  assoc key (map (fun kv => (fst kv, f (snd kv))) props)
  = option_map f (assoc key props).
Proof.
  induction props as [|[k w] props IH]; simpl; [reflexivity|].
  destruct (jstr_eqb k key); [reflexivity | exact IH].
Qed.
End ObjectProperties.

(** The [reduce] over distinct keys, none of them ["__proto__"], lists the
    keys in their order with the values of [stats]. *)
Lemma sortedStats_append (stats : JsValue) (keys : list jstring)
  (acc : list (jstring * JsValue)) :
  NoDup keys ->
  (forall k, In k keys -> ~ In k (map fst acc)) ->
  ~ In (js "__proto__") keys ->
  fold_left (fun acc key => set_prop acc key (get_prop stats key)) keys acc
  = acc ++ map (fun k => (k, get_prop stats k)) keys.
Proof.
  revert acc. induction keys as [|k keys IH]; simpl; intros acc Hnd Hfresh Hp.
  - now rewrite app_nil_r.
  - inversion Hnd as [|? ? Hk Hnd']; subst.
    unfold set_prop at 2. rewrite jstr_eqb_neq by (intros E; apply Hp; now left).
    rewrite update_prop_fresh by (apply Hfresh; now left).
    rewrite IH; [now rewrite <- app_assoc | exact Hnd' | | tauto].
    intros k' Hk'. rewrite map_app, in_app_iff. simpl.
    intros [Hin|[E|[]]].
    + apply (Hfresh k'); [now right | exact Hin].
    + subst. contradiction.
Qed.

Lemma sortedStats_plain (stats : JsValue) (keys : list jstring) :
  NoDup keys -> ~ In (js "__proto__") keys ->
  sortedStats stats keys = map (fun k => (k, get_prop stats k)) keys.
Proof.
  intros Hnd Hp. unfold sortedStats.
  rewrite sortedStats_append; [reflexivity | exact Hnd | | exact Hp].
  intros k _ [].
Qed.

Lemma get_prop_stat (m : StatMap) (k : jstring) (v : Z) :
  NoDup (map fst m) -> In (k, v) m -> get_prop (stat_object m) k = VNum v.
Proof.
  intros Hnd Hin. unfold stat_object, get_prop.
  rewrite (assoc_map VNum), (assoc_In m k v Hnd Hin). reflexivity.
Qed.

Lemma Object_keys_stat (m : StatMap) :
  (forall k, In k (map fst m) -> array_index k = None) ->
  Object_keys (stat_object m) = Ok (map fst m).
Proof.
  intros Hn. unfold stat_object, Object_keys.
  rewrite own_order_named.
  - rewrite map_map. reflexivity.
  - intros kv Hkv. apply in_map_iff in Hkv. destruct Hkv as (x & <- & Hx).
    simpl. apply Hn. now apply in_map.
Qed.

Lemma flat_map_member (pairs : StatMap) :
  flat_map member
    (map (fun kv => (fst kv, Some (number_to_string (snd kv)))) pairs)
  = map canonical_member pairs.
Proof.
  induction pairs as [|kv pairs IH]; simpl; [reflexivity|].
  now rewrite IH.
Qed.

(** [JSON.stringify] of an object of integers without index keys is the
    canonical form of its pairs. *)
Lemma stringify_stat (pairs : StatMap) :
  (forall k, In k (map fst pairs) -> array_index k = None) ->
  stringify_object (map (fun kv => (fst kv, VNum (snd kv))) pairs)
  = canonical_form pairs.
Proof.
  intros Hn. unfold stringify_object, canonical_form. simpl.
  rewrite map_map. simpl.
  rewrite own_order_named.
  - now rewrite flat_map_member.
  - intros kv Hkv. apply in_map_iff in Hkv. destruct Hkv as (x & <- & Hx).
    simpl. apply Hn. now apply in_map.
Qed.

(** A sorted list is determined by its elements when no two of them are
    tied. *)
Lemma sorted_unique {A : Type} (cmp : A -> A -> Z) (l1 l2 : list A) :
  (forall a b, In a l1 -> In b l1 -> cmp a b <= 0 -> cmp b a <= 0 -> a = b) ->
  Permutation l1 l2 -> sorted cmp l1 -> sorted cmp l2 -> l1 = l2.
Proof.
  revert l2. induction l1 as [|x l1 IH]; intros l2 Hanti Hperm Hs1 Hs2.
  - apply Permutation_nil in Hperm. now subst.
  - destruct l2 as [|y l2].
    { apply Permutation_sym, Permutation_nil in Hperm. discriminate Hperm. }
    inversion Hs1 as [|? ? Hx Hs1']; subst.
    inversion Hs2 as [|? ? Hy Hs2']; subst.
    assert (Exy : x = y).
    { assert (Hxin : In x (y :: l2))
        by (apply (Permutation_in _ Hperm); now left).
      assert (Hyin : In y (x :: l1))
        by (apply (Permutation_in _ (Permutation_sym Hperm)); now left).
      destruct Hxin as [E|Hxin]; [now symmetry|].
      destruct Hyin as [E|Hyin]; [exact E|].
      apply Hanti; [now left | now right | |].
      - exact (proj1 (Forall_forall _ _) Hx y Hyin).
      - exact (proj1 (Forall_forall _ _) Hy x Hxin). }
    subst y. f_equal. apply IH; try assumption.
    + intros a b Ha Hb. apply Hanti; now right.
    + now apply Permutation_cons_inv in Hperm.
Qed.

Lemma insert_index_perm {A : Type} (p : Z * (jstring * A))
  (l : list (Z * (jstring * A))) :
  Permutation (p :: l) (insert_index p l).
Proof.
  induction l as [|q l IH]; simpl; [reflexivity|].
  destruct (fst q <? fst p); [|reflexivity].
  rewrite perm_swap. now apply perm_skip.
Qed.

(** The enumeration of the own properties is a rearrangement of them. *)
Lemma own_order_perm {A : Type} (props : list (jstring * A)) :
  Permutation (own_order props) props.
Proof.
  unfold own_order, index_props, named_props.
  induction props as [|kv props IH]; simpl; [reflexivity|].
  destruct (array_index (fst kv)) as [i|]; simpl.
  - rewrite <- (insert_index_perm (i, kv)). simpl. now apply perm_skip.
  - rewrite <- Permutation_middle. now apply perm_skip.
Qed.

Lemma assoc_Some_In {A : Type} (props : list (jstring * A)) (key : jstring)
  (v : A) :
  assoc key props = Some v -> In (key, v) props.
Proof.
  induction props as [|[k w] props IH]; simpl; [discriminate|].
  destruct (jstr_eqb k key) eqn:E.
  - apply jstr_eqb_eq in E. intros Ev. inversion Ev; subst. now left.
  - intros Ev. right. now apply IH.
Qed.

(** Looking a key up does not depend on the order of creation. *)
Lemma assoc_perm {A : Type} (m1 m2 : list (jstring * A)) (key : jstring) :
  NoDup (map fst m1) -> Permutation m1 m2 -> assoc key m1 = assoc key m2.
Proof.
  intros Hnd Hperm.
  assert (Hnd2 : NoDup (map fst m2))
    by (apply (Permutation_NoDup (Permutation_map fst Hperm) Hnd)).
  destruct (assoc key m1) as [v|] eqn:E1.
  - symmetry. apply assoc_In; [exact Hnd2|].
    apply (Permutation_in _ Hperm). now apply assoc_Some_In.
  - destruct (assoc key m2) as [v|] eqn:E2; [|reflexivity].
    apply assoc_Some_In in E2.
    apply (Permutation_in _ (Permutation_sym Hperm)) in E2.
    rewrite (assoc_In m1 key v Hnd E2) in E1. discriminate E1.
Qed.

(** The object rebuilt from given keys does not depend on the order of
    creation of the source. *)
Lemma sortedStats_perm (m1 m2 : list (jstring * JsValue)) (keys : list jstring) :
  NoDup (map fst m1) -> Permutation m1 m2 ->
  sortedStats (VObj m1) keys = sortedStats (VObj m2) keys.
Proof.
  intros Hnd Hperm. unfold sortedStats.
  generalize (@nil (jstring * JsValue)).
  induction keys as [|k ks IH]; intros acc; simpl; [reflexivity|].
  rewrite (assoc_perm m1 m2 k Hnd Hperm). apply IH.
Qed.

Section SealProperties.
Context `{Platform}.

Lemma generateIntegritySeal_object (props : list (jstring * JsValue))
  (secret : jstring) :
  generateIntegritySeal (VObj props) secret
  = Ok (hmac_sha256_hex secret
          (stringify_object
             (sortedStats (VObj props)
                (sort localeCompare (map fst (own_order props)))))).
Proof. reflexivity. Qed.

(** The seal does not depend on the insertion order of the keys when
    [localeCompare] is a consistent comparator that ties no two keys of the
    mapping. *)
Lemma seal_order_insensitive (m1 m2 : list (jstring * JsValue))
  (secret : jstring) :
  NoDup (map fst m1) ->
  Permutation m1 m2 ->
  consistent localeCompare ->
  (forall a b, In a (map fst m1) -> In b (map fst m1) ->
     localeCompare a b <= 0 -> localeCompare b a <= 0 -> a = b) ->
  generateIntegritySeal (VObj m1) secret = generateIntegritySeal (VObj m2) secret.
Proof.
  intros Hnd Hperm Hcons Hanti. rewrite !generateIntegritySeal_object.
  assert (Hkeys : Permutation (map fst (own_order m1)) (map fst (own_order m2))).
  { apply Permutation_map. rewrite !own_order_perm. exact Hperm. }
  assert (Hsorted : sort localeCompare (map fst (own_order m1))
                    = sort localeCompare (map fst (own_order m2))).
  { apply (sorted_unique localeCompare).
    - intros a b Ha Hb. apply Hanti.
      + apply sort_In in Ha. revert Ha. apply Permutation_in.
        apply Permutation_map, own_order_perm.
      + apply sort_In in Hb. revert Hb. apply Permutation_in.
        apply Permutation_map, own_order_perm.
    - now rewrite <- !sort_perm.
    - now apply sort_sorted.
    - now apply sort_sorted. }
  rewrite Hsorted, (sortedStats_perm m1 m2 _ Hnd Hperm). reflexivity.
Qed.

(** Sealing the same mapping with the same secret twice gives the same
    digest: the sealer is a function of its two arguments. *)
Lemma seal_deterministic (stats stats' : JsValue) (secret secret' : jstring) :
  stats = stats' -> secret = secret' ->
  generateIntegritySeal stats secret = generateIntegritySeal stats' secret'.
Proof. intros -> ->. reflexivity. Qed.

(** C2, as amended: for a mapping with distinct keys, none of them an array
    index or ["__proto__"], on whose keys [localeCompare] orders as the
    comparison of code units does, the seal is the reference definition:
    keys sorted, ordered pairs serialised to the canonical string,
    HMAC-SHA-256 under the secret in lowercase hexadecimal. *)
Theorem seal_matches_reference (m : StatMap) (secret : jstring) :
  NoDup (map fst m) ->
  (forall k, In k (map fst m) -> array_index k = None /\ k <> js "__proto__") ->
  (forall a b, In a (map fst m) -> In b (map fst m) ->
     (0 <? localeCompare a b) = (0 <? lex_compare a b)) ->
  generateIntegritySeal (stat_object m) secret = Ok (seal_reference m secret).
Proof.
  intros Hnd Hk Hcmp. unfold generateIntegritySeal, seal_reference.
  change (match stat_object m with
          | VUndefined => VObj []
          | _ => stat_object m
          end) with (stat_object m).
  rewrite Object_keys_stat by (intros k Hin; now apply Hk). cbn [bind].
  rewrite (sort_ext localeCompare lex_compare (map fst m) Hcmp).
  rewrite <- (sort_map fst lex_compare m).
  set (sp := sort (fun a b => lex_compare (fst a) (fst b)) m).
  assert (Hperm : Permutation m sp) by apply sort_perm.
  assert (Hkeys : Permutation (map fst m) (map fst sp))
    by now apply Permutation_map.
  rewrite sortedStats_plain.
  - rewrite map_map.
    rewrite (map_ext_in _ (fun kv => (fst kv, VNum (snd kv)))).
    + rewrite stringify_stat; [reflexivity|].
      intros k Hin. apply Hk. now apply (Permutation_in _ (Permutation_sym Hkeys)).
    + intros [k v] Hin. simpl. f_equal. apply get_prop_stat; [exact Hnd|].
      now apply (Permutation_in _ (Permutation_sym Hperm)).
  - now apply (Permutation_NoDup Hkeys).
  - intros Hin. apply (Permutation_in _ (Permutation_sym Hkeys)) in Hin.
    now apply (Hk _ Hin).
Qed.

(** C1: the mappings [{"\u00e9": 1, "e\u0301": 2}] and
    [{"e\u0301": 2, "\u00e9": 1}] hold the same two pairs.  Their keys are
    canonically equivalent, so [localeCompare] returns 0 on them, the stable
    sort leaves each list of keys in insertion order, and the two digests
    differ. *)
Theorem seal_depends_on_insertion_order :
  localeCompare [233] [101; 769] = 0 ->
  localeCompare [101; 769] [233] = 0 ->
  generateIntegritySeal (stat_object [([233], 1); ([101; 769], 2)])
    DEFAULT_SECRET
  = Ok (js "ac603971c9b8662ed4d75c2f6b3e830c9d083689670ce56815be05c03374c37a")
  /\ generateIntegritySeal (stat_object [([101; 769], 2); ([233], 1)])
       DEFAULT_SECRET
     = Ok (js "e8aa04ee818d82d73752739a58c17af915c810b74343d9cf92c3cd7ad7f8c1a3").
Proof.
  intros E1 E2. unfold stat_object. rewrite !generateIntegritySeal_object.
  split.
  - set (keys := map fst (own_order _)). vm_compute in keys. subst keys.
    cbn [sort sort_insert]. rewrite E1. vm_compute. reflexivity.
  - set (keys := map fst (own_order _)). vm_compute in keys. subst keys.
    cbn [sort sort_insert]. rewrite E2. vm_compute. reflexivity.
Qed.
End SealProperties.

(** C2, counterexample: the mapping [{"10": 1, "9": 2}].  Whatever the
    collation, [JSON.stringify] lists the index key [9] before [10], and the
    digest is that of [{"9":2,"10":1}]; the reference definition sorts ["10"]
    before ["9"] and seals [{"10":1,"9":2}]. *)
Lemma seal_reference_counterexample :
  let m := [(js "10", 1); (js "9", 2)] in
  NoDup (map fst m)
  /\ seal_reference m DEFAULT_SECRET
     = js "5a9cd9128504691a95126c8ee6cd4b24ede9f7321875f699ae414ce06eedd058"
  /\ forall P : Platform,
       @generateIntegritySeal P (stat_object m) DEFAULT_SECRET
       = Ok (js "a85fb27c3fb82ebb8e3324fc737c0b981a0b8515f4d30de72cb12188c485ce8f")
       /\ @generateIntegritySeal P (stat_object m) DEFAULT_SECRET
          <> Ok (seal_reference m DEFAULT_SECRET).
Proof.
  intros m. subst m.
  assert (Hcode : forall P : Platform,
             @generateIntegritySeal P
               (stat_object [(js "10", 1); (js "9", 2)]) DEFAULT_SECRET
             = Ok (js "a85fb27c3fb82ebb8e3324fc737c0b981a0b8515f4d30de72cb12188c485ce8f")).
  { intros P. unfold stat_object. rewrite generateIntegritySeal_object.
    set (keys := map fst (own_order _)). vm_compute in keys. subst keys.
    cbn [sort sort_insert].
    destruct (0 <? localeCompare _ _); vm_compute; reflexivity. }
  assert (Href : seal_reference [(js "10", 1); (js "9", 2)] DEFAULT_SECRET
                 = js "5a9cd9128504691a95126c8ee6cd4b24ede9f7321875f699ae414ce06eedd058")
    by (vm_compute; reflexivity).
  split; [|split; [exact Href|]].
  - simpl. constructor; [intros [E|[]]; discriminate E|].
    constructor; [intros []|constructor].
  - intros P. split; [apply Hcode|].
    rewrite Hcode, Href. intros E. vm_compute in E. discriminate E.
Qed.

(* ================================================================== *)
(** * Further properties of the handlers *)

(** ** Lookups and lists *)

Section LookupProperties.
Context `{Platform} `{Environment}.

Lemma ci_equal_Forall2 (a b : jstring) :
  ci_equal a b = true <->
  Forall2 (fun x y => canonicalize x = canonicalize y) a b.
Proof.
  revert b. induction a as [|x a IH]; intros [|y b]; simpl.
  - split; [constructor | reflexivity].
  - split; [discriminate | intros E; inversion E].
  - split; [discriminate | intros E; inversion E].
  - rewrite andb_true_iff, Z.eqb_eq, IH. split.
    + intros [E1 E2]. now constructor.
    + intros E. inversion E; subst. now split.
Qed.

Lemma ci_equal_refl (a : jstring) : ci_equal a a = true.
Proof.
  induction a as [|x a IH]; simpl; [reflexivity|].
  now rewrite Z.eqb_refl, IH.
Qed.

Lemma ci_equal_sym (a b : jstring) : ci_equal a b = ci_equal b a.
Proof.
  revert b. induction a as [|x a IH]; intros [|y b]; simpl; try reflexivity.
  now rewrite Z.eqb_sym, IH.
Qed.

(** X1: the class of characters the handlers escape is the set of the
    characters that mean something in a pattern, so the pattern built from
    a name by escaping it and anchoring it never fails to compile and
    matches a text exactly when the text is the name up to the case
    folding of the [i] flag, code unit by code unit: no character of the
    name acts as an operator. *)
Theorem anchored_pattern_exact (name text : jstring) :
  (forall c, is_regex_special c = is_syntax_character c)
  /\ regex_test (anchored (escapeRegExp name)) text = Ok (ci_equal text name)
  /\ (ci_equal text name = true <->
      Forall2 (fun x y => canonicalize x = canonicalize y) text name).
Proof.
  split; [exact escape_class_is_syntax|].
  split; [apply regex_test_anchored | apply ci_equal_Forall2].
Qed.

Lemma generateIntegritySeal_null (secret : jstring) :
  exists message, generateIntegritySeal VNull secret = Throw message.
Proof. eexists. reflexivity. Qed.

Lemma withIntegrityHash_Ok_iff (p : Pokemon) :
  (exists s, withIntegrityHash p = Ok s) <-> base p <> VNull.
Proof.
  unfold withIntegrityHash. split.
  - intros [s E] Hn. rewrite Hn in E.
    destruct (generateIntegritySeal_null (INTEGRITY_SECRET ENV_INTEGRITY_SECRET))
      as [m Em].
    rewrite Em in E. discriminate E.
  - intros Hn.
    destruct (generateIntegritySeal_total (base p)
                (INTEGRITY_SECRET ENV_INTEGRITY_SECRET) Hn) as [d ->].
    simpl. eauto.
Qed.

Lemma withIntegrityHash_hash (p : Pokemon) (s : Sealed) :
  withIntegrityHash p = Ok s ->
  generateIntegritySeal (base (doc s)) (INTEGRITY_SECRET ENV_INTEGRITY_SECRET)
  = Ok (integrityHash s).
Proof.
  unfold withIntegrityHash.
  destruct (generateIntegritySeal _ _) as [d|] eqn:E; simpl; intros Es;
    inversion Es; subst. exact E.
Qed.

Lemma sealAll_Ok_nonnull (docs : list Pokemon) (l : list Sealed) :
  sealAll docs = Ok l -> Forall (fun p => base p <> VNull) docs.
Proof.
  unfold sealAll. revert l. induction docs as [|p docs IH]; simpl; intros l E.
  - constructor.
  - destruct (withIntegrityHash p) as [s|] eqn:Es; simpl in E; [|discriminate].
    destruct (mapM withIntegrityHash docs) as [l'|]; simpl in E; [|discriminate].
    constructor; [|now apply (IH l')].
    apply withIntegrityHash_Ok_iff. now exists s.
Qed.

(** X2: the lookup by exact name answers 400 when the name is empty after
    trimming.  Otherwise it answers 404 exactly when no record has the
    trimmed name as its english or french name up to case; a record it
    returns is a record of the collection with such a name; and the first
    such record, in natural order, is returned with status 200 unless its
    [base] is [null]. *)
Theorem getPokemonExactByName_spec (w : World) (nameParam : jstring) :
  let name := trim nameParam in
  let r := getPokemonExactByName w nameParam in
  let hit := fun p => ci_equal (name_english p) name
                      || ci_equal (name_french p) name in
  (name = [] ->
   r = {| status := 400; body := JsonError (js "name is required") |})
  /\ (name <> [] ->
      (status r = 404 <-> forall p, In p (pokemons w) -> hit p = false)
      /\ (forall s, body r = JsonPokemon s ->
            status r = 200 /\ In (doc s) (pokemons w) /\ hit (doc s) = true)
      /\ (forall p, find hit (pokemons w) = Some p -> base p <> VNull ->
            exists s, r = json (JsonPokemon s) /\ doc s = p)).
Proof.
  intros name r hit. subst r. unfold getPokemonExactByName. fold name.
  split.
  - intros ->. reflexivity.
  - intros Hne. destruct name as [|c t] eqn:En; [congruence|].
    rewrite duplicate_query. fold hit.
    destruct (find hit (pokemons w)) as [p|] eqn:Ef.
    + destruct (find_some _ _ Ef) as [Hin Hhit].
      destruct (withIntegrityHash p) as [s|m] eqn:Es; simpl.
      * pose proof (withIntegrityHash_doc _ _ Es) as Hd.
        split; [|split].
        -- split; [discriminate|]. intros Hall. exfalso.
           rewrite (Hall p Hin) in Hhit. discriminate Hhit.
        -- intros s' E. inversion E; subst s'. rewrite Hd. auto.
        -- intros p' E _. inversion E; subst p'. eauto.
      * split; [|split].
        -- split; [discriminate|]. intros Hall. exfalso.
           rewrite (Hall p Hin) in Hhit. discriminate Hhit.
        -- intros s' E. discriminate E.
        -- intros p' E Hb. inversion E; subst p'. exfalso.
           destruct (proj2 (withIntegrityHash_Ok_iff p) Hb) as [s Es'].
           congruence.
    + simpl. split; [|split].
      * split; [intros _|reflexivity]. intros p Hp.
        exact (find_none _ _ Ef p Hp).
      * intros s E. discriminate E.
      * intros p E. discriminate E.
Qed.

(** X3: a name without surrounding white space that the lookup by english
    name finds is never reported missing by the lookup by exact name. *)
Theorem byName_found_then_exact_found (w : World) (n : jstring) :
  n <> [] -> trim n = n ->
  status (getPokemonByName w n) = 200 ->
  status (getPokemonExactByName w n) <> 404
  /\ status (getPokemonExactByName w n) <> 400.
Proof.
  intros Hne Htrim Hfound.
  unfold getPokemonByName in Hfound.
  destruct (find _ (pokemons w)) as [p|] eqn:Ef; [|discriminate Hfound].
  destruct (find_some _ _ Ef) as [Hin Heq]. apply jstr_eqb_eq in Heq.
  unfold getPokemonExactByName. rewrite Htrim.
  destruct n as [|c t]; [congruence|].
  rewrite duplicate_query.
  match goal with
  | |- context [find ?f (pokemons w)] =>
      destruct (find f (pokemons w)) as [q|] eqn:Eq
  end.
  - destruct (withIntegrityHash q); simpl; split; discriminate.
  - exfalso. pose proof (find_none _ _ Eq p Hin) as Hnone. simpl in Hnone.
    rewrite Heq, ci_equal_refl in Hnone. discriminate Hnone.
Qed.

Lemma getPokemonsByPage_unfold (w : World) (page : jstring) :
  let k := number_or_zero (parseInt10 page) in
  getPokemonsByPage w page
  = if 20 * k <? 0
    then error_response 500 (js "Skip value must be non-negative")
    else match sealAll (firstn 20 (skipn (Z.to_nat (20 * k)) (pokemons w))) with
         | Ok l => json (JsonPokemons l)
         | Throw message => error_response 500 message
         end.
Proof.
  intros k. unfold getPokemonsByPage, find_page. fold k.
  destruct (20 * k <? 0); reflexivity.
Qed.

(** X4: a page of the paged list holds at most 20 records; on a 200 they
    are, in order, the 20 records after the first [20 * page] of the
    collection; a page number that [parseInt] cannot read is page 0. *)
Theorem getPokemonsByPage_spec (w : World) (page : jstring) :
  let k := number_or_zero (parseInt10 page) in
  let r := getPokemonsByPage w page in
  (List.length (listed r) <= 20)%nat
  /\ (0 <= k -> status r = 200 ->
      map doc (listed r) = firstn 20 (skipn (Z.to_nat (20 * k)) (pokemons w)))
  /\ (0 <= k -> Forall (fun p => base p <> VNull) (pokemons w) ->
      status r = 200)
  /\ (parseInt10 page = NaN -> r = getPokemonsByPage w (js "0")).
Proof.
  intros k r. subst r. rewrite getPokemonsByPage_unfold. fold k.
  split; [|split; [|split]].
  - destruct (20 * k <? 0); [cbn; lia|].
    destruct (sealAll _) as [l|m] eqn:E; [|cbn; lia].
    change (List.length l <= 20)%nat.
    rewrite <- (length_map doc l), (sealAll_docs _ _ E).
    apply firstn_le_length.
  - intros Hk. destruct (20 * k <? 0) eqn:Hneg; [apply Z.ltb_lt in Hneg; lia|].
    destruct (sealAll _) as [l|m] eqn:E; [|cbn; discriminate].
    intros _. exact (sealAll_docs _ _ E).
  - intros Hk Hall.
    destruct (20 * k <? 0) eqn:Hneg; [apply Z.ltb_lt in Hneg; lia|].
    destruct (sealAll_total (firstn 20 (skipn (Z.to_nat (20 * k)) (pokemons w))))
      as [l El].
    + apply Forall_forall. intros p Hp. apply firstn_In in Hp.
      assert (Hin : In p (pokemons w)).
      { rewrite <- (firstn_skipn (Z.to_nat (20 * k)) (pokemons w)).
        apply in_or_app. now right. }
      exact (proj1 (Forall_forall _ _) Hall p Hin).
    + rewrite El. reflexivity.
  - intros Hnan. rewrite (getPokemonsByPage_unfold w (js "0")).
    subst k. rewrite Hnan. reflexivity.
Qed.

(** X5: the list of all records answers 200 exactly when no record has a
    [null] base; it then lists every record of the collection, in order,
    each with the seal of its own [base]; otherwise the whole list fails
    with 500. *)
Theorem getPokemons_spec (w : World) :
  let r := getPokemons w in
  (status r = 200 <-> Forall (fun p => base p <> VNull) (pokemons w))
  /\ (status r = 200 ->
      map doc (listed r) = pokemons w
      /\ Forall (fun s =>
                   generateIntegritySeal (base (doc s))
                     (INTEGRITY_SECRET ENV_INTEGRITY_SECRET)
                   = Ok (integrityHash s)) (listed r))
  /\ (status r <> 200 ->
      r = {| status := 500; body := JsonError (js "Internal Server Error") |}).
Proof.
  intros r. subst r. unfold getPokemons.
  destruct (sealAll (pokemons w)) as [l|m] eqn:E; simpl.
  - split; [|split].
    + split; [intros _; exact (sealAll_Ok_nonnull _ _ E) | reflexivity].
    + intros _. split; [exact (sealAll_docs _ _ E)|].
      apply Forall_forall. intros s Hs.
      destruct (sealAll_In _ _ _ E Hs) as [_ Hw].
      exact (withIntegrityHash_hash _ _ Hw).
    + congruence.
  - split; [|split].
    + split; [discriminate|]. intros Hall.
      destruct (sealAll_total _ Hall) as [l El]. congruence.
    + discriminate.
    + reflexivity.
Qed.
End LookupProperties.

(** ** Records without [base] in the read endpoints *)

Section RecordsWithoutBase.
Context `{Platform} `{Environment}.

Lemma sealAll_keeps (docs : list Pokemon) (l : list Sealed) (p : Pokemon)
      (s : Sealed) :
  sealAll docs = Ok l -> In p docs -> withIntegrityHash p = Ok s -> In s l.
Proof.
  unfold sealAll. revert l.
  induction docs as [|a docs IH]; simpl; intros l E Hin Hs; [destruct Hin|].
  destruct (withIntegrityHash a) as [sa|] eqn:Ea; simpl in E; [|discriminate].
  destruct (mapM withIntegrityHash docs) as [l'|]; simpl in E; [|discriminate].
  inversion E; subst. destruct Hin as [->|Hin].
  - left. congruence.
  - right. now apply (IH l' eq_refl).
Qed.

(** A list that holds a record without [base], and no record whose
    [base] is [null], is sealed, and the record is in it with the seal of
    the empty mapping. *)
Lemma sealAll_lists_missing_base (docs : list Pokemon) (p : Pokemon) :
  base p = VUndefined -> In p docs ->
  Forall (fun q => base q <> VNull) docs ->
  exists l, sealAll docs = Ok l /\ In (sealed_empty p) l.
Proof.
  intros Hb Hin Hall. destruct (sealAll_total docs Hall) as [l E].
  exists l. split; [exact E|].
  apply (sealAll_keeps docs l p _ E Hin).
  now apply withIntegrityHash_missing_base.
Qed.

(** C9: a stored record without [base] is sent with an [integrityHash],
    the seal of the empty mapping (HMAC-SHA-256 of the text [{}]), by
    [withIntegrityHash] and so by the read endpoints, and it makes none
    of them fail.  Get by id, get by name and get by exact name answer
    200 with it.  List-all, the paged list and the search answer 200 and
    list the record with that hash whenever it is among the records they
    select and none of these has a [null] base; in whatever they list,
    such a record carries that hash; a collection of such records alone
    is listed in full. *)
Theorem missing_base_sealed_as_empty (p : Pokemon) :
  base p = VUndefined ->
  withIntegrityHash p
  = Ok {| doc := p;
          integrityHash :=
            hmac_sha256_hex (INTEGRITY_SECRET ENV_INTEGRITY_SECRET) (js "{}") |}
  /\ (forall w idParam,
        findOne_by_id (pokemons w) (parseInt10 idParam) = Ok (Some p) ->
        getPokemonById w idParam = json (JsonPokemon (sealed_empty p)))
  /\ (forall w pokeName,
        find (fun q => jstr_eqb (name_english q) pokeName) (pokemons w) = Some p ->
        getPokemonByName w pokeName = json (JsonPokemon (sealed_empty p)))
  /\ (forall w nameParam,
        trim nameParam <> [] ->
        findOne (matches_either (anchored (escapeRegExp (trim nameParam)))
                   (anchored (escapeRegExp (trim nameParam)))) (pokemons w)
        = Ok (Some p) ->
        getPokemonExactByName w nameParam = json (JsonPokemon (sealed_empty p)))
  /\ (forall w,
        In p (pokemons w) ->
        Forall (fun q => base q <> VNull) (pokemons w) ->
        status (getPokemons w) = 200
        /\ In (sealed_empty p) (listed (getPokemons w)))
  /\ (forall w page,
        let k := number_or_zero (parseInt10 page) in
        let selected := firstn 20 (skipn (Z.to_nat (20 * k)) (pokemons w)) in
        0 <= k -> In p selected ->
        Forall (fun q => base q <> VNull) selected ->
        status (getPokemonsByPage w page) = 200
        /\ In (sealed_empty p) (listed (getPokemonsByPage w page)))
  /\ (forall w text,
        let selected := search_hits w (normalizeForSearch (trim text)) in
        trim text <> [] -> In p selected ->
        Forall (fun q => base q <> VNull) selected ->
        status (getPokemonsSearch w (VStr text)) = 200
        /\ In (sealed_empty p) (listed (getPokemonsSearch w (VStr text))))
  /\ (forall w page query s,
        In s (listed (getPokemons w) ++ listed (getPokemonsByPage w page)
              ++ listed (getPokemonsSearch w query)) ->
        doc s = p -> integrityHash s = empty_seal)
  /\ (forall w,
        Forall (fun q => base q = VUndefined) (pokemons w) ->
        getPokemons w = json (JsonPokemons (map sealed_empty (pokemons w)))).
Proof.
  intros Hb. pose proof (withIntegrityHash_missing_base p Hb) as Hw.
  split; [exact Hw|].
  split; [|split; [|split; [|split; [|split; [|split; [|split]]]]]].
  - intros w idParam Hf. unfold getPokemonById. rewrite Hf, Hw. reflexivity.
  - intros w pokeName Hf. unfold getPokemonByName. rewrite Hf, Hw. reflexivity.
  - intros w nameParam Hne Hf. unfold getPokemonExactByName.
    destruct (trim nameParam) as [|c t]; [congruence|].
    rewrite Hf, Hw. reflexivity.
  - intros w Hin Hall. unfold getPokemons.
    destruct (sealAll_lists_missing_base _ p Hb Hin Hall) as (l & -> & Hl).
    split; [reflexivity | exact Hl].
  - intros w page k selected Hk Hin Hall.
    rewrite (getPokemonsByPage_unfold w page). fold k.
    assert (E : (20 * k <? 0) = false) by (apply Z.ltb_ge; lia).
    rewrite E. fold selected.
    destruct (sealAll_lists_missing_base _ p Hb Hin Hall) as (l & -> & Hl).
    split; [reflexivity | exact Hl].
  - intros w text selected Hne Hin Hall.
    rewrite (getPokemonsSearch_nonempty w text Hne). fold selected.
    destruct (sealAll_lists_missing_base _ p Hb Hin Hall) as (l & -> & Hl).
    split; [reflexivity | exact Hl].
  - intros w page query s Hin Hd.
    assert (Hlist : forall docs,
               In s (listed match sealAll docs with
                            | Ok l => json (JsonPokemons l)
                            | Throw _ => internal_error
                            end) -> integrityHash s = empty_seal).
    { intros docs. destruct (sealAll docs) as [l|] eqn:E; simpl; [|tauto].
      intros Hs. apply (sealAll_hash_of_missing_base docs l s E Hs).
      rewrite Hd. exact Hb. }
    rewrite !in_app_iff in Hin. destruct Hin as [Hin|[Hin|Hin]].
    + apply (Hlist _ Hin).
    + unfold getPokemonsByPage, find_page in Hin.
      destruct (20 * number_or_zero (parseInt10 page) <? 0); simpl in Hin;
        [tauto|].
      destruct (sealAll _) as [l|] eqn:E; simpl in Hin; [|tauto].
      apply (sealAll_hash_of_missing_base _ l s E Hin). rewrite Hd. exact Hb.
    + unfold getPokemonsSearch in Hin.
      destruct (if truthy query then query else VStr []);
        simpl in Hin; try tauto.
      destruct (trim _); simpl in Hin; [tauto|]. apply (Hlist _ Hin).
  - intros w Hall. unfold getPokemons.
    rewrite (sealAll_missing_base _ Hall). reflexivity.
Qed.
End RecordsWithoutBase.

(** ** Purge and delete *)


Lemma findOneAndDelete_Some (n : jstring) (store : list Pokemon)
  (p : Pokemon) (rest : list Pokemon) :
  findOneAndDelete n store = Some (p, rest) ->
  exists l1 l2,
    store = l1 ++ p :: l2 /\ rest = l1 ++ l2 /\ name_english p = n
    /\ forall q, In q l1 -> name_english q <> n.
Proof.
  revert rest. induction store as [|a store IH]; simpl; intros rest E;
    [discriminate|].
  destruct (jstr_eqb (name_english a) n) eqn:Ea.
  - inversion E; subst. apply jstr_eqb_eq in Ea.
    exists [], rest. repeat split; [exact Ea | intros q []].
  - destruct (findOneAndDelete n store) as [[q rest']|]; [|discriminate].
    inversion E; subst.
    destruct (IH rest' eq_refl) as (l1 & l2 & -> & -> & Hn & Hl1).
    exists (a :: l1), l2. repeat split; [exact Hn|].
    intros q [<-|Hq]; [|now apply Hl1].
    intros Heq. apply jstr_eqb_eq in Heq. congruence.
Qed.

Lemma find_english_app (n : jstring) (l1 l2 : list Pokemon) :
  (forall q, In q l1 -> name_english q <> n) ->
  find (fun p => jstr_eqb (name_english p) n) (l1 ++ l2)
  = find (fun p => jstr_eqb (name_english p) n) l2.
Proof.
  induction l1 as [|a l1 IH]; simpl; intros Hn; [reflexivity|].
  rewrite jstr_eqb_neq by (apply Hn; now left).
  apply IH. intros q Hq. apply Hn. now right.
Qed.

Section MutationProperties.
Context `{Platform} `{Environment}.

(** X6: the purge answers 200 with the number of records and empties the
    record collection, leaving the audit entries and the image files as
    they were; afterwards the list of all records is empty, every lookup
    by an id that [parseInt] reads answers 404 (one it cannot read is
    answered 500, as on any collection), and every search with a string
    answers 200 with the empty list. *)
Theorem purge_then_empty (w : World) :
  let r := fst (pokemonsPurge w) in
  let w' := snd (pokemonsPurge w) in
  r = {| reply_status := 200;
         reply_body := Purged (Z.of_nat (List.length (pokemons w))) |}
  /\ pokemons w' = [] /\ auditLogs w' = auditLogs w /\ assets w' = assets w
  /\ getPokemons w' = {| status := 200; body := JsonPokemons [] |}
  /\ (forall idParam,
        getPokemonById w' idParam
        = match parseInt10 idParam with
          | Num _ =>
              {| status := 404; body := JsonError (js "Pokemon not found") |}
          | NaN =>
              {| status := 500;
                 body := JsonError (js "Internal Server Error") |}
          end)
  /\ (forall text,
        getPokemonsSearch w' (VStr text)
        = {| status := 200; body := JsonPokemons [] |})
  /\ (forall query, listed (getPokemonsSearch w' query) = []).
Proof.
  intros r w'. subst r w'. unfold pokemonsPurge. simpl.
  split.
  - destruct (Z.eqb_spec (Z.of_nat (List.length (pokemons w))) 0) as [E|E];
      [rewrite E|]; reflexivity.
  - repeat split.
    + intros idParam. unfold getPokemonById. simpl.
      destruct (parseInt10 idParam); reflexivity.
    + intros text. unfold getPokemonsSearch.
      destruct (truthy (VStr text)); [|reflexivity].
      destruct (trim text); reflexivity.
    + intros query. unfold getPokemonsSearch.
      destruct (if truthy query then query else VStr []); try reflexivity.
      destruct (trim _); reflexivity.
Qed.


(** X8: when the english names of the collection are pairwise different,
    a record that has been deleted is no longer found by its name; and
    whatever the names, the lookup of any other name answers as before
    the delete. *)
Theorem delete_then_lookup (w : World) (n : jstring) :
  reply_status (fst (pokemonDelete w n)) <> 404 ->
  (NoDup (map name_english (pokemons w)) ->
   getPokemonByName (snd (pokemonDelete w n)) n
   = {| status := 404; body := JsonError (js "Pokemon not found") |})
  /\ (forall m, m <> n ->
        getPokemonByName (snd (pokemonDelete w n)) m = getPokemonByName w m).
Proof.
  unfold pokemonDelete.
  destruct (findOneAndDelete n (pokemons w)) as [[p rest]|] eqn:E;
    [|simpl; congruence].
  destruct (findOneAndDelete_Some _ _ _ _ E) as (l1 & l2 & Hs & Hr & Hn & Hl1).
  intros _.
  assert (Hsnd : pokemons (snd (match withIntegrityHash p with
                                | Ok s =>
                                    ({| reply_status := 200;
                                        reply_body := Deleted s |},
                                     {| pokemons := rest;
                                        auditLogs := auditLogs w;
                                        assets := assets w |})
                                | Throw _ =>
                                    ({| reply_status := 500;
                                        reply_body :=
                                          Failure (js "Internal Server Error") |},
                                     {| pokemons := rest;
                                        auditLogs := auditLogs w;
                                        assets := assets w |})
                                end)) = rest)
    by (destruct (withIntegrityHash p); reflexivity).
  unfold getPokemonByName. rewrite Hsnd, Hr, Hs. split.
  - intros Hnd. rewrite map_app in Hnd. simpl in Hnd.
    apply NoDup_remove_2 in Hnd.
    rewrite find_english_app by exact Hl1.
    destruct (find _ l2) as [q|] eqn:Eq; [|reflexivity].
    exfalso. destruct (find_some _ _ Eq) as [Hq Hqn]. apply jstr_eqb_eq in Hqn.
    apply Hnd. apply in_or_app. right. rewrite Hn, <- Hqn.
    now apply in_map.
  - intros m Hm.
    assert (Ef : forall l, find (fun q => jstr_eqb (name_english q) m)
                             (l ++ p :: l2)
                           = find (fun q => jstr_eqb (name_english q) m)
                               (l ++ l2)).
    { induction l as [|a l IH]; simpl.
      - now rewrite jstr_eqb_neq by congruence.
      - destruct (jstr_eqb (name_english a) m); [reflexivity | exact IH]. }
    rewrite Ef. reflexivity.
Qed.
End MutationProperties.

(** ** Create: what a success persists *)

Lemma assoc_update_prop {A : Type} (props : list (jstring * A))
  (key : jstring) (v : A) :
  assoc key (update_prop props key v) = Some v.
Proof.
  induction props as [|[k x] props IH]; simpl.
  - now rewrite jstr_eqb_refl.
  - destruct (jstr_eqb k key) eqn:E; simpl; rewrite E; [reflexivity | exact IH].
Qed.

Section CreateOutcome.
Context `{Platform} `{Environment}.

Lemma prepare_Some_inv w req name type base imageUrl p file :
  prepare w req name type base imageUrl = Ok (Some (p, file)) ->
  exists en fr data,
    get_prop name (js "english") = VStr en
    /\ get_prop name (js "french") = VStr fr
    /\ find (fun q => ci_equal (name_english q) en
                      || ci_equal (name_french q) fr) (pokemons w) = None
    /\ downloadPokemonImage (string_of imageUrl) = Ok data
    /\ file = (number_to_string (nextId (pokemons w))
               ++ getImageExtension (snd data) (string_of imageUrl), fst data)
    /\ p = {| id := nextId (pokemons w);
              name_english := en;
              name_french := fr;
              type := array_items type;
              base := base;
              image := buildPublicAssetUrl (req_protocol req) (req_host req)
                         (fst file) |}.
Proof.
  unfold prepare.
  destruct (get_prop name (js "english")) as [| | | |en| |]; simpl;
    try discriminate.
  destruct (get_prop name (js "french")) as [| | | |fr| |]; simpl;
    try discriminate.
  rewrite duplicate_query. simpl.
  destruct (find _ (pokemons w)) as [d|] eqn:Ef; [discriminate|].
  destruct (downloadPokemonImage _) as [data|] eqn:Ed; simpl; [|discriminate].
  intros E. inversion E; subst. exists en, fr, data.
  repeat split; assumption.
Qed.

Lemma validate_base_sealable (req : CreateRequest) (secret : jstring) :
  validate (body_name req) (body_type req) (body_base req)
    (body_imageUrl req) = None ->
  exists seal, generateIntegritySeal (body_base req) secret = Ok seal.
Proof.
  intros Hv. apply generateIntegritySeal_total.
  destruct (validate_cases req) as [(m & _ & E)|(_ & _ & _ & Hb & _)];
    [congruence|].
  destruct Hb as [[l ->]|[ps ->]]; discriminate.
Qed.

(** Either the create leaves the world as it was and does not answer 201,
    or it answers 201 and appends the prepared record and writes its
    file. *)
Lemma pokemonCreate_outcome (w : World) (req : CreateRequest) :
  (snd (pokemonCreate w req) = w /\ status (fst (pokemonCreate w req)) <> 201)
  \/ (exists p file s,
         validate (body_name req) (body_type req) (body_base req)
           (body_imageUrl req) = None
         /\ prepare w req (body_name req) (body_type req) (body_base req)
              (body_imageUrl req) = Ok (Some (p, file))
         /\ withIntegrityHash p = Ok s
         /\ pokemonCreate w req
            = ({| status := 201; body := JsonPokemon s |},
               {| pokemons := pokemons w ++ [p];
                  auditLogs := auditLogs w;
                  assets := update_prop (assets w) (fst file) (snd file) |})).
Proof.
  destruct (body_nullish_dec req) as [Hnull|[Hu Hn]].
  { left. destruct (pokemonCreate_nullish w req Hnull) as [E1 E2].
    rewrite E1, E2. split; [reflexivity | discriminate]. }
  rewrite (pokemonCreate_unfold w req Hu Hn).
  destruct (validate _ _ _ _) as [m|] eqn:Hv.
  { left. split; [reflexivity | discriminate]. }
  unfold afterValidation.
  destruct (prepare _ _ _ _ _ _) as [[[p f]|]|m] eqn:Ep.
  - right. exists p, f.
    destruct (prepare_Some_inv _ _ _ _ _ _ _ _ Ep)
      as (en & fr & data & _ & _ & _ & _ & _ & Hp).
    destruct (validate_base_sealable req
                (INTEGRITY_SECRET ENV_INTEGRITY_SECRET) Hv) as [seal Hseal].
    assert (Hw : withIntegrityHash p
                 = Ok {| doc := p; integrityHash := seal |}).
    { unfold withIntegrityHash. rewrite Hp at 1. simpl. rewrite Hseal.
      reflexivity. }
    exists {| doc := p; integrityHash := seal |}. rewrite Hw.
    repeat split.
  - left. split; [reflexivity | discriminate].
  - left. split; [reflexivity|]. unfold surfaced. simpl. discriminate.
Qed.

(** X9: a request that passes the validation with string names, finds no
    record with either name up to case, and whose image URL serves an image
    is answered 201.  The new record has the next identifier, the names,
    types and stats of the body, and as its image the public URL of a file
    named by that identifier followed by a non-empty extension; the fetched
    bytes are written under that file name; the record is appended to the
    collection and the response is the record with the seal of its stats. *)
Theorem create_succeeds (w : World) (req : CreateRequest) (en fr : jstring)
  (response : FetchResponse) (contentType : jstring) :
  validate (body_name req) (body_type req) (body_base req)
    (body_imageUrl req) = None ->
  body_english req = VStr en -> body_french req = VStr fr ->
  (forall q, In q (pokemons w) ->
     ci_equal (name_english q) en = false /\ ci_equal (name_french q) fr = false) ->
  fetch (resolveDownloadUrl (string_of (body_imageUrl req))) = Ok response ->
  ok response = true ->
  content_type response = Some contentType ->
  startsWith (js "image/") (toLowerCase contentType) = true ->
  let ext := getImageExtension contentType (string_of (body_imageUrl req)) in
  let fileName := number_to_string (nextId (pokemons w)) ++ ext in
  let p := {| id := nextId (pokemons w);
              name_english := en;
              name_french := fr;
              type := array_items (body_type req);
              base := body_base req;
              image := buildPublicAssetUrl (req_protocol req) (req_host req)
                         fileName |} in
  ext <> []
  /\ exists seal,
       generateIntegritySeal (body_base req)
         (INTEGRITY_SECRET ENV_INTEGRITY_SECRET) = Ok seal
       /\ pokemonCreate w req
          = ({| status := 201;
                body := JsonPokemon {| doc := p; integrityHash := seal |} |},
             {| pokemons := pokemons w ++ [p];
                auditLogs := auditLogs w;
                assets := update_prop (assets w) fileName
                            (arrayBuffer response) |})
       /\ assoc fileName (assets (snd (pokemonCreate w req)))
          = Some (arrayBuffer response).
Proof.
  intros Hv He Hf Hnew Hfetch Hok Hct Himg ext fileName p.
  split.
  { subst ext. unfold getImageExtension.
    destruct (assoc (toLowerCase contentType) contentTypeMap) as [e|] eqn:Ea.
    - unfold contentTypeMap in Ea. simpl in Ea.
      repeat match type of Ea with
             | (if ?c then _ else _) = _ =>
                 destruct c; [inversion Ea; discriminate|]
             end.
      discriminate Ea.
    - destruct (extname _); discriminate. }
  destruct (validate_base_sealable req
              (INTEGRITY_SECRET ENV_INTEGRITY_SECRET) Hv) as [seal Hseal].
  exists seal. split; [exact Hseal|].
  assert (Hdl : downloadPokemonImage (string_of (body_imageUrl req))
                = Ok (arrayBuffer response, contentType)).
  { unfold downloadPokemonImage. rewrite Hfetch. cbn [bind].
    rewrite Hok, Hct. cbn [negb]. rewrite Himg. reflexivity. }
  assert (Hfind : find (fun q => ci_equal (name_english q) en
                                 || ci_equal (name_french q) fr) (pokemons w)
                  = None).
  { destruct (find _ (pokemons w)) as [q|] eqn:Eq; [|reflexivity].
    destruct (find_some _ _ Eq) as [Hq Hhit].
    destruct (Hnew q Hq) as [E1 E2]. rewrite E1, E2 in Hhit. discriminate. }
  assert (Hcreate : pokemonCreate w req
          = ({| status := 201;
                body := JsonPokemon {| doc := p; integrityHash := seal |} |},
             {| pokemons := pokemons w ++ [p];
                auditLogs := auditLogs w;
                assets := update_prop (assets w) fileName
                            (arrayBuffer response) |})).
  { destruct (validate_needs_body req Hv) as [Hu Hn].
    rewrite (pokemonCreate_unfold w req Hu Hn), Hv.
    unfold afterValidation, prepare.
    unfold body_english, body_french in He, Hf.
    rewrite optional_prop_get in He, Hf. rewrite He, Hf.
    cbn [escaped_name bind]. rewrite duplicate_query. cbn [bind].
    rewrite Hfind, Hdl. cbn [bind fst snd string_of].
    fold ext. fold fileName. fold p.
    unfold withIntegrityHash. cbn [base]. subst p. cbn [base].
    rewrite Hseal. reflexivity. }
  split; [exact Hcreate|].
  rewrite Hcreate. cbn [snd assets]. apply assoc_update_prop.
Qed.

Lemma names_unique_app (store : list Pokemon) (p : Pokemon) :
  names_unique store ->
  Forall (fun q => distinct_names q p) store ->
  names_unique (store ++ [p]).
Proof.
  induction 1 as [|a l Ha Hl IH]; simpl; intros Hall.
  - constructor; constructor.
  - inversion Hall as [|? ? Hap Hall']; subst.
    constructor; [|now apply IH].
    apply Forall_app. split; [exact Ha|]. constructor; [exact Hap|constructor].
Qed.

(** X10: the create keeps the names of the collection unique.  If no two
    records share an english name or a french name up to case before the
    request, none do after it, whatever the request and its outcome. *)
Theorem create_keeps_names_unique (w : World) (req : CreateRequest) :
  names_unique (pokemons w) ->
  names_unique (pokemons (snd (pokemonCreate w req))).
Proof.
  intros Hu.
  destruct (pokemonCreate_outcome w req)
    as [[E _]|(p & file & s & _ & Hp & _ & E)]; rewrite E; [exact Hu|].
  cbn [snd pokemons].
  destruct (prepare_Some_inv _ _ _ _ _ _ _ _ Hp)
    as (en & fr & data & _ & _ & Hfind & _ & _ & ->).
  apply names_unique_app; [exact Hu|].
  apply Forall_forall. intros q Hq.
  pose proof (find_none _ _ Hfind q Hq) as Hnone. simpl in Hnone.
  apply orb_false_iff in Hnone. exact Hnone.
Qed.

(** X11: on a collection whose identifiers lie between [- 2 ^ 53] and
    [2 ^ 53], the create keeps the identifiers pairwise different, and
    positive when they all were: there the identifier of a new record is
    greater than every identifier of the collection. *)
Theorem create_keeps_ids_distinct (w : World) (req : CreateRequest) :
  safe_ids (pokemons w) ->
  NoDup (map id (pokemons w)) ->
  NoDup (map id (pokemons (snd (pokemonCreate w req))))
  /\ (Forall (fun p => 1 <= id p) (pokemons w) ->
      Forall (fun p => 1 <= id p) (pokemons (snd (pokemonCreate w req)))).
Proof.
  intros Hsafe Hnd.
  destruct (pokemonCreate_outcome w req)
    as [[E _]|(p & file & s & _ & Hp & _ & E)]; rewrite E; [tauto|].
  cbn [snd pokemons].
  pose proof (prepare_new_id _ _ _ _ _ _ _ _ Hp) as Hid.
  destruct (nextId_spec (pokemons w) Hsafe) as (H1 & H2 & H3).
  split.
  - rewrite map_app. simpl.
    apply NoDup_app; [exact Hnd | repeat constructor; intros [] | ].
    intros x Hx [<-|[]]. apply in_map_iff in Hx.
    destruct Hx as (q & Hq & Hin). specialize (H2 q Hin). lia.
  - intros Hpos. apply Forall_app. split; [exact Hpos|].
    constructor; [|constructor]. rewrite Hid.
    destruct (pokemons w) as [|a l] eqn:Ew; [now rewrite H1|].
    inversion Hpos; subst. specialize (H2 a (or_introl eq_refl)). lia.
Qed.
End CreateOutcome.

(** ** Identifiers as text, and lookups after a create *)

Lemma digits_value_app (ds : jstring) (d : Z) :
  digits_value (ds ++ [d]) = 10 * digits_value ds + (d - 48).
Proof. unfold digits_value. rewrite fold_left_app. reflexivity. Qed.

Lemma digits_fuel_spec (fuel : nat) (n : Z) (acc : jstring) :
  0 <= n < 2 ^ Z.of_nat (S fuel) ->
  exists ds,
    digits_fuel (S fuel) n acc = ds ++ acc
    /\ ds <> [] /\ forallb is_digit ds = true /\ digits_value ds = n.
Proof.
  revert n acc. induction fuel as [|fuel IH]; intros n acc Hn.
  - change (2 ^ Z.of_nat 1) with 2 in Hn. unfold digits_fuel.
    assert (E : (n <? 10) = true) by (apply Z.ltb_lt; lia). rewrite E.
    exists [48 + n mod 10]. repeat split; [discriminate| |].
    + cbn [forallb]. unfold is_digit. rewrite Z.mod_small by lia.
      rewrite andb_true_r, andb_true_iff, !Z.leb_le. lia.
    + unfold digits_value. cbn [fold_left]. rewrite Z.mod_small by lia. lia.
  - change (digits_fuel (S (S fuel)) n acc)
      with (if n <? 10 then (48 + n mod 10) :: acc
            else digits_fuel (S fuel) (n / 10) ((48 + n mod 10) :: acc)).
    pose proof (Z.mod_pos_bound n 10 ltac:(lia)) as Hm.
    destruct (n <? 10) eqn:E.
    + apply Z.ltb_lt in E. exists [48 + n mod 10].
      repeat split; [discriminate| |].
      * cbn [forallb]. unfold is_digit.
        rewrite andb_true_r, andb_true_iff, !Z.leb_le. lia.
      * unfold digits_value. cbn [fold_left]. rewrite Z.mod_small by lia. lia.
    + apply Z.ltb_ge in E.
      assert (Hq : 0 <= n / 10 < 2 ^ Z.of_nat (S fuel)).
      { split; [apply Z.div_pos; lia|].
        apply Z.div_lt_upper_bound; [lia|].
        replace (Z.of_nat (S (S fuel))) with (Z.succ (Z.of_nat (S fuel)))
          in Hn by lia.
        rewrite Z.pow_succ_r in Hn by lia. lia. }
      destruct (IH (n / 10) ((48 + n mod 10) :: acc) Hq)
        as (ds & Hds & Hne & Hdig & Hval).
      exists (ds ++ [48 + n mod 10]). repeat split.
      * rewrite Hds, <- app_assoc. reflexivity.
      * destruct ds; discriminate.
      * rewrite forallb_app, Hdig. cbn [forallb andb]. unfold is_digit.
        rewrite andb_true_r, andb_true_iff, !Z.leb_le. lia.
      * rewrite digits_value_app, Hval.
        pose proof (Z.div_mod n 10 ltac:(lia)). lia.
Qed.

Lemma digits_of_natural (n : Z) :
  0 <= n ->
  exists ds,
    digits_fuel (Z.to_nat (Z.log2 n) + 1) n [] = ds
    /\ ds <> [] /\ forallb is_digit ds = true /\ digits_value ds = n.
Proof.
  intros Hn. replace (Z.to_nat (Z.log2 n) + 1)%nat with (S (Z.to_nat (Z.log2 n)))
    by lia.
  destruct (digits_fuel_spec (Z.to_nat (Z.log2 n)) n []) as (ds & E & H1 & H2 & H3).
  - split; [exact Hn|].
    replace (Z.of_nat (S (Z.to_nat (Z.log2 n)))) with (Z.succ (Z.log2 n))
      by (pose proof (Z.log2_nonneg n); lia).
    destruct (Z.eq_dec n 0) as [->|Hz]; [reflexivity|].
    apply Z.log2_spec. lia.
  - exists ds. rewrite app_nil_r in E. auto.
Qed.

Lemma leading_digits_all (ds : jstring) :
  forallb is_digit ds = true -> leading_digits ds = ds.
Proof.
  induction ds as [|d ds IH]; simpl; [reflexivity|].
  intros E. apply andb_true_iff in E. destruct E as [E1 E2].
  rewrite E1, IH by exact E2. reflexivity.
Qed.

Lemma parseInt10_digits (d : Z) (ds : jstring) :
  forallb is_digit (d :: ds) = true ->
  parseInt10 (d :: ds) = Num (round_double (digits_value (d :: ds))).
Proof.
  intros Hdig.
  assert (Hd : is_digit d = true)
    by (cbn [forallb] in Hdig; now apply andb_true_iff in Hdig).
  unfold is_digit in Hd. apply andb_true_iff in Hd. rewrite !Z.leb_le in Hd.
  assert (Hcases : d = 48 \/ d = 49 \/ d = 50 \/ d = 51 \/ d = 52
                   \/ d = 53 \/ d = 54 \/ d = 55 \/ d = 56 \/ d = 57)
    by lia.
  assert (Hread : forall c,
             parseInt10 (c :: ds)
             = match leading_digits (c :: ds) with
               | [] => NaN
               | z :: r => Num (round_double (digits_value (z :: r)))
               end ->
             forallb is_digit (c :: ds) = true ->
             parseInt10 (c :: ds)
             = Num (round_double (digits_value (c :: ds)))).
  { intros c E Hc. rewrite E, leading_digits_all by exact Hc. reflexivity. }
  repeat (destruct Hcases as [->|Hcases];
          [apply Hread; [reflexivity | exact Hdig]|]).
  subst d. apply Hread; [reflexivity | exact Hdig].
Qed.

Lemma parseInt10_natural (n : Z) :
  0 <= n < 2 ^ 53 -> parseInt10 (natural_digits n) = Num n.
Proof.
  intros Hn. unfold natural_digits.
  destruct (digits_of_natural n) as (ds & -> & Hne & Hdig & Hval); [lia|].
  destruct ds as [|d ds]; [congruence|].
  rewrite parseInt10_digits by exact Hdig.
  rewrite Hval, round_double_exact by lia. reflexivity.
Qed.

Lemma parseInt10_negative (n : Z) :
  0 < n < 2 ^ 53 -> parseInt10 (45 :: natural_digits n) = Num (- n).
Proof.
  intros Hn. unfold natural_digits.
  destruct (digits_of_natural n) as (ds & -> & Hne & Hdig & Hval); [lia|].
  unfold parseInt10. change (trimStart (45 :: ds)) with (45 :: ds).
  cbn [fst snd]. rewrite leading_digits_all by exact Hdig.
  destruct ds as [|d ds]; [congruence|].
  rewrite Hval, round_double_exact by lia. reflexivity.
Qed.

(** Rounding keeps an integer that is not below [2 ^ 53] there. *)
Lemma round_double_large (n : Z) : 2 ^ 53 <= n -> 2 ^ 53 <= round_double n.
Proof.
  intros Hn. unfold round_double.
  rewrite Z.abs_eq by lia.
  destruct (n <? 2 ^ 53) eqn:E; [apply Z.ltb_lt in E; lia|].
  rewrite Z.sgn_pos by lia.
  assert (Hlog : 53 <= Z.log2 n) by (apply Z.log2_le_pow2; lia).
  set (e := Z.log2 n - 52).
  assert (He : 0 < e) by (unfold e; lia).
  destruct (Z.log2_spec n ltac:(lia)) as [Hlo _].
  assert (Hsplit : 2 ^ Z.log2 n = 2 ^ 52 * 2 ^ e).
  { rewrite <- Z.pow_add_r by lia. f_equal. unfold e. lia. }
  assert (Hpe : 0 < 2 ^ e) by (apply Z.pow_pos_nonneg; lia).
  assert (Hq : 2 ^ 52 <= Z.shiftr n e).
  { rewrite Z.shiftr_div_pow2 by lia.
    apply Z.div_le_lower_bound; [exact Hpe|]. lia. }
  set (q := Z.shiftr n e) in *.
  match goal with
  | |- context [if ?c then q + 1 else q] =>
      set (q' := if c then q + 1 else q);
      assert (Hq' : q <= q') by (subst q'; destruct c; lia)
  end.
  assert (Hv : 2 ^ 53 <= Z.shiftl q' e).
  { rewrite Z.shiftl_mul_pow2 by lia.
    assert (2 ^ 53 <= 2 ^ Z.log2 n) by (apply Z.pow_le_mono_r; lia).
    nia. }
  assert (Hinf : 2 ^ 53 <= INFINITY)
    by (unfold INFINITY; apply Z.pow_le_mono_r; lia).
  destruct (INFINITY <=? Z.shiftl q' e); lia.
Qed.

(** Below [2 ^ 53] the only decimal that reads back as [x] is [x]. *)
Lemma shortest_fuel_safe (fuel : nat) (x z : Z) :
  0 <= x < 2 ^ 53 -> 0 <= z -> shortest_fuel fuel x z = x.
Proof.
  intros Hx. revert z. induction fuel as [|fuel IH]; intros z Hz;
    [reflexivity|].
  cbn [shortest_fuel].
  assert (Hp : 0 < 10 ^ z) by (apply Z.pow_pos_nonneg; lia).
  set (p := 10 ^ z) in *.
  pose proof (Z.mul_div_le x p Hp) as Hle.
  pose proof (Z.mod_pos_bound x p Hp) as Hmod.
  pose proof (Z.div_mod x p ltac:(lia)) as Hdm.
  assert (H0 : 0 <= x / p) by (apply Z.div_pos; lia).
  set (c1 := x / p * p).
  assert (Hc1 : 0 <= c1 <= x) by (unfold c1; nia).
  assert (Hc2 : x < c1 + p) by (unfold c1; nia).
  rewrite (round_double_exact c1) by lia.
  assert (E2 : (round_double (c1 + p) =? x) = false).
  { apply Z.eqb_neq.
    destruct (Z.lt_ge_cases (c1 + p) (2 ^ 53)) as [Hs|Hl].
    - rewrite round_double_exact by lia. lia.
    - pose proof (round_double_large _ Hl). lia. }
  rewrite E2, andb_false_r.
  destruct (Z.eqb_spec c1 x) as [E1|E1]; [exact E1|].
  apply IH.
  destruct (Z.eq_dec z 0) as [Ez|Ez]; [|lia].
  exfalso. apply E1. unfold c1, p. rewrite Ez. change (10 ^ 0) with 1.
  rewrite Z.div_1_r. lia.
Qed.

Lemma positive_to_string_safe (x : Z) :
  0 <= x < 2 ^ 53 -> positive_to_string x = natural_digits x.
Proof.
  intros Hx. unfold positive_to_string.
  assert (Hinf : (INFINITY <=? x) = false).
  { apply Z.leb_gt. unfold INFINITY.
    assert (2 ^ 53 <= 2 ^ 1024) by (apply Z.pow_le_mono_r; lia). lia. }
  rewrite Hinf. cbv zeta.
  assert (Hs : shortest x = x).
  { unfold shortest. apply shortest_fuel_safe; [exact Hx|].
    unfold decimal_length, natural_digits.
    destruct (digits_of_natural x) as (ds & -> & Hne & _); [lia|].
    destruct ds; [congruence|]. cbn [List.length]. lia. }
  rewrite Hs.
  assert (Hsmall : (x <? 10 ^ 21) = true).
  { apply Z.ltb_lt. assert (2 ^ 53 < 10 ^ 21) by reflexivity. lia. }
  rewrite Hsmall. reflexivity.
Qed.

(** [parseInt] reads back the text [String] writes for an integer between
    [- 2 ^ 53] and [2 ^ 53]. *)
Lemma parseInt10_number_to_string (n : Z) :
  - 2 ^ 53 <= n <= 2 ^ 53 ->
  parseInt10 (number_to_string n) = Num n.
Proof.
  intros Hn.
  destruct (Z.eq_dec n (2 ^ 53)) as [->|Hhi]; [vm_compute; reflexivity|].
  destruct (Z.eq_dec n (- 2 ^ 53)) as [->|Hlo]; [vm_compute; reflexivity|].
  unfold number_to_string.
  destruct (n <? 0) eqn:Hneg.
  - apply Z.ltb_lt in Hneg.
    rewrite positive_to_string_safe, parseInt10_negative by lia.
    f_equal. lia.
  - apply Z.ltb_ge in Hneg.
    rewrite positive_to_string_safe by lia.
    apply parseInt10_natural. lia.
Qed.

Section AfterCreate.
Context `{Platform} `{Environment}.

Lemma find_id_fresh (store : list Pokemon) (p : Pokemon) :
  (forall q, In q store -> id q < id p) ->
  find (fun q => id q =? id p) (store ++ [p]) = Some p.
Proof.
  induction store as [|a store IH]; simpl; intros Hlt.
  - now rewrite Z.eqb_refl.
  - assert (E : (id a =? id p) = false)
      by (apply Z.eqb_neq; specialize (Hlt a (or_introl eq_refl)); lia).
    rewrite E. apply IH. intros q Hq. apply Hlt. now right.
Qed.

Lemma find_english_fresh (store : list Pokemon) (p : Pokemon) :
  (forall q, In q store -> name_english q <> name_english p) ->
  find (fun q => jstr_eqb (name_english q) (name_english p)) (store ++ [p])
  = Some p.
Proof.
  intros Hn. rewrite find_english_app by exact Hn. simpl.
  now rewrite jstr_eqb_refl.
Qed.

(** X12: on a collection whose identifiers lie between [- 2 ^ 53] and
    [2 ^ 53], a record that has just been created is found again.  After
    a 201, the lookup by the text [String] writes for the new identifier
    and the lookup by the new english name both answer 200 with the
    representation the create returned. *)
Theorem create_then_lookup (w : World) (req : CreateRequest) (s : Sealed) :
  safe_ids (pokemons w) ->
  fst (pokemonCreate w req) = {| status := 201; body := JsonPokemon s |} ->
  let w' := snd (pokemonCreate w req) in
  getPokemonById w' (number_to_string (id (doc s)))
  = {| status := 200; body := JsonPokemon s |}
  /\ getPokemonByName w' (name_english (doc s))
     = {| status := 200; body := JsonPokemon s |}.
Proof.
  intros Hsafe.
  destruct (pokemonCreate_outcome w req)
    as [[_ Hs]|(p & file & s' & _ & Hp & Hw & E)].
  { intros E. rewrite E in Hs. simpl in Hs. congruence. }
  rewrite E. cbn [fst snd]. intros Es. inversion Es; subst s'.
  pose proof (withIntegrityHash_doc _ _ Hw) as Hd. rewrite Hd.
  pose proof (prepare_new_id _ _ _ _ _ _ _ _ Hp) as Hid.
  destruct (nextId_spec (pokemons w) Hsafe) as (H1 & H2 & H3).
  destruct (prepare_Some_inv _ _ _ _ _ _ _ _ Hp)
    as (en & fr & data & _ & _ & Hfind & _ & _ & Hpeq).
  assert (Hrange : - 2 ^ 53 <= id p <= 2 ^ 53).
  { rewrite Hid. destruct (pokemons w) as [|a l] eqn:Ew.
    - rewrite H1 by reflexivity. lia.
    - destruct H3 as (q & Hq & ->); [discriminate|].
      specialize (Hsafe q Hq). lia. }
  split.
  - unfold getPokemonById.
    rewrite parseInt10_number_to_string by exact Hrange.
    cbn [findOne_by_id pokemons]. rewrite find_id_fresh.
    + rewrite Hw. reflexivity.
    + intros q Hq. rewrite Hid. now apply H2.
  - unfold getPokemonByName. cbn [pokemons]. rewrite find_english_fresh.
    + rewrite Hw. reflexivity.
    + intros q Hq Heq.
      pose proof (find_none _ _ Hfind q Hq) as Hnone. simpl in Hnone.
      apply orb_false_iff in Hnone. destruct Hnone as [Hnone _].
      rewrite Heq, Hpeq in Hnone. cbn [name_english] in Hnone.
      rewrite ci_equal_refl in Hnone. discriminate Hnone.
Qed.

(** X13: the same create request sent again after a 201 is refused with
    409 and persists nothing more. *)
Theorem create_twice_conflict (w : World) (req : CreateRequest) :
  status (fst (pokemonCreate w req)) = 201 ->
  let w' := snd (pokemonCreate w req) in
  pokemonCreate w' req
  = ({| status := 409;
        body := JsonError (js "Pokemon already exists (english or french name)") |},
     w').
Proof.
  destruct (pokemonCreate_outcome w req)
    as [[_ Hs]|(p & file & s & Hv & Hp & _ & E)]; [congruence|].
  intros _. rewrite E. cbn [snd].
  destruct (prepare_Some_inv _ _ _ _ _ _ _ _ Hp)
    as (en & fr & data & Hen & Hfr & _ & _ & _ & Hpeq).
  apply (create_conflict _ req en fr Hv).
  - unfold body_english. now rewrite optional_prop_get.
  - unfold body_french. now rewrite optional_prop_get.
  - exists p. split.
    + cbn [pokemons]. apply in_or_app. right. now left.
    + left. rewrite Hpeq. cbn [name_english]. apply ci_equal_refl.
Qed.
End AfterCreate.

(** ** Audit lookup with a readable limit *)

Lemma sorted_firstn {A : Type} (cmp : A -> A -> Z) (n : nat) (l : list A) :
  sorted cmp l -> sorted cmp (firstn n l).
Proof.
  intros Hs. revert n. induction Hs as [|x l Hx Hl IH]; intros [|k]; simpl;
    try constructor.
  - apply Forall_forall. intros y Hy. apply firstn_In in Hy.
    exact (proj1 (Forall_forall _ _) Hx y Hy).
  - apply IH.
Qed.

Section AuditLookup.
Context `{Platform} `{Environment}.

(** X14: when the name decodes and the limit is absent, empty or readable
    by [parseInt], the audit lookup answers 200 with at most [limit]
    entries, [limit] being 20 by default and otherwise the given number
    brought into [1 .. 100]; they are the first entries, newest first, of
    those whose [pokemonName] is the trimmed name up to case, and each of
    them is an entry of the audit collection. *)
Theorem getAuditLogs_spec (w : World) (nameParam decoded : jstring)
  (limitParam : option jstring) (n : Z) :
  decodeURIComponent nameParam = Ok decoded ->
  auditLimit limitParam = Num n ->
  1 <= n <= 100
  /\ (limitParam = None \/ limitParam = Some [] -> n = 20)
  /\ (forall text m, limitParam = Some text -> text <> [] ->
        parseInt10 text = Num m -> n = Z.max 1 (Z.min m 100))
  /\ exists logs,
       getAuditLogs w nameParam limitParam
       = {| status := 200; body := JsonLogs logs |}
       /\ logs = firstn (Z.to_nat n) (audit_matches w (trim decoded))
       /\ (List.length logs <= Z.to_nat n)%nat
       /\ sorted (fun a b => createdAt b - createdAt a) logs
       /\ (forall e, In e logs ->
             In e (auditLogs w)
             /\ ci_equal (pokemonName e) (trim decoded) = true).
Proof.
  intros Hd Hl.
  assert (Hshape : exists m, n = Z.max 1 (Z.min m 100)).
  { unfold auditLimit in Hl.
    destruct (parseInt10 _) as [m|]; simpl in Hl; [|discriminate].
    inversion Hl. now exists m. }
  split; [destruct Hshape as [m ->]; lia|].
  split.
  { intros [->| ->]; cbv in Hl; now inversion Hl. }
  split.
  { intros text m -> Hne Hp.
    destruct (auditLimit_clamped text m Hne Hp) as [E _]. congruence. }
  exists (firstn (Z.to_nat n) (audit_matches w (trim decoded))).
  split; [exact (getAuditLogs_readable w nameParam decoded limitParam n Hd Hl)|].
  split; [reflexivity|]. split; [apply firstn_le_length|].
  split.
  - apply sorted_firstn. unfold audit_matches. apply newest_first_sorted.
  - intros e He. apply firstn_In in He. unfold audit_matches, newest_first in He.
    apply sort_In in He. now apply filter_In in He.
Qed.
End AuditLookup.

(** ** The seal and the insertion order *)

Section SealOrder.
Context `{Platform}.

(** X15: when [localeCompare] is a consistent comparator that ties no two
    keys of a base-stat mapping, the seal of the mapping is the same for
    every insertion order of its key/value pairs. *)
Theorem seal_insertion_order_irrelevant (m1 m2 : StatMap) (secret : jstring) :
  NoDup (map fst m1) ->
  Permutation m1 m2 ->
  consistent localeCompare ->
  (forall a b, In a (map fst m1) -> In b (map fst m1) ->
     localeCompare a b <= 0 -> localeCompare b a <= 0 -> a = b) ->
  generateIntegritySeal (stat_object m1) secret
  = generateIntegritySeal (stat_object m2) secret.
Proof.
  intros Hnd Hperm Hcons Hanti. unfold stat_object.
  apply seal_order_insensitive.
  - rewrite map_map. exact Hnd.
  - now apply Permutation_map.
  - exact Hcons.
  - rewrite map_map. exact Hanti.
Qed.
End SealOrder.

(** ** Audit hook *)

Lemma trimStart_incl (s : jstring) (c : Z) : In c (trimStart s) -> In c s.
Proof.
  induction s as [|x s IH]; simpl; [tauto|].
  destruct (is_js_space x); [intros Hc; right; now apply IH | tauto].
Qed.

Lemma trim_incl (s : jstring) (c : Z) : In c (trim s) -> In c s.
Proof.
  unfold trim, trimEnd. intros Hc. apply in_rev in Hc.
  apply trimStart_incl in Hc. apply in_rev in Hc.
  now apply trimStart_incl in Hc.
Qed.

Lemma before_comma_no_comma (s : jstring) : ~ In 44 (before_comma s).
Proof.
  induction s as [|x s IH]; simpl; [tauto|].
  destruct (Z.eqb_spec x 44) as [E|E]; simpl; [tauto|].
  intros [Hx|Hin]; [congruence | now apply IH].
Qed.

Lemma before_comma_app (first rest : jstring) :
  ~ In 44 first -> before_comma (first ++ 44 :: rest) = first.
Proof.
  induction first as [|x first IH]; simpl; intros Hn; [reflexivity|].
  destruct (Z.eqb_spec x 44) as [E|E]; [tauto|].
  rewrite IH by tauto. reflexivity.
Qed.

Lemma getSourceIp_without_header (req : AuditRequest) :
  forwarded_for req = None
  \/ (exists h, forwarded_for req = Some h /\ trim h = []) ->
  getSourceIp req
  = match req_ip req with
    | Some (c :: s) => c :: s
    | _ => match remoteAddress req with
           | Some (c :: s) => c :: s
           | _ => js "unknown"
           end
    end.
Proof.
  unfold getSourceIp. intros [->|(h & -> & ->)]; reflexivity.
Qed.

(** X16: the source recorded by the audit hook.  With a forwarded-for
    header that is not blank it is the first entry of the list, trimmed,
    and holds no comma.  Without the header, or with a blank one, it is
    [req.ip] when that is a non-empty string; else the remote address of
    the socket when that is a non-empty string; else the text [unknown];
    so it is never empty then. *)
Theorem getSourceIp_spec (req : AuditRequest) :
  (forall h, forwarded_for req = Some h -> trim h <> [] ->
     getSourceIp req = trim (before_comma h)
     /\ ~ In 44 (getSourceIp req)
     /\ (forall first rest, h = first ++ 44 :: rest -> ~ In 44 first ->
           getSourceIp req = trim first))
  /\ ((forwarded_for req = None
       \/ exists h, forwarded_for req = Some h /\ trim h = []) ->
      getSourceIp req <> []
      /\ (forall ip, req_ip req = Some ip -> ip <> [] -> getSourceIp req = ip)
      /\ (req_ip req = None \/ req_ip req = Some [] ->
          forall address, remoteAddress req = Some address -> address <> [] ->
                          getSourceIp req = address)
      /\ (req_ip req = None \/ req_ip req = Some [] ->
          remoteAddress req = None \/ remoteAddress req = Some [] ->
          getSourceIp req = js "unknown")).
Proof.
  split.
  - unfold getSourceIp.
    intros h -> Hne. destruct (trim h) as [|c t] eqn:E; [congruence|].
    split; [reflexivity|]. split.
    + intros Hin. apply trim_incl in Hin. exact (before_comma_no_comma h Hin).
    + intros first rest -> Hn. now rewrite before_comma_app.
  - intros Hno. rewrite (getSourceIp_without_header req Hno).
    split; [|split; [|split]].
    + destruct (req_ip req) as [[|c s]|]; try discriminate;
        destruct (remoteAddress req) as [[|c' s']|]; discriminate.
    + intros ip -> Hip. destruct ip; [congruence | reflexivity].
    + intros [-> | ->] address -> Ha;
        (destruct address; [congruence | reflexivity]).
    + intros [-> | ->] [-> | ->]; reflexivity.
Qed.

Section AuditHookProperties.
Context `{Platform}.

(** X17: the audit hook lets a request of any other method than POST, PUT
    and DELETE through and writes nothing.  For POST, PUT and DELETE, when
    the subject is read and neither it nor the source is empty, the
    response and the effects of the handler are unchanged and exactly one
    entry is added to the audit collection, after the existing ones: it
    carries the action CREATE for a POST, UPDATE for a PUT and DELETE for
    a DELETE, the subject, the source, the time of the write and the
    status code of the response, whatever that status.  In every case the
    hook changes neither the response nor the records nor the files, and
    adds at most one entry. *)
Theorem audit_hook_spec {R : Type} (status_of : R -> Z) (now : Z)
  (req : AuditRequest) (next : World -> R * World) (w : World) :
  (method req <> js "POST" -> method req <> js "PUT" ->
   method req <> js "DELETE" ->
   destructiveAuditMiddleware status_of now req next w = Ok (next w))
  /\ (forall recorded,
        (method req = js "POST" /\ recorded = js "CREATE")
        \/ (method req = js "PUT" /\ recorded = js "UPDATE")
        \/ (method req = js "DELETE" /\ recorded = js "DELETE") ->
      forall subject,
        extractPokemonNameForAudit req = Ok subject ->
        subject <> [] -> getSourceIp req <> [] ->
        destructiveAuditMiddleware status_of now req next w
        = Ok (fst (next w),
              {| pokemons := pokemons (snd (next w));
                 auditLogs :=
                   auditLogs (snd (next w))
                   ++ [ {| action := recorded;
                           pokemonName := subject;
                           sourceIp := getSourceIp req;
                           statusCode := status_of (fst (next w));
                           createdAt := now |} ];
                 assets := assets (snd (next w)) |}))
  /\ (forall r w', destructiveAuditMiddleware status_of now req next w
                   = Ok (r, w') ->
        r = fst (next w) /\ pokemons w' = pokemons (snd (next w))
        /\ assets w' = assets (snd (next w))
        /\ exists added, auditLogs w' = auditLogs (snd (next w)) ++ added
                         /\ (List.length added <= 1)%nat).
Proof.
  unfold destructiveAuditMiddleware.
  split; [|split].
  - intros H1 H2 H3.
    assert (E : is_destructive (method req) = false).
    { unfold is_destructive. rewrite !orb_false_iff. repeat split;
        (destruct (jstr_eqb (method req) _) eqn:Em; [|reflexivity]);
        apply jstr_eqb_eq in Em; congruence. }
    rewrite E. reflexivity.
  - intros recorded Hm subject Hs Hne Hip.
    assert (Hd : is_destructive (method req) = true
                 /\ action_of (method req) = recorded
                 /\ (jstr_eqb recorded (js "CREATE")
                     || jstr_eqb recorded (js "UPDATE")
                     || jstr_eqb recorded (js "DELETE")) = true).
    { destruct Hm as [[-> ->]|[[-> ->]|[-> ->]]]; repeat split. }
    destruct Hd as (Hd & Ha & Hact). rewrite Hd, Hs, Ha. cbn [negb bind].
    destruct (next w) as [res w1]. cbn [fst snd].
    unfold auditLog_create. rewrite Hact.
    destruct subject as [|c s]; [congruence|].
    destruct (getSourceIp req) as [|c' s'] eqn:Eip; [congruence|].
    reflexivity.
  - intros r w'. destruct (is_destructive (method req)); cbn [negb].
    + destruct (extractPokemonNameForAudit req) as [subject|]; cbn [bind];
        [|discriminate].
      destruct (next w) as [res w1]. cbn [fst snd].
      unfold auditLog_create.
      destruct (_ && _ && _); intros E; inversion E; subst; cbn.
      * repeat split. eexists. split; [reflexivity|]. simpl. lia.
      * repeat split. exists []. rewrite app_nil_r. split; [reflexivity|].
        simpl. lia.
    + intros E. inversion E as [E']. rewrite E'. cbn [fst snd].
      repeat split. exists []. rewrite app_nil_r. split; [reflexivity|].
      simpl. lia.
Qed.

(** X18: a create request that passes the shape validation with a string
    as its english name, arriving without a [name] route parameter, is
    audited under that name, trimmed. *)
Theorem validated_create_subject (req : CreateRequest) (a : AuditRequest)
  (en : jstring) :
  validate (body_name req) (body_type req) (body_base req)
    (body_imageUrl req) = None ->
  body_english req = VStr en ->
  audit_body a = req_body req ->
  params_name a = None ->
  extractPokemonNameForAudit a = Ok (trim en).
Proof.
  intros Hv He Hb Hp. unfold extractPokemonNameForAudit. rewrite Hp, Hb.
  rewrite optional_prop_get. fold (body_name req).
  unfold body_english in He. rewrite He. cbn [truthy].
  assert (Hen : en <> []).
  { intros ->. unfold validate in Hv. fold (body_english req) in Hv.
    unfold body_english in Hv. rewrite He in Hv. discriminate Hv. }
  destruct en as [|c t]; [congruence|].
  rewrite optional_prop_get in He. rewrite He. cbn [String_of bind].
  destruct (body_name req) as [| |b|n|s|l|ps] eqn:En; try reflexivity.
  exfalso. cbn in He. destruct (array_index (js "english")) eqn:Ea;
    [discriminate Ea | discriminate He].
Qed.
End AuditHookProperties.

(* ================================================================== *)
(** * The worked requests, checked *)

Example create_pika_succeeds :
  status (fst (create empty_world pika_request)) = 201
  /\ map id (pokemons pika_world) = [1].
Proof. vm_compute. split; reflexivity. Qed.

(** Creating [{english: "Pika", french: "Pika"}] and then
    [{english: "pika", french: "Autre"}]: the second is refused with 409 and
    the collection keeps its one record. *)
Example create_pika_twice :
  create pika_world pika_lowercase_request
  = ({| status := 409;
        body := JsonError (js "Pokemon already exists (english or french name)") |},
     pika_world).
Proof.
  apply (@create_conflict latin_platform test_environment pika_world
           pika_lowercase_request (js "pika") (js "Autre")).
  - reflexivity.
  - reflexivity.
  - reflexivity.
  - eexists. split; [left; reflexivity|]. left. vm_compute. reflexivity.
Qed.

Lemma create_type_error_before_conflict_witness :
  (exists p, In p (pokemons pika_world) /\ name_english p = js "Pika")
  /\ create pika_world untyped_french_request
     = ({| status := 500;
           body := JsonError (js "name.french.replace is not a function") |},
        pika_world).
Proof.
  split.
  - eexists. split; [left; reflexivity|]. vm_compute. reflexivity.
  - apply (@create_type_error_before_conflict latin_platform test_environment
             pika_world untyped_french_request (js "Pika")).
    + reflexivity.
    + reflexivity.
    + intros s E. discriminate E.
Defined.

Lemma create_validation_witness :
  status (fst (create empty_world (request (VObj [])))) = 400
  /\ status (fst (create empty_world pika_request)) <> 400.
Proof.
  destruct (@create_validation latin_platform test_environment empty_world
              (request (VObj []))) as (H1 & _ & _);
    [discriminate | discriminate |].
  destruct (@create_validation latin_platform test_environment empty_world
              pika_request) as (_ & _ & H3);
    [discriminate | discriminate |].
  split.
  - apply H1. left. left. reflexivity.
  - apply H3.
    + intros [E|[E|[E|[E|E]]]]; discriminate E.
    + intros [E|[E|[E|[E|E]]]]; discriminate E.
    + eexists. eexists. reflexivity.
    + right. eexists. reflexivity.
    + eexists. eexists. reflexivity.
Defined.

Lemma create_assigns_next_id_witness :
  exists p s,
    pokemons (snd (create pika_world
                     (request (create_body (VStr (js "Evoli")) (VStr (js "Evoli"))
                                 (js "http://example.org/evoli.png")))))
    = pokemons pika_world ++ [p]
    /\ body (fst (create pika_world
                    (request (create_body (VStr (js "Evoli")) (VStr (js "Evoli"))
                                (js "http://example.org/evoli.png")))))
       = JsonPokemon s
    /\ doc s = p
    /\ (pokemons pika_world = [] -> id p = 1)
    /\ (pokemons pika_world <> [] ->
        exists q, In q (pokemons pika_world)
                  /\ (forall q', In q' (pokemons pika_world) -> id q' <= id q)
                  /\ id p = id q + 1).
Proof.
  apply (@create_assigns_next_id latin_platform test_environment pika_world
           (request (create_body (VStr (js "Evoli")) (VStr (js "Evoli"))
                       (js "http://example.org/evoli.png")))).
  - intros q Hq. vm_compute in Hq. destruct Hq as [<-|[]].
    cbn [id]. lia.
  - vm_compute. reflexivity.
Defined.

(** A collection whose greatest identifier is [2 ^ 53]: the create
    answers 201 and the new record has that same identifier, which is
    not the greatest plus 1. *)
Lemma create_at_limit_repeats_id :
  status (fst (create limit_world pika_request)) = 201
  /\ exists p,
       pokemons (snd (create limit_world pika_request))
       = pokemons limit_world ++ [p]
       /\ id p = 9007199254740992
       /\ forall q, In q (pokemons limit_world) ->
                    id q = 9007199254740992 /\ id p <> id q + 1.
Proof.
  split; [vm_compute; reflexivity|].
  eexists. split; [vm_compute; reflexivity|].
  split; [reflexivity|].
  intros q [<-|[]]. split; [reflexivity | discriminate].
Qed.

Lemma create_download_failure_witness :
  snd (create pika_world html_request) = pika_world
  /\ status (fst (create pika_world html_request)) = 500.
Proof.
  destruct (@create_download_failure latin_platform test_environment
              pika_world html_request html_response) as (H1 & _ & H3 & _).
  - reflexivity.
  - right. reflexivity.
  - split; [exact H1|]. apply H3; vm_compute; discriminate.
Defined.

Lemma getPokemonById_unparseable_witness :
  parseInt10 (js "abc") = NaN
  /\ @getPokemonById latin_platform test_environment pika_world (js "abc")
     = {| status := 500; body := JsonError (js "Internal Server Error") |}.
Proof.
  split; [reflexivity|].
  apply (@getPokemonById_unparseable latin_platform test_environment
           pika_world (js "abc")).
  reflexivity.
Defined.

Lemma missing_base_sealed_as_empty_witness :
  let sealed :=
    {| doc := pikachu_accented;
       integrityHash :=
         js "0a200eb6adeb83169695f8ee09370473a6b4351c7a5795d51f05c007cc99d49f" |}
  in
  @withIntegrityHash latin_platform test_environment pikachu_accented
  = Ok sealed
  /\ status (@getPokemonById latin_platform test_environment accented_world
               (js "25")) = 200
  /\ (status (@getPokemons latin_platform test_environment mixed_world) = 200
      /\ In sealed
            (listed (@getPokemons latin_platform test_environment mixed_world)))
  /\ (status (@getPokemonsByPage latin_platform test_environment mixed_world
                (js "0")) = 200
      /\ In sealed
            (listed (@getPokemonsByPage latin_platform test_environment
                       mixed_world (js "0"))))
  /\ (status (@getPokemonsSearch latin_platform test_environment mixed_world
                (VStr (js "CHU"))) = 200
      /\ In sealed
            (listed (@getPokemonsSearch latin_platform test_environment
                       mixed_world (VStr (js "CHU"))))).
Proof.
  destruct (@missing_base_sealed_as_empty latin_platform test_environment
              pikachu_accented eq_refl)
    as (H1 & H2 & _ & _ & H5 & H6 & H7 & _).
  assert (Hseal : @sealed_empty test_environment pikachu_accented
                  = {| doc := pikachu_accented;
                       integrityHash :=
                         js "0a200eb6adeb83169695f8ee09370473a6b4351c7a5795d51f05c007cc99d49f" |})
    by (vm_compute; reflexivity).
  cbv zeta. rewrite <- Hseal.
  split; [exact (eq_trans H1 (eq_refl _))|].
  split; [rewrite (H2 accented_world (js "25") eq_refl); reflexivity|].
  split; [|split].
  - apply (H5 mixed_world).
    + right. left. reflexivity.
    + repeat (constructor; [discriminate|]). constructor.
  - apply (H6 mixed_world (js "0")).
    + vm_compute. discriminate.
    + vm_compute. right. left. reflexivity.
    + vm_compute. repeat (constructor; [discriminate|]). constructor.
  - apply (H7 mixed_world (js "CHU")).
    + vm_compute. discriminate.
    + vm_compute. left. reflexivity.
    + vm_compute. repeat (constructor; [discriminate|]). constructor.
Defined.

(** The query [pikachu], in any case and with white space around it,
    finds the record whose french name is written with diacritics; a
    query that occurs in no name finds nothing; a repeated parameter is
    answered 500. *)
Lemma search_spec_witness :
  @normalizeForSearch latin_platform [32; 80; 239; 107; 257; 99; 104; 117; 32]
  = js "pikachu"
  /\ @search_match latin_platform
       (@normalizeForSearch latin_platform (js "pikachu"))
       {| id := 7; name_english := js "Souris";
          name_french := [80; 239; 107; 257; 99; 104; 117];
          type := []; base := VUndefined; image := [] |} = true
  /\ map doc (listed (@getPokemonsSearch latin_platform test_environment
                        mixed_world (VStr (js " PIKACHU "))))
     = [pikachu_accented]
  /\ map doc (listed (@getPokemonsSearch latin_platform test_environment
                        mixed_world (VStr (js "raichu"))))
     = []
  /\ @getPokemonsSearch latin_platform test_environment mixed_world
       (VStr (js "  "))
     = {| status := 200; body := JsonPokemons [] |}
  /\ @getPokemonsSearch latin_platform test_environment mixed_world VUndefined
     = {| status := 200; body := JsonPokemons [] |}
  /\ @getPokemonsSearch latin_platform test_environment mixed_world
       (VArr [VStr (js "pika"); VStr (js "chu")])
     = {| status := 500; body := JsonError (js "Internal Server Error") |}.
Proof.
  destruct (@search_spec latin_platform test_environment mixed_world
              (VStr (js " PIKACHU "))) as (Hn & _ & _ & Hhit & _).
  destruct (@search_spec latin_platform test_environment mixed_world
              (VStr (js "raichu"))) as (_ & _ & _ & Hmiss & _).
  destruct (@search_spec latin_platform test_environment mixed_world
              (VStr (js "  "))) as (_ & _ & Hblank & _).
  destruct (@search_spec latin_platform test_environment mixed_world
              VUndefined) as (_ & Habsent & _).
  destruct (@search_spec latin_platform test_environment mixed_world
              (VArr [VStr (js "pika"); VStr (js "chu")]))
    as (_ & _ & _ & _ & Harray).
  split; [rewrite Hn; vm_compute; reflexivity|].
  split; [vm_compute; reflexivity|].
  split; [|split; [|split; [|split]]].
  - destruct (Hhit (js " PIKACHU ") eq_refl) as (_ & _ & _ & Hl & Hs & _);
      [vm_compute; discriminate|].
    rewrite Hl.
    + vm_compute. reflexivity.
    + apply Hs. vm_compute. repeat (constructor; [discriminate|]). constructor.
  - destruct (Hmiss (js "raichu") eq_refl) as (_ & _ & _ & Hl & Hs & _);
      [vm_compute; discriminate|].
    rewrite Hl.
    + vm_compute. reflexivity.
    + apply Hs. vm_compute. repeat (constructor; [discriminate|]). constructor.
  - apply (Hblank (js "  ") eq_refl). reflexivity.
  - apply Habsent. reflexivity.
  - apply Harray; [reflexivity | intros text E; discriminate E].
Defined.

Lemma seal_matches_reference_witness :
  @generateIntegritySeal latin_platform
    (stat_object [(js "HP", 45); (js "Attack", 49)]) DEFAULT_SECRET
  = Ok (js "bb9ff31a826281abb2ad38c9e469ec322bec6dbb0c69cb65435f30dba5c3e9f6").
Proof.
  rewrite (@seal_matches_reference latin_platform
             [(js "HP", 45); (js "Attack", 49)] DEFAULT_SECRET).
  - vm_compute. reflexivity.
  - simpl. constructor; [intros [E|[]]; discriminate E|].
    constructor; [intros []|constructor].
  - intros k [<-|[<-|[]]]; (split; [reflexivity | discriminate]).
  - intros a b [<-|[<-|[]]] [<-|[<-|[]]]; reflexivity.
Defined.

Lemma seal_depends_on_insertion_order_witness :
  Permutation [([233], 1); ([101; 769], 2)] [([101; 769], 2); ([233], 1)]
  /\ @generateIntegritySeal latin_platform
       (stat_object [([233], 1); ([101; 769], 2)]) DEFAULT_SECRET
     <> @generateIntegritySeal latin_platform
          (stat_object [([101; 769], 2); ([233], 1)]) DEFAULT_SECRET.
Proof.
  split; [apply perm_swap|].
  destruct (@seal_depends_on_insertion_order latin_platform eq_refl eq_refl)
    as [E1 E2].
  rewrite E1, E2. intros E. vm_compute in E. discriminate E.
Defined.

(** ** The further properties on the worked requests *)

Lemma lex_compare_opp (a b : jstring) : lex_compare b a = - lex_compare a b.
Proof.
  revert b. induction a as [|x a IH]; intros [|y b]; simpl; try reflexivity.
  destruct (Z.ltb_spec x y), (Z.ltb_spec y x); try lia; try reflexivity.
  apply IH.
Qed.

Lemma lex_compare_eq (a b : jstring) : lex_compare a b = 0 -> a = b.
Proof.
  revert b. induction a as [|x a IH]; intros [|y b]; simpl;
    try reflexivity; try discriminate.
  destruct (Z.ltb_spec x y), (Z.ltb_spec y x); try discriminate.
  intros E. f_equal; [lia | now apply IH].
Qed.

Lemma lex_compare_trans (a b c : jstring) :
  lex_compare a b <= 0 -> lex_compare b c <= 0 -> lex_compare a c <= 0.
Proof.
  revert b c. induction a as [|x a IH]; intros [|y b] [|z c]; simpl;
    try lia.
  destruct (Z.ltb_spec x y), (Z.ltb_spec y x), (Z.ltb_spec y z),
    (Z.ltb_spec z y), (Z.ltb_spec x z), (Z.ltb_spec z x);
    try lia.
  apply IH.
Qed.

Lemma lex_compare_consistent : consistent lex_compare.
Proof.
  split.
  - intros a b Hab. rewrite (lex_compare_opp a b). lia.
  - exact lex_compare_trans.
Qed.

Lemma byName_found_then_exact_found_witness :
  status (@getPokemonExactByName latin_platform test_environment pika_world
            (js "Pika")) <> 404.
Proof.
  apply (@byName_found_then_exact_found latin_platform test_environment
           pika_world (js "Pika")).
  - discriminate.
  - reflexivity.
  - vm_compute. reflexivity.
Defined.

Lemma delete_then_lookup_witness :
  status (@getPokemonByName latin_platform test_environment
            (snd (@pokemonDelete latin_platform test_environment evoli_world
                    (js "Pika"))) (js "Pika")) = 404
  /\ status (@getPokemonByName latin_platform test_environment
               (snd (@pokemonDelete latin_platform test_environment
                       evoli_world (js "Pika"))) (js "Evoli")) = 200.
Proof.
  destruct (@delete_then_lookup latin_platform test_environment evoli_world
              (js "Pika")) as [H1 H2].
  - vm_compute. discriminate.
  - split.
    + rewrite H1; [reflexivity|]. vm_compute.
      constructor; [intros [E|[]]; discriminate E|].
      constructor; [intros []|constructor].
    + rewrite H2 by discriminate. vm_compute. reflexivity.
Defined.

Lemma create_succeeds_witness :
  status (fst (create empty_world pika_request)) = 201
  /\ assoc (js "1.png") (assets pika_world) = Some [137; 80; 78; 71].
Proof.
  destruct (@create_succeeds latin_platform test_environment empty_world
              pika_request (js "Pika") (js "Pika") image_response
              (js "image/png"))
    as (_ & seal & _ & Hc & Hfile);
    try reflexivity.
  - intros q [].
  - split.
    + unfold create. rewrite Hc. reflexivity.
    + exact Hfile.
Defined.

(** On the collection that holds Pika: the request for [pika], which
    the duplicate check refuses, and the request for Evoli, which it lets
    through, both leave the names unique. *)
Lemma create_keeps_names_unique_witness :
  @names_unique latin_platform (pokemons pika_world)
  /\ status (fst (create pika_world pika_lowercase_request)) = 409
  /\ @names_unique latin_platform
       (pokemons (snd (create pika_world pika_lowercase_request)))
  /\ status (fst (create pika_world evoli_request)) = 201
  /\ @names_unique latin_platform (pokemons evoli_world).
Proof.
  assert (Hpika : @names_unique latin_platform (pokemons pika_world)).
  { set (l := pokemons pika_world). vm_compute in l. subst l.
    constructor; constructor. }
  split; [exact Hpika|].
  split; [vm_compute; reflexivity|].
  split.
  { apply (@create_keeps_names_unique latin_platform test_environment
             pika_world pika_lowercase_request). exact Hpika. }
  split; [vm_compute; reflexivity|].
  apply (@create_keeps_names_unique latin_platform test_environment
           pika_world evoli_request). exact Hpika.
Defined.

Lemma create_keeps_ids_distinct_witness :
  safe_ids (pokemons pika_world)
  /\ NoDup (map id (pokemons pika_world))
  /\ NoDup (map id (pokemons evoli_world))
  /\ map id (pokemons evoli_world) = [1; 2].
Proof.
  assert (Hsafe : safe_ids (pokemons pika_world)).
  { intros q Hq. vm_compute in Hq. destruct Hq as [<-|[]]. cbn [id]. lia. }
  assert (Hnd : NoDup (map id (pokemons pika_world))).
  { set (l := map id (pokemons pika_world)). vm_compute in l. subst l.
    constructor; [intros []|constructor]. }
  split; [exact Hsafe|]. split; [exact Hnd|].
  split; [|vm_compute; reflexivity].
  apply (@create_keeps_ids_distinct latin_platform test_environment
           pika_world evoli_request Hsafe Hnd).
Defined.

Lemma create_then_lookup_witness :
  exists s,
    fst (create pika_world evoli_request)
    = {| status := 201; body := JsonPokemon s |}
    /\ id (doc s) = 2
    /\ @getPokemonById latin_platform test_environment evoli_world (js "2")
       = {| status := 200; body := JsonPokemon s |}
    /\ @getPokemonByName latin_platform test_environment evoli_world
         (js "Evoli")
       = {| status := 200; body := JsonPokemon s |}.
Proof.
  assert (Hsafe : safe_ids (pokemons pika_world)).
  { intros q Hq. vm_compute in Hq. destruct Hq as [<-|[]]. cbn [id]. lia. }
  eexists. split; [vm_compute; reflexivity|]. split; [reflexivity|].
  match goal with
  | |- context [JsonPokemon ?s] =>
      destruct (@create_then_lookup latin_platform test_environment
                  pika_world evoli_request s Hsafe) as [H1 H2]
  end.
  - vm_compute. reflexivity.
  - split; [exact H1 | exact H2].
Defined.

Lemma create_twice_conflict_witness :
  status (fst (create pika_world pika_request)) = 409
  /\ snd (create pika_world pika_request) = pika_world.
Proof.
  assert (Hfirst : status (fst (@pokemonCreate latin_platform test_environment
                                  empty_world pika_request)) = 201)
    by (vm_compute; reflexivity).
  pose proof (@create_twice_conflict latin_platform test_environment
                empty_world pika_request Hfirst) as E.
  cbv zeta in E. unfold pika_world, create. rewrite E. split; reflexivity.
Defined.

Lemma getAuditLogs_spec_witness :
  @getAuditLogs latin_platform test_environment audit_world (js "pikachu")
    (Some (js "2"))
  = {| status := 200;
       body := JsonLogs [ audit_entry (js "PIKACHU") 500 400;
                          audit_entry (js "pikachu") 409 300 ] |}.
Proof.
  destruct (@getAuditLogs_spec latin_platform test_environment audit_world
              (js "pikachu") (js "pikachu") (Some (js "2")) 2 eq_refl eq_refl)
    as (_ & _ & _ & logs & E & -> & _).
  rewrite E. vm_compute. reflexivity.
Defined.

Lemma seal_insertion_order_irrelevant_witness :
  @generateIntegritySeal codeunit_platform
    (stat_object [(js "HP", 45); (js "Attack", 49)]) DEFAULT_SECRET
  = @generateIntegritySeal codeunit_platform
      (stat_object [(js "Attack", 49); (js "HP", 45)]) DEFAULT_SECRET.
Proof.
  apply (@seal_insertion_order_irrelevant codeunit_platform).
  - simpl. constructor; [intros [E|[]]; discriminate E|].
    constructor; [intros []|constructor].
  - apply perm_swap.
  - exact lex_compare_consistent.
  - intros a b _ _ Hab Hba. apply lex_compare_eq.
    pose proof (lex_compare_opp a b) as Ho.
    change (@localeCompare codeunit_platform) with lex_compare in Hab, Hba.
    lia.
Defined.

Lemma validated_create_subject_witness :
  @extractPokemonNameForAudit latin_platform pika_post = Ok (js "Pika").
Proof.
  apply (@validated_create_subject latin_platform pika_request pika_post
           (js "Pika")); reflexivity.
Defined.

(** The POST of the worked create, audited: one entry with the status of
    the response and the first forwarded address. *)
Example pika_post_audited :
  option_map (fun r => auditLogs (snd r))
    (match @destructiveAuditMiddleware latin_platform Response status 1000
             pika_post (fun w => create w pika_request) empty_world with
     | Ok r => Some r
     | Throw _ => None
     end)
  = Some [ {| action := js "CREATE"; pokemonName := js "Pika";
              sourceIp := js "203.0.113.9"; statusCode := 201;
              createdAt := 1000 |} ].
Proof. vm_compute. reflexivity. Qed.

(** The DELETE of Pika, audited under the remote address of the socket,
    and the same request sent as a GET, which leaves no entry. *)
Example pika_delete_audited :
  option_map (fun r => (reply_status (fst r), auditLogs (snd r)))
    (match @destructiveAuditMiddleware latin_platform Reply reply_status 2000
             pika_delete
             (fun w => @pokemonDelete latin_platform test_environment w
                         (js "Pika"))
             pika_world with
     | Ok r => Some r
     | Throw _ => None
     end)
  = Some (200,
          [ {| action := js "DELETE"; pokemonName := js "Pika";
               sourceIp := js "::1"; statusCode := 200;
               createdAt := 2000 |} ])
  /\ option_map (fun r => auditLogs (snd r))
       (match @destructiveAuditMiddleware latin_platform Reply reply_status
                2000
                {| method := js "GET";
                   params_name := params_name pika_delete;
                   audit_body := audit_body pika_delete;
                   forwarded_for := forwarded_for pika_delete;
                   req_ip := req_ip pika_delete;
                   remoteAddress := remoteAddress pika_delete |}
                (fun w => @pokemonDelete latin_platform test_environment w
                            (js "Pika"))
                pika_world with
        | Ok r => Some r
        | Throw _ => None
        end)
     = Some [].
Proof. vm_compute. split; reflexivity. Qed.

(** What the escaping is for: left as it is, the name [a.c] is a pattern
    that also matches [abc], and the name [a(] is no pattern at all. *)
Example unescaped_name_is_a_pattern :
  @regex_test latin_platform (anchored (js "a.c")) (js "abc") = Ok true
  /\ @regex_test latin_platform (anchored (escapeRegExp (js "a.c"))) (js "abc")
     = Ok false
  /\ @regex_test latin_platform (anchored (escapeRegExp (js "a.c"))) (js "A.C")
     = Ok true
  /\ (exists message,
        @regex_test latin_platform (anchored (js "a(")) (js "a(")
        = Throw message)
  /\ @regex_test latin_platform (anchored (escapeRegExp (js "a("))) (js "a(")
     = Ok true.
Proof.
  vm_compute. repeat split. eexists. reflexivity.
Qed.
